(** * Emerge: structural updates that preserve references

    A shallow embedding of [src/emerge.js].  JavaScript values are either
    primitives or references into a store of objects; "the same reference" is
    equality of store locations.  The library never writes to an object it was
    given: every structure it makes is built in a local variable and only then
    handed out, so the store only grows, and an allocation appends one object.

    Scope of the data model (the "JSON-like value trees" of the library):
    - numbers are the integers, the non-integral finite numbers (named by
      their canonical rendering), the two infinities and NaN; the sign of zero
      is not modelled; an integer below 10^21 in magnitude is rendered in
      plain decimal digits, a larger one as the runtime renders it;
    - a string is a sequence of UTF-16 code units below 256, one for each
      character of the Rocq string;
    - a plain dict is a finite map from property names (strings) to values:
      its own properties, all of them enumerable data properties; symbols and
      accessors of its own are outside the model;
    - a list is a dense sequence of values (a hole reads as [undefined]), and
      the built-in prototypes hold no index name;
    - any other object is opaque: it is callable or not, and has a table of
      own properties;
    - a read [value[key]] yields the own property of that name, and for a
      name the value does not own what its prototype chain holds, which is a
      parameter, [inherited];
    - a write [out[key] = value] is made only to an object the library has
      just created with [{}]; under the name ["__proto__"] it runs the setter
      that [Object.prototype] defines;
    - what the runtime does when an object is used as a property name is a
      parameter, [objectKey]. *)

From Stdlib Require Import ZArith Lia.
From stdpp Require Import base decidable option list strings pretty gmap fin_maps.

(** ** Values and the store *)

Inductive num :=
  | NInt (z : Z)
  | NFrac (repr : string)
  | NInf (negative : bool)
  | NNaN.

Inductive val :=
  | VUndef
  | VNull
  | VBool (b : bool)
  | VNum (n : num)
  | VStr (s : string)
  | VRef (l : nat).

Inductive obj :=
  | OList (xs : list val)
  | ODict (d : gmap string val)
  | OOpaque (callable : bool) (props : gmap string val).

Abbreviation heap := (list obj).

Global Instance num_eq_dec : EqDecision num.
Proof. solve_decision. Defined.
Global Instance val_eq_dec : EqDecision val.
Proof. solve_decision. Defined.
Global Instance obj_eq_dec : EqDecision obj.
Proof. solve_decision. Defined.

(** What the runtime supplies.  [objectKey]: the conversion of an object used
    as a property name ([value[key]] with an object for [key]); [None] when
    the conversion throws.  [inherited]: what a read [value[key]] yields when
    [value] does not own the name [key], that is, what the prototype chain of
    [value] holds under it, [undefined] when it holds nothing; on a plain
    object of the standard runtime this is a built-in function under
    ["toString"] or ["constructor"] and [Object.prototype] itself under
    ["__proto__"].  [exponentForm]: [String(n)] for an integer [n] of
    magnitude 10^21 or more, which is written with an exponent. *)
Class Host := {
  objectKey : heap → nat → option string;
  inherited : val → string → val;
  exponentForm : Z → string
}.

(** ** Errors and the monad of the library's functions *)

Inductive test :=
  | IsFunction | IsArray | IsDict | IsPrimitive | IsPath | IsInteger | IsNatural.

Inductive error :=
  | ValidateError (shown : val) (expected : test)
  | BoundsError (index : Z) (len : nat)
  | HostError.

(** A call returns a value, or throws one of the library's errors, or is
    [Exhausted]: the recursion went deeper than the fuel it was given, where
    the runtime, whose stack is finite, throws a [RangeError]; or it
    [Escapes]: it has replaced the prototype of an object it was building,
    and what it returns is an object outside this data model. *)
Inductive outcome (A : Type) :=
  | Ok (a : A)
  | Throw (e : error)
  | Exhausted
  | Escapes.
Arguments Ok {A} a.
Arguments Throw {A} e.
Arguments Exhausted {A}.
Arguments Escapes {A}.

Definition M (A : Type) : Type := heap → outcome (A * heap).

Definition ret {A} (a : A) : M A := λ h, Ok (a, h).
Definition throw {A} (e : error) : M A := λ _, Throw e.
Definition bind {A B} (c : M A) (k : A → M B) : M B :=
  λ h, match c h with
       | Ok (a, h') => k a h'
       | Throw e => Throw e
       | Exhausted => Exhausted
       | Escapes => Escapes
       end.
Definition alloc (o : obj) : M val := λ h, Ok (VRef (length h), h ++ [o]).
Definition liftO {A} (r : outcome A) : M A :=
  λ h, match r with
       | Ok a => Ok (a, h)
       | Throw e => Throw e
       | Exhausted => Exhausted
       | Escapes => Escapes
       end.

Notation "'let*' x ':=' c 'in' k" := (bind c (λ x, k))
  (at level 10, x name, c at level 100, k at level 200).
Notation "c ';;' k" := (bind c (λ _, k))
  (at level 100, k at level 200, right associativity).

Fixpoint mapM {A B} (f : A → M B) (l : list A) : M (list B) :=
  match l with
  | [] => ret []
  | x :: t => let* y := f x in let* ys := mapM f t in ret (y :: ys)
  end.

Fixpoint foldM {A B} (f : B → A → M B) (l : list A) (b : B) : M B :=
  match l with
  | [] => ret b
  | x :: t => let* b' := f b x in foldM f t b'
  end.

(** ** Boolean *)

Definition strictEq (one other : val) : bool :=
  match one, other with
  | VNum NNaN, _ | _, VNum NNaN => false
  | _, _ => bool_decide (one = other)
  end.

Definition isNaN (v : val) : bool := negb (strictEq v v).

Definition is_ (one other : val) : bool :=
  strictEq one other || (isNaN one && isNaN other).

(** ** Utils: classification *)

Inductive jstype :=
  | TUndefined | TObject | TBoolean | TNumber | TString | TFunction.

Global Instance jstype_eq_dec : EqDecision jstype.
Proof. solve_decision. Defined.

Definition typeof (h : heap) (v : val) : jstype :=
  match v with
  | VUndef => TUndefined
  | VNull => TObject
  | VBool _ => TBoolean
  | VNum _ => TNumber
  | VStr _ => TString
  | VRef l => match h !! l with
              | Some (OOpaque true _) => TFunction
              | _ => TObject
              end
  end.

Definition isNil (v : val) : bool :=
  match v with VUndef | VNull => true | _ => false end.

Definition isObject (h : heap) (v : val) : bool :=
  negb (strictEq v VNull) && bool_decide (typeof h v = TObject).

Definition isFunction (h : heap) (v : val) : bool :=
  bool_decide (typeof h v = TFunction).

Definition isPrimitive (h : heap) (v : val) : bool :=
  negb (isObject h v) && negb (isFunction h v).

Definition isDict (h : heap) (v : val) : bool :=
  isObject h v &&
  match v with
  | VRef l => match h !! l with Some (ODict _) => true | _ => false end
  | _ => false
  end.

Definition isArray (h : heap) (v : val) : bool :=
  isObject h v &&
  match v with
  | VRef l => match h !! l with Some (OList _) => true | _ => false end
  | _ => false
  end.

Definition isInteger (v : val) : bool :=
  match v with
  | VNum (NInt _) => true
  | _ => false
  end.

Definition asInt (v : val) : Z :=
  match v with VNum (NInt z) => z | _ => 0%Z end.

Definition isNatural (v : val) : bool :=
  isInteger v && (0 <=? asInt v)%Z.

Definition isString (v : val) : bool :=
  match v with VStr _ => true | _ => false end.

Fixpoint everyByFrom {A} (fn : A → nat → bool) (i : nat) (l : list A) : bool :=
  match l with
  | [] => true
  | x :: t => fn x i && everyByFrom fn (S i) t
  end.

Definition everyBy {A} (l : list A) (fn : A → nat → bool) : bool :=
  everyByFrom fn 0 l.

(** ** Reading objects *)

(** The elements of a List; a location outside the store, like any object
    that is neither a List nor a Dict, is treated as opaque. *)
Definition elems (h : heap) (v : val) : list val :=
  match v with
  | VRef l => match h !! l with Some (OList xs) => xs | _ => [] end
  | _ => []
  end.

(** The property table of a Dict (or of an opaque object). *)
Definition entries (h : heap) (v : val) : gmap string val :=
  match v with
  | VRef l => match h !! l with
              | Some (ODict d) => d
              | Some (OOpaque _ props) => props
              | _ => ∅
              end
  | _ => ∅
  end.

(** The index a property name denotes in a sequence of [len] elements. *)
Definition arrayIndex (len : nat) (key : string) : option nat :=
  snd <$> list_find (λ i : nat, pretty i = key) (seq 0 len).

(** The own property of [value] under the name [key], if it has one: an
    element or the length of a List or of a string, an entry of a Dict or of
    an opaque object. *)
Definition own (h : heap) (v : val) (key : string) : option val :=
  match v with
  | VRef l =>
      match h !! l with
      | Some (OList xs) =>
          match arrayIndex (length xs) key with
          | Some i => xs !! i
          | None =>
              if decide (key = "length")
              then Some (VNum (NInt (Z.of_nat (length xs)))) else None
          end
      | Some (ODict d) => d !! key
      | Some (OOpaque _ props) => props !! key
      | None => None
      end
  | VStr s =>
      match arrayIndex (String.length s) key with
      | Some i => (λ c, VStr (String c EmptyString)) <$> String.get i s
      | None =>
          if decide (key = "length")
          then Some (VNum (NInt (Z.of_nat (String.length s)))) else None
      end
  | _ => None
  end.

(** [has.call(dict, key)]. *)
Definition has (h : heap) (v : val) (key : string) : bool :=
  bool_decide (is_Some (own h v key)).

(** [list[i]] for a natural number [i]. *)
Definition at_ (h : heap) (v : val) (i : nat) : val :=
  default VUndef (elems h v !! i).

(** [Object.keys(value)]. *)
Definition getKeys (h : heap) (v : val) : list string :=
  match v with
  | VRef l =>
      match h !! l with
      | Some (OList xs) => pretty <$> seq 0 (length xs)
      | Some (ODict d) => (map_to_list d).*1
      | _ => []
      end
  | _ => []
  end.

Definition len (h : heap) (v : val) : nat := length (elems h v).

(** ** More predicates, over the store *)

Definition isPath (h : heap) (v : val) : bool :=
  isArray h v && everyBy (elems h v) (λ x _, isPrimitive h x).

Definition satisfies (h : heap) (t : test) (v : val) : bool :=
  match t with
  | IsFunction => isFunction h v
  | IsArray => isArray h v
  | IsDict => isDict h v
  | IsPrimitive => isPrimitive h v
  | IsPath => isPath h v
  | IsInteger => isInteger v
  | IsNatural => isNatural v
  end.

Definition validate (v : val) (t : test) : M unit :=
  λ h, if satisfies h t v then Ok (tt, h) else Throw (ValidateError v t).

Definition validateBounds (lst index : val) : M unit :=
  validate index IsNatural ;;
  λ h, if (asInt index <=? Z.of_nat (len h lst))%Z then Ok (tt, h)
       else Throw (BoundsError (asInt index) (len h lst)).

Definition everyListPairBy (h : heap) (one other : val) (fn : val → val → bool) : bool :=
  bool_decide (len h one = len h other) &&
  everyBy (elems h one) (λ x i, fn x (at_ h other i)).

Definition alwaysArray (v : val) : M val :=
  if isNil v then alloc (OList []) else (validate v IsArray ;; ret v).

Definition toDict (v : val) : M val :=
  λ h, if isDict h v then Ok (v, h) else alloc (ODict ∅) h.

Definition alwaysDict (v : val) : M val :=
  if isNil v then alloc (ODict ∅) else (validate v IsDict ;; ret v).

Definition reads {A} (f : heap → A) : M A := λ h, Ok (f h, h).

(** [out[index] = value] on a list: past the end, JavaScript extends the list
    and the skipped slots read as [undefined]. *)
Definition setAt (xs : list val) (i : nat) (v : val) : list val :=
  if decide (i < length xs)%nat then <[i:=v]> xs
  else xs ++ replicate (i - length xs) VUndef ++ [v].

(** ** Objects under construction *)

(** An object the library has made with [{}] and is still writing to: its own
    properties, and the object that a write has put in the place of its
    prototype, if any ([None]: the prototype is still [Object.prototype]). *)
Record draft := Draft {
  props : gmap string val;
  parent : option val
}.

(** [{}]. *)
Definition blank : draft := Draft ∅ None.

(** [out[key] = value] on a draft.  No plain object owns a setter, and
    [Object.prototype] has one only for ["__proto__"]: under that name the
    write creates no property; it makes an object (or [null]) the prototype
    of [out], and ignores any other value.  Under any other name the write
    creates or replaces the own property.  (A draft whose prototype has been
    replaced is never handed out as a value of the model, see [seal].) *)
Definition write (out : draft) (key : string) (value : val) : draft :=
  if decide (key = "__proto__") then
    match value with
    | VRef _ | VNull => Draft (props out) (Some value)
    | _ => out
    end
  else Draft (<[key:=value]> (props out)) (parent out).

(** The draft, handed out as an object of the store: a Dict when its prototype
    is still [Object.prototype]. *)
Definition seal (out : draft) : M val :=
  match parent out with
  | None => alloc (ODict (props out))
  | Some _ => λ _, Escapes
  end.

Section Model.
Context `{Host}.

(** ** Reading properties *)

Definition numToString (n : num) : string :=
  match n with
  | NInt z => if decide (Z.abs z < 10 ^ 21)%Z then pretty z else exponentForm z
  | NFrac repr => repr
  | NInf false => "Infinity"
  | NInf true => "-Infinity"
  | NNaN => "NaN"
  end.

(** [String(value)] on a primitive.  [put] and [putIn] validate their keys
    before they reach [toKey], so the last case is never taken. *)
Definition toKey (v : val) : string :=
  match v with
  | VUndef => "undefined"
  | VNull => "null"
  | VBool true => "true"
  | VBool false => "false"
  | VNum n => numToString n
  | VStr s => s
  | VRef _ => "[object Object]"
  end.

(** [value[key]] for a property name [key]: the own property, and for a name
    that [value] does not own, what its prototype chain holds. *)
Definition prop (h : heap) (v : val) (key : string) : val :=
  default (inherited v key) (own h v key).

Definition everyDictPairBy (h : heap) (one other : val) (fn : val → val → bool) : bool :=
  let keys := getKeys h one in
  bool_decide (length keys = length (getKeys h other)) &&
  everyBy keys (λ key _, has h other key) &&
  everyBy keys (λ key _, fn (prop h one key) (prop h other key)).

(** The comparator is a function of the model, so the test that it is
    callable always passes. *)
Definition equalBy (h : heap) (one other : val) (fn : val → val → bool) : bool :=
  is_ one other ||
  (if isArray h one then isArray h other && everyListPairBy h one other fn
   else if isDict h one then isDict h other && everyDictPairBy h one other fn
   else false).

(** ** Get *)

(** The property name a key value denotes. *)
Definition propertyKey (h : heap) (key : val) : outcome string :=
  match key with
  | VRef l => match objectKey h l with Some s => Ok s | None => Throw HostError end
  | _ => Ok (toKey key)
  end.

Definition get (h : heap) (v key : val) : outcome val :=
  if isNil v then Ok VUndef
  else match propertyKey h key with
       | Ok s => Ok (prop h v s)
       | Throw e => Throw e
       | Exhausted => Exhausted
       | Escapes => Escapes
       end.

Fixpoint getFold (h : heap) (v : val) (keys : list val) : outcome val :=
  match keys with
  | [] => Ok v
  | key :: rest =>
      match get h v key with
      | Ok v' => getFold h v' rest
      | Throw e => Throw e
      | Exhausted => Exhausted
      | Escapes => Escapes
      end
  end.

Definition getIn (v path : val) : M val :=
  validate path IsArray ;;
  λ h, liftO (getFold h v (elems h path)) h.

(** [scan(value, ...keys)]: the keys are the arguments after the first. *)
Definition scan (v : val) (keys : list val) : M val :=
  λ h, liftO (getFold h v keys) h.

(** ** Update (internal) *)

Definition replaceListBy (prev next : val) (fn : val → val → M val) : M val :=
  let* n := reads (λ h, len h next) in
  let* out := mapM (λ i h, fn (at_ h prev i) (at_ h next i) h) (seq 0 n) in
  let* o := alloc (OList out) in
  reads (λ h, if equalBy h prev o is_ then prev else o).

(** One turn of the loop over [nextKeys] in [replaceDictBy] and
    [patchDictBy]. *)
Definition putKeyBy (prev next : val) (fn : val → val → M val)
    (out : draft) (key : string) : M draft :=
  let* v := (λ h, fn (prop h prev key) (prop h next key) h) in
  ret (if isNil v then out else write out key v).

Definition replaceDictBy (prev next : val) (fn : val → val → M val) : M val :=
  let* nextKeys := reads (λ h, getKeys h next) in
  let* out := foldM (putKeyBy prev next fn) nextKeys blank in
  let* o := seal out in
  reads (λ h, if equalBy h prev o is_ then prev else o).

(** One turn of the loop over [prevKeys] in [patchDictBy]. *)
Definition keepKey (h : heap) (prev next : val)
    (out : draft) (key : string) : draft :=
  if negb (isNil (prop h prev key)) && negb (has h next key)
  then write out key (prop h prev key) else out.

Definition patchDictBy (prev next : val) (fn : val → val → M val) : M val :=
  let* prevKeys := reads (λ h, getKeys h prev) in
  let* out0 := reads (λ h, foldl (keepKey h prev next) blank prevKeys) in
  let* nextKeys := reads (λ h, getKeys h next) in
  let* out := foldM (putKeyBy prev next fn) nextKeys out0 in
  let* o := seal out in
  reads (λ h, if equalBy h prev o is_ then prev else o).

(** [fuel] bounds the depth of nested lists and dicts the recursion may
    descend into; past it the call is [Exhausted]. *)
Fixpoint putAny (fuel : nat) (prev next : val) : M val :=
  λ h,
    if is_ prev next then Ok (prev, h)
    else if isArray h prev then
      if isArray h next then
        match fuel with
        | O => Exhausted
        | S fuel' => replaceListBy prev next (putAny fuel') h
        end
      else Ok (next, h)
    else if isDict h prev then
      if isDict h next then
        match fuel with
        | O => Exhausted
        | S fuel' => replaceDictBy prev next (putAny fuel') h
        end
      else Ok (next, h)
    else Ok (next, h).

Definition patchTwoDicts (fuel : nat) (prev next : val) : M val :=
  let* prev := alwaysDict prev in
  let* next := alwaysDict next in
  if is_ prev next then ret prev
  else patchDictBy prev next (putAny fuel).

(** [mergeTwo] and [mergeOrPut] call each other; the function handed to
    [patchDictBy] is [mergeOrPut], written in place here and named below. *)
Fixpoint mergeTwo (fuel : nat) (prev next : val) : M val :=
  if is_ prev next then ret prev
  else
    match fuel with
    | O => λ _, Exhausted
    | S fuel' =>
        let* p := toDict prev in
        let* n := toDict next in
        patchDictBy p n
          (λ prev next h,
             if isDict h next then mergeTwo fuel' prev next h
             else putAny fuel' prev next h)
    end.

Definition mergeOrPut (fuel : nat) (prev next : val) : M val :=
  λ h, if isDict h next then mergeTwo fuel prev next h else putAny fuel prev next h.

Definition mergeTwoDicts (fuel : nat) (prev next : val) : M val :=
  let* p := alwaysDict prev in
  let* n := alwaysDict next in
  mergeTwo fuel p n.

Definition assocAtIndex (lst index value : val) : M val :=
  validateBounds lst index ;;
  λ h,
    let i := Z.to_nat (asInt index) in
    if (asInt index <? Z.of_nat (len h lst))%Z && is_ (at_ h lst i) value
    then Ok (lst, h)
    else alloc (OList (setAt (elems h lst) i value)) h.

(** One turn of the loop over [prevKeys] in [assocAtKey]. *)
Definition copyKey (h : heap) (dict : val) (key : string)
    (out : draft) (prevKey : string) : draft :=
  if negb (bool_decide (prevKey = key)) && negb (isNil (prop h dict prevKey))
  then write out prevKey (prop h dict prevKey) else out.

Definition assocAtKey (dict key value : val) : M val :=
  let key := toKey key in
  λ h,
    if (if isNil value then negb (has h dict key)
        else is_ (prop h dict key) value)
    then Ok (dict, h)
    else
      let out := foldl (copyKey h dict key) blank (getKeys h dict) in
      seal (if isNil value then out else write out key value) h.

Definition assoc (prev key next : val) : M val :=
  λ h, if isArray h prev then assocAtIndex prev key next h
       else (let* d := alwaysDict prev in assocAtKey d key next) h.

Definition getM (v key : val) : M val := λ h, liftO (get h v key) h.

(** [assocInAt prev path next index], on the keys of [path] from [index]
    on.  [assocIn] calls it on a path that is not empty; past the end,
    [path[index]] is [undefined]. *)
Fixpoint assocInAt (prev : val) (keys : list val) (next : val) : M val :=
  match keys with
  | [] => assoc prev VUndef next
  | [key] => assoc prev key next
  | key :: rest =>
      let* inner := getM prev key in
      let* sub := assocInAt inner rest next in
      assoc prev key sub
  end.

Definition assocIn (prev path next : val) : M val :=
  λ h, if bool_decide (len h path = 0%nat) then Ok (next, h)
       else assocInAt prev (elems h path) next h.

(** ** Update *)

Definition put (fuel : nat) (prev key value : val) : M val :=
  validate key IsPrimitive ;;
  let* cur := getM prev key in
  let* next := putAny fuel cur value in
  assoc prev key next.

Definition putIn (fuel : nat) (prev path next : val) : M val :=
  validate path IsPath ;;
  let* cur := getIn prev path in
  let* new := putAny fuel cur next in
  assocIn prev path new.

Definition arg (args : list val) (i : nat) : val := default VUndef (args !! i).

(** [Array.prototype.reduce] without an initial value, on at least one
    argument. *)
Definition reduce (fn : val → val → M val) (args : list val) : M val :=
  match args with
  | [] => ret VUndef
  | first :: rest => foldM fn rest first
  end.

Definition patch (fuel : nat) (args : list val) : M val :=
  if decide (2 < length args)%nat then reduce (patchTwoDicts fuel) args
  else patchTwoDicts fuel (arg args 0) (arg args 1).

Definition merge (fuel : nat) (args : list val) : M val :=
  if decide (2 < length args)%nat then reduce (mergeTwoDicts fuel) args
  else mergeTwoDicts fuel (arg args 0) (arg args 1).

Definition insertAtIndex (lst index value : val) : M val :=
  let* lst := alwaysArray lst in
  validateBounds lst index ;;
  let* xs := reads (λ h, elems h lst) in
  let i := Z.to_nat (asInt index) in
  alloc (OList (take i xs ++ value :: drop i xs)).

Definition removeAtIndex (lst index : val) : M val :=
  validate index IsInteger ;;
  let* lst := alwaysArray lst in
  λ h,
    if isNatural index && (asInt index <? Z.of_nat (len h lst))%Z
    then
      let i := Z.to_nat (asInt index) in
      alloc (OList (take i (elems h lst) ++ drop (S i) (elems h lst))) h
    else Ok (lst, h).

End Model.

(** ** Deep equality *)

(** [equal] hands itself to [equalBy] as the comparator, so the comparator
    may fail to return.  [Deep] holds [everyBy] and the functions built on it
    for such a comparator: [None] is a comparison that does not return, and
    [&&] and the early [return false] of [everyBy] stop before it is asked. *)
Module Deep.

Definition andThen (b : bool) (c : option bool) : option bool :=
  if b then c else Some false.

(** The first two conjuncts of [everyDictPairBy]: as many keys, and every
    key of [one] a key of [other]. *)
Definition sameKeys (h : heap) (one other : val) : bool :=
  let keys := getKeys h one in
  bool_decide (length keys = length (getKeys h other)) &&
  everyBy keys (λ key _, has h other key).

Fixpoint everyByFrom {A} (fn : A → nat → option bool) (i : nat) (l : list A) :
    option bool :=
  match l with
  | [] => Some true
  | x :: t =>
      match fn x i with
      | Some true => everyByFrom fn (S i) t
      | Some false => Some false
      | None => None
      end
  end.

Definition everyBy {A} (l : list A) (fn : A → nat → option bool) : option bool :=
  everyByFrom fn 0 l.

Definition everyListPairBy (h : heap) (one other : val)
    (fn : val → val → option bool) : option bool :=
  andThen (bool_decide (len h one = len h other))
    (everyBy (elems h one) (λ x i, fn x (at_ h other i))).

Section WithHost.
Context `{Host}.

Definition everyDictPairBy (h : heap) (one other : val)
    (fn : val → val → option bool) : option bool :=
  andThen (sameKeys h one other)
    (everyBy (getKeys h one) (λ key _, fn (prop h one key) (prop h other key))).

Definition equalBy (h : heap) (one other : val)
    (fn : val → val → option bool) : option bool :=
  if is_ one other then Some true
  else if isArray h one then
    andThen (isArray h other) (everyListPairBy h one other fn)
  else if isDict h one then
    andThen (isDict h other) (everyDictPairBy h one other fn)
  else Some false.

End WithHost.

End Deep.

Section Equal.
Context `{Host}.

(** [fuel] bounds the depth of the comparison; [None] past it. *)
Fixpoint equal (fuel : nat) (h : heap) (one other : val) : option bool :=
  Deep.equalBy h other one
    (λ a b, match fuel with
            | O => None
            | S fuel' => equal fuel' h a b
            end).

End Equal.

(** * Vocabulary of the properties *)

Section Vocabulary.
Context `{Host}.

(** [get] on a key that is a primitive: no conversion can fail. *)
Definition getPrim (h : heap) (v key : val) : val :=
  if isNil v then VUndef else prop h v (toKey key).

(** The comparator [equal] hands to [equalBy] when it has [fuel] left. *)
Definition comparator (fuel : nat) (h : heap) (a b : val) : option bool :=
  match fuel with
  | O => None
  | S fuel' => equal fuel' h a b
  end.

(** [dictChain h v keys]: reading [keys] one after the other from [v], every
    value a key is read from is nullish or a Dict. *)
Fixpoint dictChain (h : heap) (v : val) (keys : list val) : bool :=
  match keys with
  | [] => true
  | key :: rest => (isNil v || isDict h v) && dictChain h (getPrim h v key) rest
  end.

(** [dictPath h v keys]: reading [keys] one after the other from [v], every
    value a key is read from is a Dict. *)
Fixpoint dictPath (h : heap) (v : val) (keys : list val) : bool :=
  match keys with
  | [] => true
  | key :: rest => isDict h v && dictPath h (getPrim h v key) rest
  end.

End Vocabulary.

(** No value of the map is null or undefined. *)
Definition cleanMap (d : gmap string val) : Prop :=
  ∀ k x, d !! k = Some x → isNil x = false.

(** An object that, if it is a Dict, holds no nullish value. *)
Definition cleanObj (o : obj) : Prop :=
  match o with
  | ODict d => cleanMap d
  | _ => True
  end.

(** An object that, if it is a Dict, owns no property named ["__proto__"]
    (as the Dict that [JSON.parse] makes of [{"__proto__": 1}] does). *)
Definition plainObj (o : obj) : Prop :=
  match o with
  | ODict d => d !! "__proto__" = None
  | _ => True
  end.

(** Both. *)
Definition tidyObj (o : obj) : Prop := cleanObj o ∧ plainObj o.

(** A draft that holds no nullish value; a draft never owns a property
    named ["__proto__"]. *)
Definition tidyDraft (out : draft) : Prop :=
  cleanMap (props out) ∧ props out !! "__proto__" = None.

(** [grows h h']: [h'] is [h] followed by new objects, and no new Dict holds
    a nullish value or owns a property named ["__proto__"]. *)
Definition grows (h h' : heap) : Prop :=
  ∃ ext, h' = h ++ ext ∧ Forall tidyObj ext.

(** A computation is [sound] for [Q] when every result it returns satisfies
    [Q] and the store has only grown. *)
Definition sound {A} (c : M A) (Q : A → Prop) : Prop :=
  ∀ h r h', c h = Ok (r, h') → grows h h' ∧ Q r.

(** What [assocAtKey] writes when it has to copy: every entry of the dict
    under another key, with the value it had, unless that value is nullish;
    and the new value under [key]. *)
Definition rewritten (d : gmap string val) (key : string) (value : val) :
    gmap string val :=
  <[key:=value]> (filter (λ kv : string * val, isNil kv.2 = false) (delete key d)).


(** The values a List or a Dict holds; [putAny] and [mergeTwo] descend into
    these only. *)
Definition children (o : obj) : list val :=
  match o with
  | OList xs => xs
  | ODict d => (map_to_list d).*2
  | OOpaque _ _ => []
  end.

(** A store is [ordered] when every List and Dict refers only to objects
    made before it.  The stores the library builds are of this kind, and any
    store without a cycle can be numbered this way. *)
Definition ordered (h : heap) : Prop :=
  ∀ l o l', h !! l = Some o → VRef l' ∈ children o → (l' < l)%nat.

(** The test for [ordered], on a store whose first object is at location
    [l]. *)
Fixpoint orderedFrom (l : nat) (h : heap) : bool :=
  match h with
  | [] => true
  | o :: t =>
      forallb (λ v, match v with VRef l' => l' <? l | _ => true end) (children o)
      && orderedFrom (S l) t
  end.

(** [total_from h0 c Q]: run in [h0] or any store that extends it, in which
    no Dict owns a property named ["__proto__"], [c] returns a result that
    satisfies [Q] and only adds to the store, and adds no such Dict. *)
Definition total_from {A} (h0 : heap) (c : M A) (Q : A → Prop) : Prop :=
  ∀ ext, Forall plainObj (h0 ++ ext) →
    ∃ r ext',
      c (h0 ++ ext) = Ok (r, (h0 ++ ext) ++ ext') ∧ Forall plainObj ext' ∧ Q r.

(** A draft whose prototype is still [Object.prototype]. *)
Definition whole (out : draft) : Prop :=
  parent out = None ∧ props out !! "__proto__" = None.

(** [within h0 fuel v]: a reference held in [v] is to an object of [h0] that
    [fuel] nested calls suffice to descend into. *)
Definition within (h0 : heap) (fuel : nat) (v : val) : Prop :=
  ∀ l, v = VRef l → (l < fuel)%nat ∧ (l < length h0)%nat.

(** The store of the example: [{a: 1, b: 2}] at location 0 and
    [{b: 3, c: 4}] at location 1. *)
Definition patchStore : heap :=
  [ODict (<["a":=VNum (NInt 1)]> {[ "b" := VNum (NInt 2) ]});
   ODict (<["b":=VNum (NInt 3)]> {[ "c" := VNum (NInt 4) ]})].

(** [returns_from h0 c r]: run in [h0] or any store that extends it, [c]
    returns [r] and only adds to the store. *)
Definition returns_from {A} (h0 : heap) (c : M A) (r : A) : Prop :=
  ∀ ext, ∃ ext', c (h0 ++ ext) = Ok (r, (h0 ++ ext) ++ ext').

(** A computation that throws none of the library's errors. *)
Definition nothrow {A} (c : M A) : Prop := ∀ h e, c h ≠ Throw e.

(** A value the library takes as a whole: a primitive, or an object of the
    store that is neither a List nor a Dict. *)
Definition atomic (h : heap) (v : val) : Prop :=
  match v with
  | VRef l => ∃ c ps, h !! l = Some (OOpaque c ps)
  | _ => True
  end.

(** [safe c Q]: run in a store in which no Dict owns a property named
    ["__proto__"], [c] replaces no prototype, and what it returns satisfies
    [Q], the store having only grown. *)
Definition safe {A} (c : M A) (Q : A → Prop) : Prop :=
  ∀ h, Forall plainObj h →
    match c h with
    | Ok (r, h') => grows h h' ∧ Q r
    | Escapes => False
    | Throw _ | Exhausted => True
    end.

(** The two-argument step of [patch] and of [merge], in a store in which no
    Dict owns a property named ["__proto__"]: it throws the Dict test on one
    of its two arguments and nothing else, replaces no prototype, and
    returns a Dict. *)
Definition dictStep (fn : val → val → M val) : Prop :=
  ∀ a b h, Forall plainObj h →
    match fn a b h with
    | Throw e =>
        (e = ValidateError a IsDict ∧ isNil a = false ∧ isDict h a = false) ∨
        (e = ValidateError b IsDict ∧ isNil b = false ∧ isDict h b = false)
    | Ok (r, h') => grows h h' ∧ isDict h' r = true
    | Exhausted => True
    | Escapes => False
    end.

(** ** Runtimes of the examples *)

(** A runtime in which an object used as a property name fails to convert
    and the prototypes hold none of the names that are read; the standard
    runtime answers the same for every name that the built-in prototypes do
    not define.  The examples use no integer of twenty-two digits. *)
Definition quietHost : Host :=
  {| objectKey := λ _ _, None;
     inherited := λ _ _, VUndef;
     exponentForm := λ _, "" |}.

(** The same, with objects that convert to ["[object Object]"] when they are
    used as property names, as plain objects do. *)
Definition objectHost : Host :=
  {| objectKey := λ _ _, Some "[object Object]";
     inherited := λ _ _, VUndef;
     exponentForm := λ _, "" |}.

(** * Properties *)
(** ** Identity *)

Lemma strictEq_refl_false (v : val) : strictEq v v = false → v = VNum NNaN.
Proof.
  destruct v as [| | |[]| |]; simpl; try done;
    intros Hf; by apply bool_decide_eq_false in Hf.
Qed.

Lemma is_spec (one other : val) : is_ one other = true ↔ one = other.
Proof.
  unfold is_, isNaN. split.
  - intros Hi. apply orb_true_iff in Hi as [Hs | Hn].
    + destruct one as [| | |[]| |], other as [| | |[]| |]; simpl in Hs;
        try done; by apply bool_decide_eq_true in Hs.
    + apply andb_true_iff in Hn as [H1 H2].
      apply negb_true_iff in H1, H2.
      apply strictEq_refl_false in H1, H2. congruence.
  - intros <-. destruct (strictEq one one) eqn:Hs; [done |].
    by rewrite orb_false_l.
Qed.

Lemma is_refl (v : val) : is_ v v = true.
Proof. by apply is_spec. Qed.

Lemma is_false (one other : val) : is_ one other = false ↔ one ≠ other.
Proof.
  rewrite <- is_spec. destruct (is_ one other); split; done.
Qed.

(** ** Classification *)

Lemma isArray_ref h v :
  isArray h v = true ↔ ∃ l xs, v = VRef l ∧ h !! l = Some (OList xs).
Proof.
  unfold isArray, isObject. split.
  - destruct v as [| | | | |l]; simpl; try (rewrite ?andb_false_r; done).
    destruct (h !! l) as [[xs|d|c p]|] eqn:Hl;
      rewrite ?andb_false_r; try done. eauto.
  - intros (l & xs & -> & Hl). simpl. by rewrite Hl.
Qed.

Lemma isDict_ref h v :
  isDict h v = true ↔ ∃ l d, v = VRef l ∧ h !! l = Some (ODict d).
Proof.
  unfold isDict, isObject. split.
  - destruct v as [| | | | |l]; simpl; try (rewrite ?andb_false_r; done).
    destruct (h !! l) as [[xs|d|c p]|] eqn:Hl;
      rewrite ?andb_false_r; try done. eauto.
  - intros (l & d & -> & Hl). simpl. by rewrite Hl.
Qed.

Lemma isArray_not_nil h v : isArray h v = true → isNil v = false.
Proof. by intros (l & xs & -> & _)%isArray_ref. Qed.

Lemma isDict_not_nil h v : isDict h v = true → isNil v = false.
Proof. by intros (l & xs & -> & _)%isDict_ref. Qed.

Lemma isArray_valid h l : isArray h (VRef l) = true → (l < length h)%nat.
Proof.
  intros (l' & xs & [= <-] & Hl)%isArray_ref. by eapply lookup_lt_Some.
Qed.

Lemma isDict_valid h l : isDict h (VRef l) = true → (l < length h)%nat.
Proof.
  intros (l' & xs & [= <-] & Hl)%isDict_ref. by eapply lookup_lt_Some.
Qed.

Lemma isDict_not_array h v : isDict h v = true → isArray h v = false.
Proof.
  intros (l & d & -> & Hl)%isDict_ref. unfold isArray. simpl.
  rewrite Hl. apply andb_false_r.
Qed.

Lemma isNatural_spec v :
  isNatural v = true ↔ ∃ n : nat, v = VNum (NInt (Z.of_nat n)).
Proof.
  unfold isNatural, isInteger, asInt. split.
  - destruct v as [| | |[z| | |]| |]; simpl; try done.
    intros Hz%Z.leb_le. exists (Z.to_nat z). by rewrite Z2Nat.id.
  - intros [n ->]. simpl. apply Z.leb_le. lia.
Qed.

(** ** The store only grows *)

Lemma lookup_grow (h ext : heap) l o : h !! l = Some o → (h ++ ext) !! l = Some o.
Proof. intros Hl. by apply lookup_app_l_Some. Qed.

Lemma elems_grow h ext l :
  (l < length h)%nat → elems (h ++ ext) (VRef l) = elems h (VRef l).
Proof. intros Hl. unfold elems. by rewrite lookup_app_l. Qed.

Lemma own_grow h ext l key :
  (l < length h)%nat → own (h ++ ext) (VRef l) key = own h (VRef l) key.
Proof. intros Hl. unfold own. by rewrite lookup_app_l. Qed.

Lemma has_grow h ext l key :
  (l < length h)%nat → has (h ++ ext) (VRef l) key = has h (VRef l) key.
Proof. intros Hl. unfold has. by rewrite own_grow. Qed.

Lemma getKeys_grow h ext l :
  (l < length h)%nat → getKeys (h ++ ext) (VRef l) = getKeys h (VRef l).
Proof. intros Hl. unfold getKeys. by rewrite lookup_app_l. Qed.

Lemma isDict_grow h ext l :
  (l < length h)%nat → isDict (h ++ ext) (VRef l) = isDict h (VRef l).
Proof. intros Hl. unfold isDict, isObject, typeof. by rewrite lookup_app_l. Qed.

Lemma isArray_grow h ext l :
  (l < length h)%nat → isArray (h ++ ext) (VRef l) = isArray h (VRef l).
Proof. intros Hl. unfold isArray, isObject, typeof. by rewrite lookup_app_l. Qed.

Lemma lookup_fresh (h : heap) o : (h ++ [o]) !! length h = Some o.
Proof. by rewrite lookup_app_r, Nat.sub_diag. Qed.

(** ** Running a computation step by step *)

Lemma bind_Ok {A B} (c : M A) (k : A → M B) h a h' :
  c h = Ok (a, h') → bind c k h = k a h'.
Proof. intros Hc. unfold bind. by rewrite Hc. Qed.

Lemma bind_Throw {A B} (c : M A) (k : A → M B) h e :
  c h = Throw e → bind c k h = Throw e.
Proof. intros Hc. unfold bind. by rewrite Hc. Qed.

Lemma bind_Exhausted {A B} (c : M A) (k : A → M B) h :
  c h = Exhausted → bind c k h = Exhausted.
Proof. intros Hc. unfold bind. by rewrite Hc. Qed.

Lemma bind_Escapes {A B} (c : M A) (k : A → M B) h :
  c h = Escapes → bind c k h = Escapes.
Proof. intros Hc. unfold bind. by rewrite Hc. Qed.

Lemma validate_Ok h v t : satisfies h t v = true → validate v t h = Ok (tt, h).
Proof. intros Hs. unfold validate. by rewrite Hs. Qed.

(** ** List edits *)

Lemma alwaysArray_array h v :
  isArray h v = true → alwaysArray v h = Ok (v, h).
Proof.
  intros Ha. unfold alwaysArray. rewrite (isArray_not_nil h v Ha).
  unfold bind, validate, satisfies, ret. by rewrite Ha.
Qed.

Lemma alwaysArray_nil h v :
  isNil v = true → alwaysArray v h = Ok (VRef (length h), h ++ [OList []]).
Proof. intros Hn. unfold alwaysArray. by rewrite Hn. Qed.

Lemma alwaysArray_other h v :
  isNil v = false → isArray h v = false →
  alwaysArray v h = Throw (ValidateError v IsArray).
Proof.
  intros Hn Ha. unfold alwaysArray. rewrite Hn.
  unfold bind, validate, satisfies. by rewrite Ha.
Qed.

Lemma removeAtIndex_array h lst z :
  isArray h lst = true →
  removeAtIndex lst (VNum (NInt z)) h =
    if (0 <=? z)%Z && (z <? Z.of_nat (len h lst))%Z
    then Ok (VRef (length h), h ++ [OList (delete (Z.to_nat z) (elems h lst))])
    else Ok (lst, h).
Proof.
  intros Ha. unfold removeAtIndex, bind at 1, validate. simpl.
  unfold bind. rewrite (alwaysArray_array h lst Ha).
  unfold isNatural. simpl.
  destruct ((0 <=? z)%Z && (z <? Z.of_nat (len h lst))%Z); [| done].
  unfold alloc. by rewrite delete_take_drop.
Qed.

(** C5. [removeAtIndex(list, index)] throws exactly when [index] is not an
    integer or [list] is neither nullish nor a List.  For an integer index
    that is negative or at least the length it returns the coerced list as it
    is: the very reference it was given for a List, the empty List made by
    the coercion for a nullish [list].  For a natural index below the length
    it returns a new List without the element at that index. *)
Theorem removeAtIndex_lenient (h : heap) (lst index : val) :
  ((∃ e, removeAtIndex lst index h = Throw e) ↔
     (isInteger index = false ∨ (isNil lst = false ∧ isArray h lst = false))) ∧
  removeAtIndex lst index h ≠ Exhausted ∧
  removeAtIndex lst index h ≠ Escapes ∧
  (∀ z : Z, index = VNum (NInt z) → isArray h lst = true →
     (z < 0 ∨ Z.of_nat (len h lst) ≤ z)%Z →
     removeAtIndex lst index h = Ok (lst, h)) ∧
  (isInteger index = true → isNil lst = true →
     removeAtIndex lst index h = Ok (VRef (length h), h ++ [OList []])) ∧
  (∀ i : nat, index = VNum (NInt (Z.of_nat i)) → isArray h lst = true →
     (i < len h lst)%nat →
     removeAtIndex lst index h =
       Ok (VRef (length h), h ++ [OList (delete i (elems h lst))]) ∧
     VRef (length h) ≠ lst).
Proof.
  assert (Hnil : isInteger index = true → isNil lst = true →
            removeAtIndex lst index h = Ok (VRef (length h), h ++ [OList []])).
  { intros Hi Hn. unfold removeAtIndex, bind at 1, validate. simpl. rewrite Hi.
    unfold bind. rewrite (alwaysArray_nil h lst Hn).
    assert (Hlen : len (h ++ [OList []]) (VRef (length h)) = 0%nat).
    { unfold len, elems. by rewrite lookup_fresh. }
    rewrite Hlen. destruct index as [| | |[z| | |]| |]; try done.
    unfold isNatural. simpl.
    destruct (0 <=? z)%Z eqn:H0; [| done].
    apply Z.leb_le in H0. simpl.
    destruct (z <? Z.of_nat 0)%Z eqn:H1; [| done]. apply Z.ltb_lt in H1. lia. }
  assert (Hother : isInteger index = true → isNil lst = false →
            isArray h lst = false →
            removeAtIndex lst index h = Throw (ValidateError lst IsArray)).
  { intros Hi Hn Ha. unfold removeAtIndex, bind at 1, validate. simpl.
    rewrite Hi. unfold bind. by rewrite (alwaysArray_other h lst Hn Ha). }
  assert (Hint : isInteger index = false →
            removeAtIndex lst index h = Throw (ValidateError index IsInteger)).
  { intros Hi. unfold removeAtIndex, bind at 1, validate. simpl. by rewrite Hi. }
  assert (Harr : ∀ z, index = VNum (NInt z) → isArray h lst = true →
            removeAtIndex lst index h =
              if (0 <=? z)%Z && (z <? Z.of_nat (len h lst))%Z
              then Ok (VRef (length h),
                       h ++ [OList (delete (Z.to_nat z) (elems h lst))])
              else Ok (lst, h)).
  { intros z -> Ha. by apply removeAtIndex_array. }
  split; [| split; [| split; [| split; [| split]]]].
  - split.
    + intros [e He]. destruct (isInteger index) eqn:Hi; [| by left]. right.
      destruct (isNil lst) eqn:Hn; [by rewrite Hnil in He |].
      split; [done |]. destruct (isArray h lst) eqn:Ha; [| done].
      destruct index as [| | |[z| | |]| |]; try done.
      rewrite (Harr z eq_refl eq_refl) in He. by case_match.
    + intros [Hi | [Hn Ha]]; [rewrite Hint by done; eauto |].
      destruct (isInteger index) eqn:Hi; [| rewrite Hint by done; eauto].
      rewrite Hother by done. eauto.
  - destruct (isInteger index) eqn:Hi; [| by rewrite Hint].
    destruct (isNil lst) eqn:Hn; [by rewrite Hnil |].
    destruct (isArray h lst) eqn:Ha; [| by rewrite Hother].
    destruct index as [| | |[z| | |]| |]; try done.
    rewrite (Harr z eq_refl eq_refl). by case_match.
  - destruct (isInteger index) eqn:Hi; [| by rewrite Hint].
    destruct (isNil lst) eqn:Hn; [by rewrite Hnil |].
    destruct (isArray h lst) eqn:Ha; [| by rewrite Hother].
    destruct index as [| | |[z| | |]| |]; try done.
    rewrite (Harr z eq_refl eq_refl). by case_match.
  - intros z -> Ha Hz. rewrite (Harr z eq_refl Ha).
    destruct (0 <=? z)%Z eqn:H0; [| done].
    destruct (z <? Z.of_nat (len h lst))%Z eqn:H1; [| done].
    apply Z.leb_le in H0. apply Z.ltb_lt in H1. lia.
  - exact Hnil.
  - intros i -> Ha Hi. rewrite (Harr _ eq_refl Ha), Nat2Z.id.
    assert ((0 <=? Z.of_nat i)%Z = true) as -> by (apply Z.leb_le; lia).
    assert ((Z.of_nat i <? Z.of_nat (len h lst))%Z = true) as ->
      by (apply Z.ltb_lt; lia).
    split; [done |].
    apply isArray_ref in Ha as (l & xs & -> & Hl).
    apply lookup_lt_Some in Hl. intros [= Heq]. lia.
Qed.

Lemma removeAtIndex_lenient_witness :
  removeAtIndex (VRef 0) (VNum (NInt 5))
    [OList [VNum (NInt 1); VNum (NInt 2); VNum (NInt 3)]] =
    Ok (VRef 0, [OList [VNum (NInt 1); VNum (NInt 2); VNum (NInt 3)]]) ∧
  removeAtIndex (VRef 0) (VNum (NInt 1))
    [OList [VNum (NInt 1); VNum (NInt 2); VNum (NInt 3)]] =
    Ok (VRef 1, [OList [VNum (NInt 1); VNum (NInt 2); VNum (NInt 3)];
                 OList [VNum (NInt 1); VNum (NInt 3)]]).
Proof.
  split.
  - apply (removeAtIndex_lenient
             [OList [VNum (NInt 1); VNum (NInt 2); VNum (NInt 3)]]
             (VRef 0) (VNum (NInt 5))) with (z := 5%Z);
      [reflexivity | reflexivity | vm_compute; right; discriminate].
  - apply (removeAtIndex_lenient
             [OList [VNum (NInt 1); VNum (NInt 2); VNum (NInt 3)]]
             (VRef 0) (VNum (NInt 1))) with (i := 1%nat);
      [reflexivity | reflexivity | vm_compute; lia].
Defined.

Lemma validateBounds_spec h lst index :
  validateBounds lst index h =
    if isNatural index then
      if (asInt index <=? Z.of_nat (len h lst))%Z then Ok (tt, h)
      else Throw (BoundsError (asInt index) (len h lst))
    else Throw (ValidateError index IsNatural).
Proof.
  unfold validateBounds, bind, validate. simpl. by destruct (isNatural index).
Qed.

Lemma insertAtIndex_coerced h h' lst lst' index value :
  alwaysArray lst h = Ok (lst', h') →
  insertAtIndex lst index value h =
    if isNatural index then
      if (asInt index <=? Z.of_nat (len h' lst'))%Z then
        Ok (VRef (length h'),
            h' ++ [OList (take (Z.to_nat (asInt index)) (elems h' lst') ++
                          value :: drop (Z.to_nat (asInt index)) (elems h' lst'))])
      else Throw (BoundsError (asInt index) (len h' lst'))
    else Throw (ValidateError index IsNatural).
Proof.
  intros Hc. unfold insertAtIndex, bind at 1. rewrite Hc.
  unfold bind at 1. rewrite validateBounds_spec.
  destruct (isNatural index); [| done].
  by destruct (asInt index <=? Z.of_nat (len h' lst'))%Z.
Qed.

(** C6, as the code has it.  [insertAtIndex(list, index, value)] coerces a
    nullish [list] to an empty List and rejects any other non-List.  It then
    fails unless [index] is a natural number in [0, length]: with the error of
    the natural-number test when [index] is not a natural number, with the
    out-of-bounds error when it is a natural number above the length.  For an
    index in range it returns a new List, never the reference it was given,
    with [value] at position [index], the elements before it in place and the
    elements from [index] on shifted right by one. *)
Theorem insertAtIndex_checked (h : heap) (lst index value : val) :
  (isNil lst = false → isArray h lst = false →
     insertAtIndex lst index value h = Throw (ValidateError lst IsArray)) ∧
  ∀ lst' h', alwaysArray lst h = Ok (lst', h') →
    (isNil lst = true → lst' = VRef (length h) ∧ h' = h ++ [OList []]) ∧
    (isArray h lst = true → lst' = lst ∧ h' = h) ∧
    (isNatural index = false →
       insertAtIndex lst index value h = Throw (ValidateError index IsNatural)) ∧
    (∀ i : nat, index = VNum (NInt (Z.of_nat i)) → (len h' lst' < i)%nat →
       insertAtIndex lst index value h =
         Throw (BoundsError (Z.of_nat i) (len h' lst'))) ∧
    (∀ i : nat, index = VNum (NInt (Z.of_nat i)) → (i ≤ len h' lst')%nat →
       ∃ out,
         insertAtIndex lst index value h =
           Ok (VRef (length h'), h' ++ [OList out]) ∧
         VRef (length h') ≠ lst ∧
         length out = S (len h' lst') ∧
         out !! i = Some value ∧
         (∀ j, (j < i)%nat → out !! j = elems h' lst' !! j) ∧
         (∀ j, (i ≤ j)%nat → out !! S j = elems h' lst' !! j)).
Proof.
  split.
  { intros Hn Ha. unfold insertAtIndex, bind at 1.
    by rewrite (alwaysArray_other h lst Hn Ha). }
  intros lst' h' Hc.
  pose proof (insertAtIndex_coerced h h' lst lst' index value Hc) as Hins.
  split; [| split; [| split; [| split]]].
  - intros Hn. rewrite (alwaysArray_nil h lst Hn) in Hc. by injection Hc as <- <-.
  - intros Ha. rewrite (alwaysArray_array h lst Ha) in Hc. by injection Hc as <- <-.
  - intros Hnat. by rewrite Hins, Hnat.
  - intros i -> Hi. rewrite Hins.
    assert (isNatural (VNum (NInt (Z.of_nat i))) = true) as ->
      by (apply isNatural_spec; eauto).
    simpl. destruct (Z.of_nat i <=? Z.of_nat (len h' lst'))%Z eqn:Hle; [| done].
    apply Z.leb_le in Hle. lia.
  - intros i -> Hi. rewrite Hins.
    assert (isNatural (VNum (NInt (Z.of_nat i))) = true) as ->
      by (apply isNatural_spec; eauto).
    simpl. rewrite Nat2Z.id.
    assert ((Z.of_nat i <=? Z.of_nat (len h' lst'))%Z = true) as ->
      by (apply Z.leb_le; lia).
    eexists. split; [done |]. unfold len in *.
    assert (Hlt : length (take i (elems h' lst')) = i)
      by (rewrite length_take; lia).
    split; [| split; [| split; [| split]]].
    + assert (Hl : (length h ≤ length h')%nat).
      { destruct (isNil lst) eqn:Hn.
        - rewrite (alwaysArray_nil h lst Hn) in Hc. injection Hc as <- <-.
          rewrite length_app. lia.
        - destruct (isArray h lst) eqn:Ha.
          + rewrite (alwaysArray_array h lst Ha) in Hc. by injection Hc as <- <-.
          + by rewrite (alwaysArray_other h lst Hn Ha) in Hc. }
      destruct (isArray h lst) eqn:Ha.
      * apply isArray_ref in Ha as (l & xs & -> & Hlk).
        apply lookup_lt_Some in Hlk. intros [= Heq]. lia.
      * destruct (isNil lst) eqn:Hn; [by destruct lst |].
        by rewrite (alwaysArray_other h lst Hn Ha) in Hc.
    + rewrite length_app, Hlt. simpl. rewrite length_drop. lia.
    + rewrite lookup_app_r by lia. by rewrite Hlt, Nat.sub_diag.
    + intros j Hj. rewrite lookup_app_l by lia. by rewrite lookup_take_lt.
    + intros j Hj. rewrite lookup_app_r by lia. rewrite Hlt.
      replace (S j - i)%nat with (S (j - i)) by lia. simpl.
      rewrite lookup_drop. f_equal. lia.
Qed.

Lemma insertAtIndex_checked_witness :
  ∃ out,
    insertAtIndex (VRef 0) (VNum (NInt 1)) (VStr "x")
      [OList [VNum (NInt 1); VNum (NInt 2); VNum (NInt 3)]] =
      Ok (VRef 1, [OList [VNum (NInt 1); VNum (NInt 2); VNum (NInt 3)]] ++
                  [OList out]) ∧
    out !! 1%nat = Some (VStr "x").
Proof.
  destruct (insertAtIndex_checked
              [OList [VNum (NInt 1); VNum (NInt 2); VNum (NInt 3)]]
              (VRef 0) (VNum (NInt 1)) (VStr "x")) as [_ Hin].
  destruct (Hin (VRef 0) [OList [VNum (NInt 1); VNum (NInt 2); VNum (NInt 3)]]
              eq_refl) as (_ & _ & _ & _ & Hok).
  destruct (Hok 1%nat eq_refl) as (out & Hrun & _ & _ & Hat & _).
  { vm_compute. lia. }
  exists out. split; [exact Hrun | exact Hat].
Defined.

(** C6, as the spec words it, fails: an index that is not a number at all is
    rejected by the natural-number test, an invalid-argument failure, and
    not with the out-of-bounds error. *)
Lemma insertAtIndex_string_index_not_bounds :
  isNatural (VStr "1") = false ∧
  insertAtIndex (VRef 0) (VStr "1") (VStr "x")
    [OList [VNum (NInt 1); VNum (NInt 2); VNum (NInt 3)]] =
    Throw (ValidateError (VStr "1") IsNatural) ∧
  ¬ ∃ i n,
      insertAtIndex (VRef 0) (VStr "1") (VStr "x")
        [OList [VNum (NInt 1); VNum (NInt 2); VNum (NInt 3)]] =
        Throw (BoundsError i n).
Proof.
  split; [reflexivity |]. split; [reflexivity |].
  intros (i & n & Hb). vm_compute in Hb. discriminate.
Qed.

(** ** Get *)

Lemma isPrimitive_not_ref h l : isPrimitive h (VRef l) = false.
Proof.
  unfold isPrimitive, isObject, isFunction, typeof. simpl.
  destruct (h !! l) as [[xs|d|[] p]|]; done.
Qed.

Lemma everyByFrom_Forall {A} (fn : A → bool) i (l : list A) :
  everyByFrom (λ x _, fn x) i l = true ↔ Forall (λ x, fn x = true) l.
Proof.
  revert i. induction l as [|x t IH]; intros i; simpl.
  - split; [by constructor | done].
  - rewrite andb_true_iff, IH. split.
    + intros [??]. by constructor.
    + by inversion 1.
Qed.


(** ** Reading *)

Section GetFacts.
Context `{Host}.

Lemma prop_grow h ext l key :
  (l < length h)%nat → prop (h ++ ext) (VRef l) key = prop h (VRef l) key.
Proof. intros Hl. unfold prop. by rewrite own_grow. Qed.

Lemma get_primitive h v key :
  isPrimitive h key = true → get h v key = Ok (getPrim h v key).
Proof.
  intros Hp. unfold get, getPrim. destruct (isNil v); [done |].
  destruct key; try done. by rewrite isPrimitive_not_ref in Hp.
Qed.

Lemma getFold_primitive h keys v :
  Forall (λ key, isPrimitive h key = true) keys →
  getFold h v keys = Ok (foldl (getPrim h) v keys).
Proof.
  intros Hk. revert v. induction Hk as [|key rest Hp _ IH]; intros v; [done |].
  simpl. rewrite (get_primitive h v key Hp). apply IH.
Qed.

(** C7, as the code has it.  [getIn(value, path)] throws the invalid-argument
    error exactly when [path] is not a List; the elements of the path are not
    tested.  For a List of primitives it never throws, whatever keys are
    missing: the result is the left fold of the null-safe [get] over the
    path, and the store is left as it was. *)
Theorem getIn_checks_list_only (h : heap) (v path : val) :
  (isArray h path = false →
     getIn v path h = Throw (ValidateError path IsArray)) ∧
  (isArray h path = true →
     getIn v path h = liftO (getFold h v (elems h path)) h) ∧
  (isPath h path = true →
     getIn v path h = Ok (foldl (getPrim h) v (elems h path), h) ∧
     getFold h v (elems h path) = Ok (foldl (getPrim h) v (elems h path))).
Proof.
  split; [| split].
  - intros Ha. unfold getIn, bind, validate. simpl. by rewrite Ha.
  - intros Ha. unfold getIn, bind, validate. simpl. by rewrite Ha.
  - intros Hp. unfold isPath in Hp. apply andb_true_iff in Hp as [Ha Hev].
    apply everyByFrom_Forall in Hev.
    pose proof (getFold_primitive h (elems h path) v Hev) as Hf.
    split; [| done].
    unfold getIn, bind, validate. simpl. by rewrite Ha, Hf.
Qed.

End GetFacts.

Lemma getIn_checks_list_only_witness :
  getIn (H := quietHost) (VRef 0) (VRef 1)
    [ODict {[ "a" := VNum (NInt 1) ]}; OList [VStr "a"; VStr "b"]] =
    Ok (VUndef, [ODict {[ "a" := VNum (NInt 1) ]}; OList [VStr "a"; VStr "b"]]).
Proof.
  destruct (getIn_checks_list_only (H := quietHost)
              [ODict {[ "a" := VNum (NInt 1) ]}; OList [VStr "a"; VStr "b"]]
              (VRef 0) (VRef 1)) as (_ & _ & Hpath).
  destruct Hpath as [Hrun _]; [reflexivity | exact Hrun].
Defined.

(** C7, as the spec words it, fails: a path holding an object is not a List
    of primitives, and [getIn] does not reject it.  Here the path is [[{}]],
    the value is [{a: 1}], and the object used as a key reads as the
    property name ["[object Object]"]. *)
Lemma getIn_accepts_object_key :
  isPath [ODict ∅; OList [VRef 0]; ODict {[ "a" := VNum (NInt 1) ]}] (VRef 1) =
    false ∧
  getIn (H := objectHost) (VRef 2) (VRef 1)
    [ODict ∅; OList [VRef 0]; ODict {[ "a" := VNum (NInt 1) ]}] =
    Ok (VUndef, [ODict ∅; OList [VRef 0]; ODict {[ "a" := VNum (NInt 1) ]}]).
Proof. split; reflexivity. Qed.

(** ** Nil omission: what the library adds to the store *)

Lemma grows_refl h : grows h h.
Proof. exists []. by rewrite app_nil_r. Qed.

Lemma grows_trans h1 h2 h3 : grows h1 h2 → grows h2 h3 → grows h1 h3.
Proof.
  intros (e1 & -> & H1) (e2 & -> & H2). exists (e1 ++ e2).
  split; [by rewrite app_assoc | by apply Forall_app].
Qed.

Lemma grows_alloc h o : tidyObj o → grows h (h ++ [o]).
Proof. intros Ho. exists [o]. split; [done | by constructor]. Qed.

Lemma grows_length h h' : grows h h' → (length h ≤ length h')%nat.
Proof. intros (ext & -> & _). rewrite length_app. lia. Qed.

Lemma grows_lookup h h' l o : grows h h' → h !! l = Some o → h' !! l = Some o.
Proof. intros (ext & -> & _). apply lookup_grow. Qed.

Lemma grows_elems h h' l :
  grows h h' → (l < length h)%nat → elems h' (VRef l) = elems h (VRef l).
Proof. intros (ext & -> & _). apply elems_grow. Qed.

Lemma grows_own h h' l key :
  grows h h' → (l < length h)%nat → own h' (VRef l) key = own h (VRef l) key.
Proof. intros (ext & -> & _). apply own_grow. Qed.

Lemma grows_has h h' l key :
  grows h h' → (l < length h)%nat → has h' (VRef l) key = has h (VRef l) key.
Proof. intros (ext & -> & _). apply has_grow. Qed.

Lemma grows_getKeys h h' l :
  grows h h' → (l < length h)%nat → getKeys h' (VRef l) = getKeys h (VRef l).
Proof. intros (ext & -> & _). apply getKeys_grow. Qed.

Lemma grows_isDict h h' l :
  grows h h' → (l < length h)%nat → isDict h' (VRef l) = isDict h (VRef l).
Proof. intros (ext & -> & _). apply isDict_grow. Qed.

Lemma grows_isArray h h' l :
  grows h h' → (l < length h)%nat → isArray h' (VRef l) = isArray h (VRef l).
Proof. intros (ext & -> & _). apply isArray_grow. Qed.

Lemma grows_clean h h' : grows h h' → Forall cleanObj h → Forall cleanObj h'.
Proof.
  intros (ext & -> & Hext) Hc. apply Forall_app. split; [done |].
  eapply Forall_impl; [done |]. by intros o [??].
Qed.

Lemma grows_plain h h' : grows h h' → Forall plainObj h → Forall plainObj h'.
Proof.
  intros (ext & -> & Hext) Hc. apply Forall_app. split; [done |].
  eapply Forall_impl; [done |]. by intros o [??].
Qed.

Lemma grows_tidy h h' : grows h h' → Forall tidyObj h → Forall tidyObj h'.
Proof. intros (ext & -> & Hext) Hc. by apply Forall_app. Qed.

Lemma tidy_clean h : Forall tidyObj h → Forall cleanObj h.
Proof. intros Ht. eapply Forall_impl; [done |]. by intros o [??]. Qed.

Lemma tidy_plain h : Forall tidyObj h → Forall plainObj h.
Proof. intros Ht. eapply Forall_impl; [done |]. by intros o [??]. Qed.

Lemma cleanMap_empty : cleanMap ∅.
Proof. intros k x Hk. by rewrite lookup_empty in Hk. Qed.

Lemma cleanMap_insert d k v : cleanMap d → isNil v = false → cleanMap (<[k:=v]> d).
Proof.
  intros Hd Hv k' x. rewrite lookup_insert. case_decide.
  - by intros [= <-].
  - apply Hd.
Qed.

Lemma tidyObj_list xs : tidyObj (OList xs).
Proof. by split. Qed.

Lemma tidyObj_empty : tidyObj (ODict ∅).
Proof. split; [apply cleanMap_empty | apply lookup_empty]. Qed.

Lemma tidyDraft_blank : tidyDraft blank.
Proof. split; [apply cleanMap_empty | apply lookup_empty]. Qed.

Lemma tidyDraft_write out key v :
  tidyDraft out → isNil v = false → tidyDraft (write out key v).
Proof.
  intros [Hc Hp] Hv. unfold write. case_decide as Hk.
  - by destruct v.
  - split; cbn [props].
    + by apply cleanMap_insert.
    + by rewrite lookup_insert_ne.
Qed.

Lemma tidyDraft_obj out : tidyDraft out → tidyObj (ODict (props out)).
Proof. done. Qed.

Create HintDb emerge.
#[local] Hint Resolve grows_refl grows_alloc cleanMap_empty cleanMap_insert
  tidyObj_list tidyObj_empty tidyDraft_blank tidyDraft_write tidyDraft_obj : emerge.

Lemma sound_ret {A} (a : A) (Q : A → Prop) : Q a → sound (ret a) Q.
Proof. intros Ha h r h' [= <- <-]. auto with emerge. Qed.

Lemma sound_bind {A B} (c : M A) (k : A → M B) (P : A → Prop) (Q : B → Prop) :
  sound c P → (∀ a, P a → sound (k a) Q) → sound (bind c k) Q.
Proof.
  intros Hc Hk h r h' Hrun. unfold bind in Hrun.
  destruct (c h) as [[a h1]| | |] eqn:Hch; try done.
  destruct (Hc h a h1 Hch) as [Hg Ha].
  destruct (Hk a Ha h1 r h' Hrun) as [Hg' Hr].
  split; [by eapply grows_trans | done].
Qed.

Lemma sound_weaken {A} (c : M A) (P Q : A → Prop) :
  sound c P → (∀ a, P a → Q a) → sound c Q.
Proof. intros Hc HPQ h r h' Hrun. destruct (Hc h r h' Hrun). auto. Qed.

Lemma sound_reads {A} (f : heap → A) (Q : A → Prop) :
  (∀ h, Q (f h)) → sound (reads f) Q.
Proof. intros Hf h r h' [= <- <-]. auto with emerge. Qed.

Lemma sound_alloc (o : obj) : tidyObj o → sound (alloc o) (λ _, True).
Proof. intros Ho h r h' [= <- <-]. auto with emerge. Qed.

Lemma sound_seal (out : draft) : tidyDraft out → sound (seal out) (λ _, True).
Proof.
  intros Ho. unfold seal. destruct (parent out); [by intros h r h' |].
  by apply sound_alloc.
Qed.

Lemma sound_validate v t : sound (validate v t) (λ _, True).
Proof.
  intros h r h'. unfold validate. destruct (satisfies h t v); [| done].
  intros [= <- <-]. auto with emerge.
Qed.


Lemma sound_mapM {A B} (f : A → M B) (l : list A) :
  (∀ x, sound (f x) (λ _, True)) → sound (mapM f l) (λ _, True).
Proof.
  intros Hf. induction l as [|x t IH]; simpl.
  - by apply sound_ret.
  - eapply sound_bind; [apply Hf |]. intros y _.
    eapply sound_bind; [apply IH |]. intros ys _. by apply sound_ret.
Qed.

Lemma sound_foldM {A B} (f : B → A → M B) (P : B → Prop) (l : list A) (b : B) :
  (∀ b x, P b → sound (f b x) P) → P b → sound (foldM f l b) P.
Proof.
  intros Hf. revert b. induction l as [|x t IH]; intros b Hb; simpl.
  - by apply sound_ret.
  - eapply sound_bind; [by apply Hf |]. intros b' Hb'. by apply IH.
Qed.

Lemma sound_heap {A} (c : heap → M A) (Q : A → Prop) :
  (∀ h, sound (c h) Q) → sound (λ h, c h h) Q.
Proof. intros Hc h r h' Hrun. by apply (Hc h). Qed.

#[local] Hint Resolve sound_ret sound_reads sound_alloc sound_validate : emerge.

Lemma sound_toDict v : sound (toDict v) (λ _, True).
Proof.
  intros h r h'. unfold toDict. destruct (isDict h v).
  - intros [= <- <-]. auto with emerge.
  - apply sound_alloc, tidyObj_empty.
Qed.

Lemma sound_alwaysDict v : sound (alwaysDict v) (λ _, True).
Proof.
  unfold alwaysDict. destruct (isNil v).
  - apply sound_alloc, tidyObj_empty.
  - eapply sound_bind; [apply sound_validate |]. intros _ _. by apply sound_ret.
Qed.


Lemma sound_reduce fn args :
  (∀ prev next, sound (fn prev next) (λ _, True)) →
  sound (reduce fn args) (λ _, True).
Proof.
  intros Hfn. destruct args as [|first rest]; simpl; [by apply sound_ret |].
  apply sound_foldM; [| done]. intros b x _. apply Hfn.
Qed.

Section Sound.
Context `{Host}.

Lemma grows_prop h h' l key :
  grows h h' → (l < length h)%nat → prop h' (VRef l) key = prop h (VRef l) key.
Proof. intros (ext & -> & _). apply prop_grow. Qed.

Section SoundUpdates.
Variable fn : val → val → M val.
Hypothesis fn_sound : ∀ prev next, sound (fn prev next) (λ _, True).

Lemma sound_putKeyBy prev next out key :
  tidyDraft out → sound (putKeyBy prev next fn out key) tidyDraft.
Proof.
  intros Ho. unfold putKeyBy.
  eapply sound_bind.
  - apply (sound_heap (λ h, fn (prop h prev key) (prop h next key))).
    intros h. apply fn_sound.
  - intros v _. apply sound_ret. destruct (isNil v) eqn:Hv; auto with emerge.
Qed.

Lemma sound_replaceListBy prev next : sound (replaceListBy prev next fn) (λ _, True).
Proof.
  unfold replaceListBy.
  eapply sound_bind; [by apply sound_reads with (Q := λ _, True) |].
  intros n _. eapply sound_bind.
  { apply sound_mapM. intros i.
    apply (sound_heap (λ h, fn (at_ h prev i) (at_ h next i))).
    intros h. apply fn_sound. }
  intros out _. eapply sound_bind; [apply sound_alloc, tidyObj_list |].
  intros o _. by apply sound_reads.
Qed.

Lemma sound_replaceDictBy prev next : sound (replaceDictBy prev next fn) (λ _, True).
Proof.
  unfold replaceDictBy.
  eapply sound_bind; [by apply sound_reads with (Q := λ _, True) |].
  intros keys _. eapply sound_bind.
  { apply sound_foldM with (P := tidyDraft); [| apply tidyDraft_blank].
    intros b x Hb. by apply sound_putKeyBy. }
  intros out Hout. eapply sound_bind; [by apply sound_seal |].
  intros o _. by apply sound_reads.
Qed.

Lemma tidyDraft_keepKey h prev next keys out :
  tidyDraft out → tidyDraft (foldl (keepKey h prev next) out keys).
Proof.
  revert out. induction keys as [|k t IH]; intros out Ho; [done |].
  simpl. apply IH. unfold keepKey.
  destruct (isNil (prop h prev k)) eqn:Hn; simpl; [done |].
  destruct (has h next k); simpl; [done |]. by apply tidyDraft_write.
Qed.

Lemma sound_patchDictBy prev next : sound (patchDictBy prev next fn) (λ _, True).
Proof.
  unfold patchDictBy.
  eapply sound_bind; [by apply sound_reads with (Q := λ _, True) |].
  intros prevKeys _. eapply sound_bind.
  { apply sound_reads with (Q := tidyDraft). intros h.
    apply tidyDraft_keepKey, tidyDraft_blank. }
  intros out0 Hout0.
  eapply sound_bind; [by apply sound_reads with (Q := λ _, True) |].
  intros nextKeys _. eapply sound_bind.
  { apply sound_foldM with (P := tidyDraft); [| done].
    intros b x Hb. by apply sound_putKeyBy. }
  intros out Hout. eapply sound_bind; [by apply sound_seal |].
  intros o _. by apply sound_reads.
Qed.

End SoundUpdates.

Lemma sound_putAny fuel prev next : sound (putAny fuel prev next) (λ _, True).
Proof.
  revert prev next. induction fuel as [|fuel IH]; intros prev next h r h'; simpl;
    destruct (is_ prev next); try (intros [= <- <-]; by auto with emerge);
    destruct (isArray h prev), (isArray h next), (isDict h prev), (isDict h next);
    try done; try (intros [= <- <-]; by auto with emerge).
  all: first [ by apply sound_replaceListBy | by apply sound_replaceDictBy ].
Qed.

Lemma sound_mergeTwo fuel prev next : sound (mergeTwo fuel prev next) (λ _, True).
Proof.
  revert prev next. induction fuel as [|fuel IH]; intros prev next; simpl;
    destruct (is_ prev next); try by apply sound_ret.
  - by intros h r h'.
  - eapply sound_bind; [apply sound_toDict |]. intros p _.
    eapply sound_bind; [apply sound_toDict |]. intros n _.
    apply sound_patchDictBy. intros p' n' h r h'.
    destruct (isDict h n'); [apply IH | apply sound_putAny].
Qed.

Lemma sound_mergeOrPut fuel prev next : sound (mergeOrPut fuel prev next) (λ _, True).
Proof.
  intros h r h'. unfold mergeOrPut.
  destruct (isDict h next); [apply sound_mergeTwo | apply sound_putAny].
Qed.

Lemma sound_patchTwoDicts fuel prev next :
  sound (patchTwoDicts fuel prev next) (λ _, True).
Proof.
  unfold patchTwoDicts.
  eapply sound_bind; [apply sound_alwaysDict |]. intros p _.
  eapply sound_bind; [apply sound_alwaysDict |]. intros n _.
  destruct (is_ p n); [by apply sound_ret |].
  apply sound_patchDictBy, sound_putAny.
Qed.



Lemma tidyDraft_copyKey h dict key keys out :
  tidyDraft out → tidyDraft (foldl (copyKey h dict key) out keys).
Proof.
  revert out. induction keys as [|k t IH]; intros out Ho; [done |].
  simpl. apply IH. unfold copyKey.
  destruct (bool_decide (k = key)); simpl; [done |].
  destruct (isNil (prop h dict k)) eqn:Hn; simpl; [done |].
  by apply tidyDraft_write.
Qed.



Lemma sound_patch fuel args : sound (patch fuel args) (λ _, True).
Proof.
  unfold patch. case_decide.
  - apply sound_reduce. intros. apply sound_patchTwoDicts.
  - apply sound_patchTwoDicts.
Qed.









End Sound.

(** ** Equality by identity of the parts *)

Section Identity.
Context `{Host}.

Lemma everyByFrom_is_drop (xs ys : list val) (k : nat) :
  (length xs + k = length ys)%nat →
  everyByFrom (λ x i, is_ x (default VUndef (ys !! i))) k xs = true ↔
  xs = drop k ys.
Proof.
  revert k. induction xs as [|x t IH]; intros k Hlen; simpl in *.
  - rewrite drop_ge by lia. done.
  - destruct (ys !! k) as [y|] eqn:Hy.
    2: { apply lookup_ge_None in Hy. lia. }
    rewrite (drop_S ys y k Hy), andb_true_iff, is_spec, (IH (S k)) by lia.
    simpl. split; [by intros [-> ->] | by intros [= -> ->]].
Qed.

Lemma everyListPairBy_is h one other :
  everyListPairBy h one other is_ = true ↔ elems h one = elems h other.
Proof.
  unfold everyListPairBy, everyBy, at_, len. rewrite andb_true_iff, bool_decide_eq_true.
  split.
  - intros [Hlen Hev]. apply everyByFrom_is_drop in Hev; [done | lia].
  - intros Heq. split; [by rewrite Heq |].
    apply everyByFrom_is_drop; [rewrite Heq; lia | done].
Qed.

Lemma getKeys_dict h l d :
  h !! l = Some (ODict d) → getKeys h (VRef l) = (map_to_list d).*1.
Proof. intros Hl. unfold getKeys. by rewrite Hl. Qed.

Lemma own_dict h l d key :
  h !! l = Some (ODict d) → own h (VRef l) key = d !! key.
Proof. intros Hl. unfold own. by rewrite Hl. Qed.

Lemma prop_dict h l d key :
  h !! l = Some (ODict d) →
  prop h (VRef l) key = default (inherited (VRef l) key) (d !! key).
Proof. intros Hl. unfold prop. by rewrite (own_dict h l d key Hl). Qed.

Lemma prop_own h l d key x :
  h !! l = Some (ODict d) → d !! key = Some x → prop h (VRef l) key = x.
Proof. intros Hl Hx. by rewrite (prop_dict h l d key Hl), Hx. Qed.

Lemma has_dict h l d key :
  h !! l = Some (ODict d) → has h (VRef l) key = bool_decide (is_Some (d !! key)).
Proof. intros Hl. unfold has. by rewrite (own_dict h l d key Hl). Qed.

Lemma elem_of_keys (d : gmap string val) k :
  k ∈ (map_to_list d).*1 ↔ is_Some (d !! k).
Proof.
  rewrite list_elem_of_fmap. split.
  - intros ([k' x] & -> & Hin). apply elem_of_map_to_list in Hin. eauto.
  - intros [x Hx]. exists (k, x). split; [done |]. by apply elem_of_map_to_list.
Qed.

Lemma everyDictPairBy_is h l1 l2 d1 d2 :
  h !! l1 = Some (ODict d1) → h !! l2 = Some (ODict d2) →
  everyDictPairBy h (VRef l1) (VRef l2) is_ = true ↔ d1 = d2.
Proof.
  intros H1 H2. unfold everyDictPairBy, everyBy.
  rewrite !andb_true_iff, bool_decide_eq_true.
  rewrite (everyByFrom_Forall (λ key, has h (VRef l2) key)).
  rewrite (everyByFrom_Forall
             (λ key, is_ (prop h (VRef l1) key) (prop h (VRef l2) key))).
  rewrite !Forall_forall.
  rewrite (getKeys_dict h l1 d1 H1), (getKeys_dict h l2 d2 H2).
  rewrite !length_fmap, !length_map_to_list.
  split.
  - intros [[Hsize Hhas] Hsame].
    apply map_subseteq_size_eq; [| lia].
    apply map_subseteq_spec. intros k x Hk.
    assert (Hin : k ∈ (map_to_list d1).*1) by (apply elem_of_keys; eauto).
    specialize (Hhas k Hin). specialize (Hsame k Hin).
    rewrite (has_dict h l2 d2 k H2) in Hhas.
    apply bool_decide_eq_true in Hhas as [y Hy].
    apply is_spec in Hsame.
    rewrite (prop_dict h l1 d1 k H1), (prop_dict h l2 d2 k H2), Hk, Hy in Hsame.
    simpl in Hsame. by subst.
  - intros <-. split; [split; [done |] |].
    + intros k Hk. rewrite (has_dict h l2 d1 k H2).
      apply bool_decide_eq_true. by apply elem_of_keys.
    + intros k Hk. apply is_spec. apply elem_of_keys in Hk as [x Hx].
      by rewrite (prop_own h l1 d1 k x H1 Hx), (prop_own h l2 d1 k x H2 Hx).
Qed.

Lemma equalBy_list h l1 l2 xs ys :
  h !! l1 = Some (OList xs) → h !! l2 = Some (OList ys) →
  equalBy h (VRef l1) (VRef l2) is_ = bool_decide (xs = ys).
Proof.
  intros H1 H2. unfold equalBy.
  assert (isArray h (VRef l1) = true) as -> by (apply isArray_ref; eauto).
  assert (isArray h (VRef l2) = true) as -> by (apply isArray_ref; eauto).
  simpl. apply eq_true_iff_eq.
  rewrite orb_true_iff, is_spec, everyListPairBy_is, bool_decide_eq_true.
  unfold elems. rewrite H1, H2. split; [| by right].
  intros [[= ->] | Heq]; [| done]. congruence.
Qed.

Lemma equalBy_dict h l1 l2 d1 d2 :
  h !! l1 = Some (ODict d1) → h !! l2 = Some (ODict d2) →
  equalBy h (VRef l1) (VRef l2) is_ = bool_decide (d1 = d2).
Proof.
  intros H1 H2. unfold equalBy.
  assert (Hd1 : isDict h (VRef l1) = true) by (apply isDict_ref; eauto).
  assert (isDict h (VRef l2) = true) as -> by (apply isDict_ref; eauto).
  rewrite (isDict_not_array _ _ Hd1), Hd1.
  simpl. apply eq_true_iff_eq.
  rewrite orb_true_iff, is_spec, (everyDictPairBy_is h l1 l2 d1 d2 H1 H2),
    bool_decide_eq_true.
  split; [| by right].
  intros [[= ->] | Heq]; [| done]. congruence.
Qed.

(** The result of the speculative build of a list or of a dict: the
    reference [prev] when the new object holds what [prev] holds, the new
    reference otherwise. *)
Lemma settle_list h l xs out :
  h !! l = Some (OList xs) →
  (let* o := alloc (OList out) in
   reads (λ h', if equalBy h' (VRef l) o is_ then VRef l else o)) h =
  Ok (if bool_decide (xs = out) then VRef l else VRef (length h),
      h ++ [OList out]).
Proof.
  intros Hl. unfold bind, alloc, reads.
  by rewrite (equalBy_list (h ++ [OList out]) l (length h) xs out
                (lookup_grow h _ l _ Hl) (lookup_fresh h _)).
Qed.

Lemma settle_dict h l d out :
  h !! l = Some (ODict d) →
  (let* o := seal (Draft out None) in
   reads (λ h', if equalBy h' (VRef l) o is_ then VRef l else o)) h =
  Ok (if bool_decide (d = out) then VRef l else VRef (length h),
      h ++ [ODict out]).
Proof.
  intros Hl. unfold bind, seal, alloc, reads. cbn [parent props].
  by rewrite (equalBy_dict (h ++ [ODict out]) l (length h) d out
                (lookup_grow h _ l _ Hl) (lookup_fresh h _)).
Qed.


End Identity.

(** ** Writing to a draft *)

Lemma pretty_N_go_ne_underscore x s s' :
  s ≠ "_" +:+ s' → pretty_N_go x s ≠ "_" +:+ s'.
Proof.
  revert s. induction (N.lt_wf_0 x) as [x _ IH]; intros s Hs.
  assert (x = 0 ∨ 0 < x)%N as [->|?] by lia.
  - by rewrite pretty_N_go_0.
  - rewrite pretty_N_go_step by done. apply IH.
    { by apply N.div_lt. }
    unfold pretty_N_char. by repeat case_match.
Qed.

Lemma pretty_nat_plain (i : nat) : pretty i ≠ "__proto__".
Proof.
  unfold pretty, pretty_nat, pretty, pretty_N. case_decide; [done |].
  by apply (pretty_N_go_ne_underscore _ "" "_proto__").
Qed.

(** The names [Object.keys] gives on a store in which no Dict owns
    ["__proto__"]. *)
Lemma getKeys_plain h v key :
  Forall plainObj h → key ∈ getKeys h v → key ≠ "__proto__".
Proof.
  intros Hp Hk ->. unfold getKeys in Hk. destruct v as [| | | | |l]; try by inversion Hk.
  destruct (h !! l) as [[xs|d|c p]|] eqn:Hl; try by inversion Hk.
  - apply list_elem_of_fmap in Hk as (i & Hi & _). by destruct (pretty_nat_plain i).
  - rewrite Forall_forall in Hp.
    assert (Ho : plainObj (ODict d)) by (apply Hp; by eapply list_elem_of_lookup_2).
    simpl in Ho. apply list_elem_of_fmap in Hk as ([k x] & Hkx & Hin).
    apply elem_of_map_to_list in Hin. simpl in Hkx. subst k. congruence.
Qed.

Lemma getKeys_plain_all h v :
  Forall plainObj h → "__proto__" ∉ getKeys h v.
Proof. intros Hp Hk. by apply (getKeys_plain h v _ Hp Hk). Qed.

Lemma write_other out key v :
  key ≠ "__proto__" → write out key v = Draft (<[key:=v]> (props out)) (parent out).
Proof. intros Hk. unfold write. by rewrite decide_False. Qed.

Lemma whole_blank : whole blank.
Proof. split; [done | apply lookup_empty]. Qed.

Lemma whole_write out key v : key ≠ "__proto__" → whole out → whole (write out key v).
Proof.
  intros Hk [Hp Ho]. rewrite (write_other out key v Hk). split; [done |].
  cbn [props]. by rewrite lookup_insert_ne.
Qed.

Lemma whole_seal out h :
  whole out → seal out h = Ok (VRef (length h), h ++ [ODict (props out)]).
Proof. intros [Hp _]. unfold seal. by rewrite Hp. Qed.

Lemma whole_eta out : parent out = None → out = Draft (props out) None.
Proof. destruct out as [m p]. cbn [parent props]. by intros ->. Qed.

(** A loop that writes to a draft under each name of [keys] for which [c]
    holds, when none of the names is ["__proto__"]. *)
Lemma foldl_write_lookup (c : string → bool) (v : string → val) keys out k :
  "__proto__" ∉ keys →
  props (foldl (λ out key, if c key then write out key (v key) else out) out keys)
    !! k =
  if bool_decide (k ∈ keys) && c k then Some (v k) else props out !! k.
Proof.
  revert out. induction keys as [|x t IH]; intros out Hk; cbn [foldl].
  - by rewrite bool_decide_eq_false_2 by apply not_elem_of_nil.
  - apply not_elem_of_cons in Hk as [Hx Ht]. rewrite IH by done.
    destruct (decide (k = x)) as [-> | Hne].
    + rewrite (bool_decide_eq_true_2 (x ∈ x :: t)) by apply list_elem_of_here.
      destruct (c x) eqn:Hc; cbn [andb].
      * rewrite write_other by done. cbn [props]. rewrite lookup_insert_eq.
        by destruct (bool_decide (x ∈ t)).
      * by rewrite andb_false_r.
    + assert (bool_decide (k ∈ x :: t) = bool_decide (k ∈ t)) as ->.
      { apply bool_decide_ext. rewrite elem_of_cons.
        split; [by intros [?|?] | by right]. }
      destruct (c x); [| done]. rewrite write_other by done. cbn [props].
      by rewrite lookup_insert_ne.
Qed.

Lemma foldl_write_whole (c : string → bool) (v : string → val) keys out :
  "__proto__" ∉ keys → whole out →
  whole (foldl (λ out key, if c key then write out key (v key) else out) out keys).
Proof.
  revert out. induction keys as [|x t IH]; intros out Hk Ho; [done |].
  apply not_elem_of_cons in Hk as [Hx Ht]. cbn [foldl]. apply IH; [done |].
  destruct (c x); [| done]. by apply whole_write.
Qed.

Section Loops.
Context `{Host}.

Lemma keepKey_fold_lookup h prev next keys out k :
  "__proto__" ∉ keys →
  props (foldl (keepKey h prev next) out keys) !! k =
    if bool_decide (k ∈ keys) && (negb (isNil (prop h prev k)) && negb (has h next k))
    then Some (prop h prev k) else props out !! k.
Proof.
  apply (foldl_write_lookup
           (λ key, negb (isNil (prop h prev key)) && negb (has h next key))
           (λ key, prop h prev key)).
Qed.

Lemma keepKey_fold_whole h prev next keys out :
  "__proto__" ∉ keys → whole out → whole (foldl (keepKey h prev next) out keys).
Proof.
  apply (foldl_write_whole
           (λ key, negb (isNil (prop h prev key)) && negb (has h next key))
           (λ key, prop h prev key)).
Qed.

Lemma copyKey_fold_lookup h dict key keys out k :
  "__proto__" ∉ keys →
  props (foldl (copyKey h dict key) out keys) !! k =
    if bool_decide (k ∈ keys) &&
       (negb (bool_decide (k = key)) && negb (isNil (prop h dict k)))
    then Some (prop h dict k) else props out !! k.
Proof.
  apply (foldl_write_lookup
           (λ prevKey, negb (bool_decide (prevKey = key)) &&
                       negb (isNil (prop h dict prevKey)))
           (λ prevKey, prop h dict prevKey)).
Qed.

Lemma copyKey_fold_whole h dict key keys out :
  "__proto__" ∉ keys → whole out → whole (foldl (copyKey h dict key) out keys).
Proof.
  apply (foldl_write_whole
           (λ prevKey, negb (bool_decide (prevKey = key)) &&
                       negb (isNil (prop h dict prevKey)))
           (λ prevKey, prop h dict prevKey)).
Qed.

(** What the first loop of [patchDictBy] copies of a dict [d]. *)
Lemma keepKey_dict_lookup h l d next k :
  h !! l = Some (ODict d) → d !! "__proto__" = None →
  props (foldl (keepKey h (VRef l) next) blank (getKeys h (VRef l))) !! k =
    match d !! k with
    | Some x => if negb (isNil x) && negb (has h next k) then Some x else None
    | None => None
    end.
Proof.
  intros Hl Hp. rewrite keepKey_fold_lookup.
  - cbn [props blank]. rewrite lookup_empty, (getKeys_dict h l d Hl).
    destruct (d !! k) as [x|] eqn:Hk.
    + rewrite (prop_own h l d k x Hl Hk).
      by rewrite bool_decide_eq_true_2 by (apply elem_of_keys; eauto).
    + rewrite bool_decide_eq_false_2; [done |].
      rewrite elem_of_keys, Hk. by intros [??].
  - rewrite (getKeys_dict h l d Hl), elem_of_keys, Hp. by intros [??].
Qed.

(** What the loop of [assocAtKey] copies of a dict [d]. *)
Lemma copyKey_dict_lookup h l d key k :
  h !! l = Some (ODict d) → d !! "__proto__" = None →
  props (foldl (copyKey h (VRef l) key) blank (getKeys h (VRef l))) !! k =
    match d !! k with
    | Some x => if negb (bool_decide (k = key)) && negb (isNil x) then Some x else None
    | None => None
    end.
Proof.
  intros Hl Hp. rewrite copyKey_fold_lookup.
  - cbn [props blank]. rewrite lookup_empty, (getKeys_dict h l d Hl).
    destruct (d !! k) as [x|] eqn:Hk.
    + rewrite (prop_own h l d k x Hl Hk).
      by rewrite bool_decide_eq_true_2 by (apply elem_of_keys; eauto).
    + rewrite bool_decide_eq_false_2; [done |].
      rewrite elem_of_keys, Hk. by intros [??].
  - rewrite (getKeys_dict h l d Hl), elem_of_keys, Hp. by intros [??].
Qed.

End Loops.

(** ** Termination on stores without cycles *)

Lemma orderedFrom_spec n h :
  orderedFrom n h = true →
  ∀ i o l', h !! i = Some o → VRef l' ∈ children o → (l' < n + i)%nat.
Proof.
  revert n. induction h as [|o t IH]; intros n Hb i o' l' Hi Hin; [done |].
  cbn [orderedFrom] in Hb. apply andb_true_iff in Hb as [Ho Ht].
  destruct i as [|i]; simpl in Hi.
  - injection Hi as <-. rewrite forallb_forall in Ho.
    specialize (Ho (VRef l')). rewrite <- list_elem_of_In in Ho.
    specialize (Ho Hin). apply Nat.ltb_lt in Ho. lia.
  - specialize (IH (S n) Ht i o' l' Hi Hin). lia.
Qed.

Lemma ordered_check h : orderedFrom 0 h = true → ordered h.
Proof. intros Hb l o l' Hl Hin. apply (orderedFrom_spec 0 h Hb l o l' Hl Hin). Qed.

Lemma total_ret {A} h0 (a : A) (Q : A → Prop) : Q a → total_from h0 (ret a) Q.
Proof. intros Hq ext _. exists a, []. by rewrite app_nil_r. Qed.

Lemma total_reads {A} h0 (f : heap → A) (Q : A → Prop) :
  (∀ ext, Forall plainObj (h0 ++ ext) → Q (f (h0 ++ ext))) →
  total_from h0 (reads f) Q.
Proof.
  intros Hq ext Hp. exists (f (h0 ++ ext)), []. rewrite app_nil_r.
  split; [done | split; [done | by apply Hq]].
Qed.

Lemma total_weaken {A} h0 (c : M A) (P Q : A → Prop) :
  total_from h0 c P → (∀ a, P a → Q a) → total_from h0 c Q.
Proof.
  intros Hc Hpq ext Hp. destruct (Hc ext Hp) as (r & e & Hr & He & Ha).
  exists r, e. eauto.
Qed.

Lemma total_alloc h0 o : plainObj o → total_from h0 (alloc o) (λ _, True).
Proof.
  intros Ho ext _. exists (VRef (length (h0 ++ ext))), [o].
  split; [done | split; [by apply Forall_singleton | done]].
Qed.

Lemma total_seal h0 out : whole out → total_from h0 (seal out) (λ _, True).
Proof.
  intros Hw ext _. exists (VRef (length (h0 ++ ext))), [ODict (props out)].
  split; [by apply whole_seal | split; [| done]].
  apply Forall_singleton. by destruct Hw.
Qed.

Lemma total_bind {A B} h0 (c : M A) (k : A → M B) (P : A → Prop) (Q : B → Prop) :
  total_from h0 c P → (∀ a, P a → total_from h0 (k a) Q) →
  total_from h0 (bind c k) Q.
Proof.
  intros Hc Hk ext Hp. destruct (Hc ext Hp) as (a & e1 & Ha & He1 & Hpa).
  destruct (Hk a Hpa (ext ++ e1)) as (b & e2 & Hb & He2 & Hqb).
  { rewrite app_assoc. by apply Forall_app. }
  exists b, (e1 ++ e2). rewrite (bind_Ok _ _ _ _ _ Ha).
  rewrite <- (app_assoc h0 ext e1), Hb.
  split; [by rewrite !app_assoc | split; [by apply Forall_app | done]].
Qed.

Lemma total_mapM {A B} h0 (f : A → M B) (l : list A) :
  (∀ x, x ∈ l → total_from h0 (f x) (λ _, True)) →
  total_from h0 (mapM f l) (λ _, True).
Proof.
  induction l as [|x t IH]; intros Hf; simpl; [by apply total_ret |].
  eapply total_bind; [apply Hf, list_elem_of_here |]. intros y _.
  eapply total_bind; [| intros ys _; by apply total_ret].
  apply IH. intros z Hz. by apply Hf, list_elem_of_further.
Qed.

Lemma total_foldM {A B} h0 (f : B → A → M B) (l : list A) (b : B) (P : B → Prop) :
  (∀ b x, x ∈ l → P b → total_from h0 (f b x) P) → P b →
  total_from h0 (foldM f l b) P.
Proof.
  revert b. induction l as [|x t IH]; intros b Hf Hb; simpl; [by apply total_ret |].
  eapply total_bind; [by apply Hf; [apply list_elem_of_here |] |]. intros b' Hb'.
  apply IH; [| done]. intros b'' z Hz. by apply Hf, list_elem_of_further.
Qed.

Lemma within_at h0 ext fuel l i :
  ordered h0 → within h0 (S fuel) (VRef l) →
  within h0 fuel (at_ (h0 ++ ext) (VRef l) i).
Proof.
  intros Ho Hw l' Hl'. destruct (Hw l eq_refl) as [Hf Hv].
  unfold at_ in Hl'. rewrite (elems_grow h0 ext l Hv) in Hl'. unfold elems in Hl'.
  destruct (h0 !! l) as [[xs|d|c p]|] eqn:Hl;
    try (by destruct i; simpl in Hl').
  destruct (xs !! i) as [x|] eqn:Hx; simpl in Hl'; [| done]. subst x.
  assert (l' < l)%nat; [| lia].
  apply (Ho l (OList xs) l' Hl). simpl. by eapply list_elem_of_lookup_2.
Qed.

Section Total.
Context `{Host}.

(** The value a dict of an acyclic store holds under a name it owns. *)
Lemma within_prop h0 ext fuel l d key :
  ordered h0 → h0 !! l = Some (ODict d) → (l ≤ fuel)%nat → is_Some (d !! key) →
  within h0 fuel (prop (h0 ++ ext) (VRef l) key).
Proof.
  intros Ho Hl Hf [x Hx] l' Hl'.
  rewrite (prop_grow h0 ext l key (lookup_lt_Some _ _ _ Hl)) in Hl'.
  rewrite (prop_own h0 l d key x Hl Hx) in Hl'. subst x.
  assert (l' < l)%nat.
  { apply (Ho l (ODict d) l' Hl). simpl. apply list_elem_of_fmap.
    exists (key, VRef l'). split; [done |]. by apply elem_of_map_to_list. }
  apply lookup_lt_Some in Hl. lia.
Qed.

Section TotalLoops.
Variable h0 : heap.
Variable fn : val → val → M val.

Lemma total_putKeyBy prev next out key :
  key ≠ "__proto__" → whole out →
  (∀ ext, total_from h0
            (fn (prop (h0 ++ ext) prev key) (prop (h0 ++ ext) next key))
            (λ _, True)) →
  total_from h0 (putKeyBy prev next fn out key) whole.
Proof.
  intros Hk Ho Hfn. unfold putKeyBy.
  apply (total_bind _ _ _ (λ _, True)).
  - intros ext Hp. destruct (Hfn ext ext Hp) as (r & e & Hr). by exists r, e.
  - intros v _. apply total_ret. destruct (isNil v); [done |]. by apply whole_write.
Qed.

Lemma total_settle prev out :
  whole out →
  total_from h0
    (let* o := seal out in
     reads (λ h, if equalBy h prev o is_ then prev else o)) (λ _, True).
Proof.
  intros Ho. eapply total_bind; [by apply total_seal |].
  intros o _. by apply total_reads.
Qed.

Lemma total_putKeys prev next keys out :
  "__proto__" ∉ keys → whole out →
  (∀ key, key ∈ keys →
     ∀ ext, total_from h0
              (fn (prop (h0 ++ ext) prev key) (prop (h0 ++ ext) next key))
              (λ _, True)) →
  total_from h0 (foldM (putKeyBy prev next fn) keys out) whole.
Proof.
  intros Hk Ho Hfn. apply total_foldM; [| done].
  intros b key Hkey Hb. apply total_putKeyBy; [by intros -> | done |].
  by apply Hfn.
Qed.

Lemma total_patchDictBy prev next :
  (∀ ext key, key ∈ getKeys (h0 ++ ext) next →
     ∀ ext', total_from h0
               (fn (prop (h0 ++ ext') prev key) (prop (h0 ++ ext') next key))
               (λ _, True)) →
  total_from h0 (patchDictBy prev next fn) (λ _, True).
Proof.
  intros Hfn. unfold patchDictBy.
  apply (total_bind _ _ _ (λ keys, "__proto__" ∉ keys)).
  { apply total_reads. intros ext Hp. by apply getKeys_plain_all. }
  intros prevKeys Hprev.
  apply (total_bind _ _ _ whole).
  { apply total_reads. intros ext _. by apply keepKey_fold_whole, whole_blank. }
  intros out0 Hout0.
  apply (total_bind _ _ _
           (λ keys, ("__proto__" ∉ keys) ∧ ∃ ext, keys = getKeys (h0 ++ ext) next)).
  { apply total_reads. intros ext Hp. split; [by apply getKeys_plain_all | eauto]. }
  intros nextKeys (Hnext & ext & ->).
  apply (total_bind _ _ _ whole); [| intros out Hout; by apply total_settle].
  apply total_putKeys; [done | done |]. intros key Hkey. by apply (Hfn ext).
Qed.

End TotalLoops.

Lemma putAny_total h0 fuel prev next :
  ordered h0 → within h0 fuel next →
  total_from h0 (putAny fuel prev next) (λ _, True).
Proof.
  intros Ho. revert prev next.
  induction fuel as [|fuel IH]; intros prev next Hw ext Hp.
  - cbn [putAny].
    destruct (is_ prev next); [by exists prev, []; rewrite app_nil_r |].
    destruct (isArray (h0 ++ ext) prev).
    + destruct (isArray (h0 ++ ext) next) eqn:Hn;
        [| by exists next, []; rewrite app_nil_r].
      apply isArray_ref in Hn as (l & xs & -> & _).
      destruct (Hw l eq_refl). lia.
    + destruct (isDict (h0 ++ ext) prev); [| by exists next, []; rewrite app_nil_r].
      destruct (isDict (h0 ++ ext) next) eqn:Hn;
        [| by exists next, []; rewrite app_nil_r].
      apply isDict_ref in Hn as (l & xs & -> & _).
      destruct (Hw l eq_refl). lia.
  - cbn [putAny].
    destruct (is_ prev next); [by exists prev, []; rewrite app_nil_r |].
    destruct (isArray (h0 ++ ext) prev).
    + destruct (isArray (h0 ++ ext) next) eqn:Hn;
        [| by exists next, []; rewrite app_nil_r].
      apply isArray_ref in Hn as (l & xs & -> & _).
      assert (Ht : total_from h0 (replaceListBy prev (VRef l) (putAny fuel))
                     (λ _, True)).
      { unfold replaceListBy.
        apply (total_bind _ _ _ (λ _, True)); [by apply total_reads |].
        intros n _. apply (total_bind _ _ _ (λ _, True)).
        - apply total_mapM. intros i _ ext' Hp'.
          apply (IH (at_ (h0 ++ ext') prev i) (at_ (h0 ++ ext') (VRef l) i));
            [by apply within_at | done].
        - intros out _. apply (total_bind _ _ _ (λ _, True));
            [by apply total_alloc | intros o _; by apply total_reads]. }
      by apply Ht.
    + destruct (isDict (h0 ++ ext) prev); [| by exists next, []; rewrite app_nil_r].
      destruct (isDict (h0 ++ ext) next) eqn:Hn;
        [| by exists next, []; rewrite app_nil_r].
      apply isDict_ref in Hn as (l & d & -> & Hl).
      destruct (Hw l eq_refl) as [Hf Hv].
      rewrite lookup_app_l in Hl by done.
      assert (Ht : total_from h0 (replaceDictBy prev (VRef l) (putAny fuel))
                     (λ _, True)).
      { unfold replaceDictBy.
        apply (total_bind _ _ _
                 (λ keys, ("__proto__" ∉ keys) ∧ ∀ key, key ∈ keys → is_Some (d !! key))).
        { apply total_reads. intros ext' Hp'. split; [by apply getKeys_plain_all |].
          intros key. rewrite (getKeys_grow h0 ext' l Hv), (getKeys_dict h0 l d Hl).
          apply elem_of_keys. }
        intros keys [Hkeys Hown].
        apply (total_bind _ _ _ whole); [| intros out Hout; by apply total_settle].
        apply total_putKeys; [done | apply whole_blank |].
        intros key Hkey ext'. apply IH.
        apply (within_prop h0 ext' fuel l d key Ho Hl); [lia | by apply Hown]. }
      by apply Ht.
Qed.

Lemma total_toDict h0 v : total_from h0 (toDict v) (λ _, True).
Proof.
  intros ext Hp. unfold toDict. destruct (isDict (h0 ++ ext) v).
  - exists v, []. by rewrite app_nil_r.
  - apply total_alloc; [| done]. simpl. apply lookup_empty.
Qed.

Lemma mergeTwo_same fuel prev next h :
  is_ prev next = true → mergeTwo fuel prev next h = Ok (prev, h).
Proof. intros Hi. destruct fuel; cbn [mergeTwo]; by rewrite Hi. Qed.

Lemma mergeTwo_unfold fuel prev next h :
  is_ prev next = false →
  mergeTwo (S fuel) prev next h =
    (let* p := toDict prev in
     let* n := toDict next in
     patchDictBy p n (mergeOrPut fuel)) h.
Proof. intros Hi. cbn [mergeTwo]. by rewrite Hi. Qed.

Lemma mergeTwo_total h0 fuel prev next :
  ordered h0 → within h0 fuel next →
  total_from h0 (mergeTwo (S fuel) prev next) (λ _, True).
Proof.
  intros Ho. revert prev next.
  induction fuel as [|fuel IH]; intros prev next Hw ext Hp;
    (destruct (is_ prev next) eqn:Hi;
     [rewrite mergeTwo_same by done; exists prev, []; by rewrite app_nil_r |]);
    rewrite mergeTwo_unfold by done;
    destruct (total_toDict h0 prev ext Hp) as (p & e1 & Hrp & He1 & _);
    rewrite (bind_Ok _ _ _ _ _ Hrp), <- (app_assoc h0 ext e1);
    assert (Hp1 : Forall plainObj (h0 ++ ext ++ e1))
      by (rewrite app_assoc; by apply Forall_app);
    unfold bind at 1, toDict at 1;
    destruct (isDict (h0 ++ ext ++ e1) next) eqn:Hn.
  - apply isDict_ref in Hn as (l & d & -> & _). destruct (Hw l eq_refl). lia.
  - unfold alloc.
    assert (Ht : total_from ((h0 ++ ext ++ e1) ++ [ODict ∅])
                   (patchDictBy p (VRef (length (h0 ++ ext ++ e1))) (mergeOrPut 0))
                   (λ _, True)).
    { apply total_patchDictBy. intros ext' key Hkey.
      unfold getKeys in Hkey.
      rewrite lookup_app_l in Hkey by (rewrite last_length; lia).
      rewrite lookup_fresh, map_to_list_empty in Hkey. by inversion Hkey. }
    destruct (Ht []) as (r & e2 & Hr & He2 & _).
    { rewrite app_nil_r. apply Forall_app. split; [done |].
      apply Forall_singleton. apply lookup_empty. }
    rewrite app_nil_r in Hr.
    exists r, (e1 ++ [ODict ∅] ++ e2). rewrite Hr.
    split; [by rewrite !app_assoc | split; [| done]].
    apply Forall_app. split; [done |]. apply Forall_app. split; [| done].
    apply Forall_singleton. apply lookup_empty.
  - apply isDict_ref in Hn as (l & d & -> & Hl).
    destruct (Hw l eq_refl) as [Hf Hv]. rewrite lookup_app_l in Hl by done.
    assert (Ht : total_from h0 (patchDictBy p (VRef l) (mergeOrPut (S fuel)))
                   (λ _, True)).
    { apply total_patchDictBy. intros ext0 key Hkey ext' ext'' Hp''.
      rewrite (getKeys_grow h0 ext0 l Hv), (getKeys_dict h0 l d Hl) in Hkey.
      apply elem_of_keys in Hkey.
      pose proof (within_prop h0 ext' fuel l d key Ho Hl ltac:(lia) Hkey) as Hc.
      unfold mergeOrPut.
      destruct (isDict (h0 ++ ext'') (prop (h0 ++ ext') (VRef l) key)).
      - by apply IH.
      - apply putAny_total; [done | | done]. intros l' Hl'.
        destruct (Hc l' Hl'). lia. }
    destruct (Ht (ext ++ e1)) as (r & e2 & Hr & He2 & _); [done |].
    exists r, (e1 ++ e2). rewrite Hr.
    split; [by rewrite !app_assoc | split; [by apply Forall_app | done]].
  - unfold alloc.
    assert (Ht : total_from ((h0 ++ ext ++ e1) ++ [ODict ∅])
                   (patchDictBy p (VRef (length (h0 ++ ext ++ e1)))
                      (mergeOrPut (S fuel)))
                   (λ _, True)).
    { apply total_patchDictBy. intros ext' key Hkey.
      unfold getKeys in Hkey.
      rewrite lookup_app_l in Hkey by (rewrite last_length; lia).
      rewrite lookup_fresh, map_to_list_empty in Hkey. by inversion Hkey. }
    destruct (Ht []) as (r & e2 & Hr & He2 & _).
    { rewrite app_nil_r. apply Forall_app. split; [done |].
      apply Forall_singleton. apply lookup_empty. }
    rewrite app_nil_r in Hr.
    exists r, (e1 ++ [ODict ∅] ++ e2). rewrite Hr.
    split; [by rewrite !app_assoc | split; [| done]].
    apply Forall_app. split; [done |]. apply Forall_app. split; [| done].
    apply Forall_singleton. apply lookup_empty.
Qed.

End Total.

(** ** [putAny] *)

Section PutAnyFacts.
Context `{Host}.

Lemma putAny_same fuel prev next h :
  is_ prev next = true → putAny fuel prev next h = Ok (prev, h).
Proof. intros Hi. destruct fuel; simpl; by rewrite Hi. Qed.

Lemma putAny_atomic fuel prev next h :
  is_ prev next = false →
  isArray h prev && isArray h next = false →
  isDict h prev && isDict h next = false →
  putAny fuel prev next h = Ok (next, h).
Proof.
  intros Hi Ha Hd.
  destruct fuel; simpl; rewrite Hi;
    destruct (isArray h prev), (isArray h next), (isDict h prev), (isDict h next);
    done.
Qed.

End PutAnyFacts.

(** ** [put] *)

Lemma pretty_Z_of_nat (i : nat) : pretty (Z.of_nat i) = pretty i.
Proof. by destruct i. Qed.

Lemma arrayIndex_pretty (n i : nat) :
  (i < n)%nat → arrayIndex n (pretty i) = Some i.
Proof.
  intros Hi. unfold arrayIndex.
  assert (Hf : list_find (λ j : nat, pretty j = pretty i) (seq 0 n) = Some (i, i)).
  { apply list_find_Some. split; [by apply lookup_seq |]. split; [done |].
    intros j y Hj Hlt Heq. apply lookup_seq in Hj as [-> _].
    apply (inj pretty) in Heq. simpl in Hlt. lia. }
  by rewrite Hf.
Qed.

Section PutFacts.
Context `{Host}.

(** The property name of an index that prints in plain digits. *)
Lemma toKey_index (i : nat) :
  (Z.of_nat i < 10 ^ 21)%Z → toKey (VNum (NInt (Z.of_nat i))) = pretty i.
Proof.
  intros Hi. cbn [toKey numToString].
  rewrite decide_True by lia. apply pretty_Z_of_nat.
Qed.

Lemma prop_list_index h l xs (i : nat) :
  h !! l = Some (OList xs) → (i < length xs)%nat →
  prop h (VRef l) (pretty i) = at_ h (VRef l) i.
Proof.
  intros Hl Hi. unfold prop, own, at_, elems.
  rewrite Hl, (arrayIndex_pretty _ _ Hi).
  destruct (xs !! i) as [x|] eqn:Hx; [done |].
  apply lookup_ge_None in Hx. lia.
Qed.

Lemma alwaysDict_dict h v : isDict h v = true → alwaysDict v h = Ok (v, h).
Proof.
  intros Hd. unfold alwaysDict. rewrite (isDict_not_nil h v Hd).
  unfold bind, validate, satisfies, ret. by rewrite Hd.
Qed.

Lemma alwaysDict_nil h v :
  isNil v = true → alwaysDict v h = Ok (VRef (length h), h ++ [ODict ∅]).
Proof. intros Hn. unfold alwaysDict. by rewrite Hn. Qed.

Lemma assocAtKey_same h dict key value :
  (if isNil value then has h dict (toKey key) = false
   else prop h dict (toKey key) = value) →
  assocAtKey dict key value h = Ok (dict, h).
Proof.
  intros Hc. unfold assocAtKey. destruct (isNil value).
  - by rewrite Hc.
  - by rewrite Hc, is_refl.
Qed.

Lemma assocAtIndex_same h lst (i : nat) :
  (i < len h lst)%nat →
  assocAtIndex lst (VNum (NInt (Z.of_nat i))) (at_ h lst i) h = Ok (lst, h).
Proof.
  intros Hi. unfold assocAtIndex, bind. rewrite validateBounds_spec.
  assert (isNatural (VNum (NInt (Z.of_nat i))) = true) as ->
    by (apply isNatural_spec; eauto).
  simpl.
  assert ((Z.of_nat i <=? Z.of_nat (len h lst))%Z = true) as ->
    by (apply Z.leb_le; lia).
  assert ((Z.of_nat i <? Z.of_nat (len h lst))%Z = true) as ->
    by (apply Z.ltb_lt; lia).
  by rewrite Nat2Z.id, is_refl.
Qed.

(** C1, as the code has it.  Let [cur] be [get(v, k)] for a primitive key [k].
    If [v] is a Dict that does not hold null or undefined under [k], or [v] is
    a List and [k] a natural number below its length, then [put(v, k, cur)]
    returns [v] itself, the same reference, and allocates nothing.  (An index
    of a List prints in plain digits: it is below [10 ^ 21].) *)
Theorem put_get_identity (fuel : nat) (h : heap) (v key cur : val) :
  isPrimitive h key = true →
  get h v key = Ok cur →
  (isDict h v = true ∧ (has h v (toKey key) = true → isNil cur = false)) ∨
  (isArray h v = true ∧
   ∃ i : nat, key = VNum (NInt (Z.of_nat i)) ∧ (i < len h v)%nat ∧
              (Z.of_nat i < 10 ^ 21)%Z) →
  put fuel v key cur h = Ok (v, h).
Proof.
  intros Hp Hget Hv.
  assert (Hnn : isNil v = false).
  { destruct Hv as [[Hd _] | [Ha _]];
      [by eapply isDict_not_nil | by eapply isArray_not_nil]. }
  assert (Hcur : cur = prop h v (toKey key)).
  { rewrite (get_primitive h v key Hp) in Hget. unfold getPrim in Hget.
    rewrite Hnn in Hget. congruence. }
  unfold put, bind at 1, validate. simpl. rewrite Hp.
  unfold bind at 1, getM. rewrite Hget. simpl.
  unfold bind. rewrite (putAny_same fuel cur cur h (is_refl cur)).
  unfold assoc. destruct Hv as [[Hd Hnil] | [Ha (i & -> & Hi & Hbig)]].
  - rewrite (isDict_not_array h v Hd). unfold bind.
    rewrite (alwaysDict_dict h v Hd). apply assocAtKey_same.
    destruct (isNil cur) eqn:Hn; [| done].
    destruct (has h v (toKey key)); [| done].
    specialize (Hnil eq_refl). congruence.
  - rewrite Ha. rewrite Hcur.
    apply isArray_ref in Ha as (l & xs & -> & Hl).
    assert (Hi' : (i < length xs)%nat).
    { unfold len, elems in Hi. by rewrite Hl in Hi. }
    rewrite (toKey_index i Hbig), (prop_list_index h l xs i Hl Hi').
    by apply assocAtIndex_same.
Qed.

End PutFacts.

Lemma put_get_identity_witness :
  put (H := quietHost) 0 (VRef 0) (VStr "a") (VNum (NInt 1))
    [ODict {[ "a" := VNum (NInt 1) ]}] =
    Ok (VRef 0, [ODict {[ "a" := VNum (NInt 1) ]}]) ∧
  put (H := quietHost) 0 (VRef 0) (VNum (NInt 1)) (VStr "y")
    [OList [VStr "x"; VStr "y"]] =
    Ok (VRef 0, [OList [VStr "x"; VStr "y"]]).
Proof.
  split.
  - apply (put_get_identity (H := quietHost) 0
             [ODict {[ "a" := VNum (NInt 1) ]}] (VRef 0) (VStr "a")
             (VNum (NInt 1)));
      [reflexivity | reflexivity | left; split; [reflexivity | reflexivity]].
  - apply (put_get_identity (H := quietHost) 0
             [OList [VStr "x"; VStr "y"]] (VRef 0) (VNum (NInt 1)) (VStr "y"));
      [reflexivity | reflexivity |].
    right. split; [reflexivity |]. exists 1%nat.
    split; [reflexivity | split; [vm_compute; lia | reflexivity]].
Defined.

(** C1, as the spec words it, fails on a Dict that holds a nullish value:
    for [v = {a: null}], [get(v, 'a')] is [null] and [put(v, 'a', null)]
    returns a new, empty Dict. *)
Lemma put_get_nullish_entry_copies :
  isDict [ODict {[ "a" := VNull ]}] (VRef 0) = true ∧
  isPrimitive [ODict {[ "a" := VNull ]}] (VStr "a") = true ∧
  get (H := quietHost) [ODict {[ "a" := VNull ]}] (VRef 0) (VStr "a") =
    Ok VNull ∧
  put (H := quietHost) 0 (VRef 0) (VStr "a") VNull
    [ODict {[ "a" := VNull ]}] =
    Ok (VRef 1, [ODict {[ "a" := VNull ]}; ODict ∅]) ∧
  VRef 1 ≠ VRef 0.
Proof. repeat split; try reflexivity. discriminate. Qed.

(** ** Idempotence *)

Lemma entries_dict h l d : h !! l = Some (ODict d) → entries h (VRef l) = d.
Proof. intros Hl. unfold entries. by rewrite Hl. Qed.

Lemma has_empty h v key : entries h v = ∅ → isDict h v = true → has h v key = false.
Proof.
  intros He (l & d & -> & Hl)%isDict_ref.
  rewrite (entries_dict h l d Hl) in He. subst d.
  rewrite (has_dict h l ∅ key Hl), lookup_empty.
  apply bool_decide_eq_false. by intros [??].
Qed.

Section Idempotence.
Context `{Host}.

(** C8, as the code has it.  For every Dict [v], [merge(v, v)] returns [v]
    itself and the store as it was; and when [v] holds no null or undefined
    value and owns no property named ["__proto__"], [patch(v, {})] returns
    [v] itself. *)
Theorem patch_empty_merge_self (fuel : nat) (h : heap) (v : val) :
  isDict h v = true →
  merge fuel [v; v] h = Ok (v, h) ∧
  (cleanMap (entries h v) → entries h v !! "__proto__" = None →
   ∀ e, isDict h e = true → entries h e = ∅ →
     ∃ h', patch fuel [v; e] h = Ok (v, h') ∧ grows h h').
Proof.
  intros Hd. split.
  - unfold merge. simpl. unfold mergeTwoDicts, arg. simpl.
    unfold bind. rewrite !(alwaysDict_dict h v Hd).
    destruct fuel; cbn [mergeTwo]; by rewrite is_refl.
  - intros Hclean Hplain e He Hempty.
    assert (Hrun : ∃ h', patch fuel [v; e] h = Ok (v, h')).
    { unfold patch. simpl. unfold patchTwoDicts, arg. simpl.
      unfold bind at 1. rewrite (alwaysDict_dict h v Hd).
      unfold bind at 1. rewrite (alwaysDict_dict h e He).
      destruct (is_ v e) eqn:Hi; [by eexists |].
      pose proof Hd as (l & d & -> & Hl)%isDict_ref.
      rewrite (entries_dict h l d Hl) in Hclean, Hplain.
      unfold patchDictBy, bind at 1, reads at 1.
      unfold bind at 1, reads at 1. unfold bind at 1, reads at 1.
      assert (getKeys h e = []) as ->.
      { apply isDict_ref in He as (le & de & -> & Hle).
        rewrite (entries_dict h le de Hle) in Hempty. subst de.
        by rewrite (getKeys_dict h le ∅ Hle), map_to_list_empty. }
      cbn [foldM]. unfold bind at 1, ret.
      assert (Hw : whole (foldl (keepKey h (VRef l) e) blank (getKeys h (VRef l)))).
      { apply keepKey_fold_whole; [| apply whole_blank].
        rewrite (getKeys_dict h l d Hl), elem_of_keys, Hplain. by intros [??]. }
      rewrite (whole_eta _ (proj1 Hw)).
      rewrite (settle_dict h l d _ Hl).
      rewrite bool_decide_eq_true_2; [by eexists |].
      apply map_eq. intros k. rewrite (keepKey_dict_lookup h l d e k Hl Hplain).
      destruct (d !! k) as [x|] eqn:Hk; [| done].
      by rewrite (Hclean k x Hk), (has_empty h e k Hempty He). }
    destruct Hrun as [h' Hrun]. exists h'. split; [done |].
    by apply (sound_patch _ _ _ _ _ Hrun).
Qed.

End Idempotence.

Lemma patch_empty_merge_self_witness :
  merge (H := quietHost) 0 [VRef 0; VRef 0]
    [ODict {[ "a" := VNum (NInt 1) ]}; ODict ∅] =
    Ok (VRef 0, [ODict {[ "a" := VNum (NInt 1) ]}; ODict ∅]) ∧
  ∃ h', patch (H := quietHost) 0 [VRef 0; VRef 1]
          [ODict {[ "a" := VNum (NInt 1) ]}; ODict ∅] =
          Ok (VRef 0, h').
Proof.
  destruct (patch_empty_merge_self (H := quietHost) 0
              [ODict {[ "a" := VNum (NInt 1) ]}; ODict ∅] (VRef 0) eq_refl)
    as [Hm Hp].
  split; [exact Hm |].
  destruct (Hp (cleanMap_insert ∅ "a" (VNum (NInt 1)) cleanMap_empty eq_refl)
              eq_refl (VRef 1) eq_refl eq_refl) as (h' & Hrun & _).
  by exists h'.
Defined.

(** C8, as the spec words it, fails three times: [patch({a: null}, {})] is a
    new, empty Dict; so is [patch(v, {})] for the [v] that owns the one
    property ["__proto__"] with the value 5, which the write to the new Dict
    does not copy; and [merge(undefined, undefined)] is a new Dict too, not
    [undefined]. *)
Lemma patch_empty_drops_nullish :
  patch (H := quietHost) 0 [VRef 0; VRef 1] [ODict {[ "a" := VNull ]}; ODict ∅] =
    Ok (VRef 2, [ODict {[ "a" := VNull ]}; ODict ∅; ODict ∅]) ∧
  VRef 2 ≠ VRef 0 ∧
  patch (H := quietHost) 0 [VRef 0; VRef 1]
    [ODict {[ "__proto__" := VNum (NInt 5) ]}; ODict ∅] =
    Ok (VRef 2, [ODict {[ "__proto__" := VNum (NInt 5) ]}; ODict ∅; ODict ∅]) ∧
  merge (H := quietHost) 1 [VUndef; VUndef] [] =
    Ok (VRef 0, [ODict ∅; ODict ∅; ODict ∅]) ∧
  VRef 0 ≠ VUndef.
Proof. repeat split; try reflexivity; discriminate. Qed.

(** ** Path-spine sharing *)

Lemma rewritten_lookup_ne d key value k :
  k ≠ key →
  rewritten d key value !! k =
    match d !! k with
    | Some x => if isNil x then None else Some x
    | None => None
    end.
Proof.
  intros Hk. unfold rewritten. rewrite lookup_insert_ne by done.
  destruct (d !! k) as [x|] eqn:Hx.
  - destruct (isNil x) eqn:Hn.
    + apply map_lookup_filter_None. right. intros y Hy. simpl.
      rewrite lookup_delete_ne in Hy by done. congruence.
    + apply map_lookup_filter_Some. by rewrite lookup_delete_ne.
  - apply map_lookup_filter_None. left. by rewrite lookup_delete_ne.
Qed.

Section PathSpine.
Context `{Host}.

Lemma assocAtKey_copy h l d key value :
  h !! l = Some (ODict d) → d !! "__proto__" = None → toKey key ≠ "__proto__" →
  isNil value = false → d !! toKey key ≠ Some value →
  (d !! toKey key = None → inherited (VRef l) (toKey key) ≠ value) →
  assocAtKey (VRef l) key value h =
    Ok (VRef (length h), h ++ [ODict (rewritten d (toKey key) value)]).
Proof.
  intros Hl Hp Hkey Hn Hne Hinh. unfold assocAtKey. rewrite Hn.
  rewrite (prop_dict h l d _ Hl).
  assert (is_ (default (inherited (VRef l) (toKey key)) (d !! toKey key)) value
          = false) as ->.
  { apply is_false. intros Heq. destruct (d !! toKey key) as [x|] eqn:Hk.
    - simpl in Heq. by subst.
    - simpl in Heq. by apply Hinh. }
  assert (Hw : whole (foldl (copyKey h (VRef l) (toKey key)) blank
                        (getKeys h (VRef l)))).
  { apply copyKey_fold_whole; [| apply whole_blank].
    rewrite (getKeys_dict h l d Hl), elem_of_keys, Hp. by intros [??]. }
  rewrite (whole_seal _ h (whole_write _ _ value Hkey Hw)).
  rewrite (write_other _ _ value Hkey). cbn [props].
  replace (<[toKey key:=value]>
             (props (foldl (copyKey h (VRef l) (toKey key)) blank
                       (getKeys h (VRef l)))))
    with (rewritten d (toKey key) value); [done |].
  symmetry. apply map_eq. intros k. unfold rewritten.
  destruct (decide (k = toKey key)) as [-> | Hk].
  { by rewrite !lookup_insert_eq. }
  rewrite !lookup_insert_ne by done.
  rewrite (copyKey_dict_lookup h l d (toKey key) k Hl Hp).
  rewrite (bool_decide_eq_false_2 _ Hk). simpl.
  destruct (d !! k) as [x|] eqn:Hx.
  - destruct (isNil x) eqn:Hnx; simpl; symmetry.
    + apply map_lookup_filter_None. right. intros y Hy. simpl.
      rewrite lookup_delete_ne in Hy by done. congruence.
    + apply map_lookup_filter_Some. by rewrite lookup_delete_ne.
  - symmetry. apply map_lookup_filter_None. left.
    by rewrite lookup_delete_ne.
Qed.

Lemma assoc_dict h l d key value :
  h !! l = Some (ODict d) →
  assoc (VRef l) key value h = assocAtKey (VRef l) key value h.
Proof.
  intros Hl.
  assert (Hd : isDict h (VRef l) = true) by (apply isDict_ref; eauto).
  unfold assoc. rewrite (isDict_not_array h _ Hd). unfold bind.
  by rewrite (alwaysDict_dict h _ Hd).
Qed.

Lemma get_dict_key h l d k x :
  h !! l = Some (ODict d) → d !! k = Some x → get h (VRef l) (VStr k) = Ok x.
Proof.
  intros Hl Hk. unfold get, propertyKey. cbn [isNil toKey].
  by rewrite (prop_own h l d k x Hl Hk).
Qed.

(** C2. Let [v] be a Dict whose key [a] holds a Dict [va] whose key [b] holds
    1, as [v = {a: {b: 1, c: 2}}] is, neither of the two owning a property
    named ["__proto__"].  Then [putIn(v, ['a','b'], 1)] returns the reference
    [v] and leaves the store alone, and [putIn(v, ['a','b'], 9)] returns a new
    top-level Dict over a new inner Dict.  In both new Dicts every key off
    the path holds the very value it held in [v] or [va], so a sibling
    subtree is the same reference as before (a sibling that was null or
    undefined is left out); [v] and [va] themselves are not touched. *)
Theorem putIn_path_spine (fuel : nat) (h : heap) (lv la lp : nat)
    (dv da : gmap string val) :
  h !! lv = Some (ODict dv) → dv !! "a" = Some (VRef la) →
  h !! la = Some (ODict da) → da !! "b" = Some (VNum (NInt 1)) →
  h !! lp = Some (OList [VStr "a"; VStr "b"]) →
  dv !! "__proto__" = None → da !! "__proto__" = None →
  putIn fuel (VRef lv) (VRef lp) (VNum (NInt 1)) h = Ok (VRef lv, h) ∧
  putIn fuel (VRef lv) (VRef lp) (VNum (NInt 9)) h =
    Ok (VRef (S (length h)),
        h ++ [ODict (rewritten da "b" (VNum (NInt 9)));
              ODict (rewritten dv "a" (VRef (length h)))]) ∧
  VRef (S (length h)) ≠ VRef lv ∧
  (∀ k, k ≠ "a" →
     rewritten dv "a" (VRef (length h)) !! k =
       match dv !! k with
       | Some x => if isNil x then None else Some x
       | None => None
       end) ∧
  (∀ k, k ≠ "b" →
     rewritten da "b" (VNum (NInt 9)) !! k =
       match da !! k with
       | Some x => if isNil x then None else Some x
       | None => None
       end).
Proof.
  intros Hv Ha Hva Hb Hp Hpv Hpa.
  assert (Hpath : isPath h (VRef lp) = true).
  { unfold isPath, isArray, isObject, elems. simpl. by rewrite Hp. }
  assert (Harr : isArray h (VRef lp) = true) by (apply isArray_ref; eauto).
  assert (Hga : get h (VRef lv) (VStr "a") = Ok (VRef la)).
  { by apply (get_dict_key h lv dv "a"). }
  assert (Hgb : get h (VRef la) (VStr "b") = Ok (VNum (NInt 1))).
  { by apply (get_dict_key h la da "b"). }
  assert (Hcur : ∀ next,
            putIn fuel (VRef lv) (VRef lp) next h =
              (let* new := putAny fuel (VNum (NInt 1)) next in
               let* sub := assoc (VRef la) (VStr "b") new in
               assoc (VRef lv) (VStr "a") sub) h).
  { intros next.
    assert (Hgi : getIn (VRef lv) (VRef lp) h = Ok (VNum (NInt 1), h)).
    { unfold getIn. rewrite (bind_Ok _ _ h tt h (validate_Ok h _ IsArray Harr)).
      unfold elems. rewrite Hp. cbn [getFold]. by rewrite Hga, Hgb. }
    unfold putIn.
    rewrite (bind_Ok _ _ h tt h (validate_Ok h _ IsPath Hpath)).
    rewrite (bind_Ok _ _ h _ h Hgi).
    destruct (putAny fuel (VNum (NInt 1)) next h) as [[new h1]|e| |] eqn:Hrun;
      [| by rewrite !(bind_Throw _ _ h e Hrun)
       | by rewrite !(bind_Exhausted _ _ h Hrun)
       | by rewrite !(bind_Escapes _ _ h Hrun)].
    rewrite !(bind_Ok _ _ h new h1 Hrun).
    destruct (sound_putAny fuel _ _ h new h1 Hrun) as [Hg _].
    unfold assocIn, len.
    rewrite (grows_elems h h1 lp Hg (lookup_lt_Some _ _ _ Hp)).
    unfold elems. rewrite Hp. cbn [length bool_decide assocInAt].
    rewrite bool_decide_eq_false_2 by done.
    assert (Hga' : getM (VRef lv) (VStr "a") h1 = Ok (VRef la, h1)).
    { unfold getM.
      by rewrite (get_dict_key h1 lv dv "a" _ (grows_lookup _ _ _ _ Hg Hv) Ha). }
    by rewrite (bind_Ok _ _ h1 _ h1 Hga'). }
  split; [| split; [| split; [| split]]].
  - rewrite Hcur. unfold bind at 1.
    rewrite (putAny_same fuel _ _ h (is_refl _)).
    unfold bind. rewrite (assoc_dict h la da _ _ Hva).
    rewrite assocAtKey_same
      by (cbn [isNil toKey]; by apply (prop_own h la da "b")).
    rewrite (assoc_dict h lv dv _ _ Hv).
    apply assocAtKey_same. cbn [isNil toKey].
    by apply (prop_own h lv dv "a").
  - rewrite Hcur. unfold bind at 1.
    rewrite (putAny_atomic fuel _ _ h) by done.
    unfold bind. rewrite (assoc_dict h la da _ _ Hva).
    rewrite (assocAtKey_copy h la da (VStr "b") _ Hva Hpa);
      [| done | done | simpl; congruence | simpl; congruence].
    pose proof (lookup_grow h [ODict (rewritten da "b" (VNum (NInt 9)))]
                  lv _ Hv) as Hv'.
    rewrite (assoc_dict _ lv dv _ _ Hv').
    rewrite (assocAtKey_copy _ lv dv (VStr "a") _ Hv' Hpv); [| done | done | |].
    + rewrite length_app. simpl. rewrite Nat.add_1_r.
      by rewrite <- app_assoc.
    + simpl. rewrite Ha. intros [= Heq].
      apply lookup_lt_Some in Hva. lia.
    + simpl. congruence.
  - intros [= Heq]. apply lookup_lt_Some in Hv. lia.
  - intros k Hk. by apply rewritten_lookup_ne.
  - intros k Hk. by apply rewritten_lookup_ne.
Qed.

End PathSpine.

Lemma putIn_path_spine_witness :
  putIn (H := quietHost) 0 (VRef 1) (VRef 2) (VNum (NInt 9))
    [ODict (<["b":=VNum (NInt 1)]> {[ "c" := VNum (NInt 2) ]});
     ODict {[ "a" := VRef 0 ]};
     OList [VStr "a"; VStr "b"]] =
  Ok (VRef 4,
      [ODict (<["b":=VNum (NInt 1)]> {[ "c" := VNum (NInt 2) ]});
       ODict {[ "a" := VRef 0 ]};
       OList [VStr "a"; VStr "b"];
       ODict (<["b":=VNum (NInt 9)]> {[ "c" := VNum (NInt 2) ]});
       ODict {[ "a" := VRef 3 ]}]).
Proof.
  destruct (putIn_path_spine (H := quietHost) 0
              [ODict (<["b":=VNum (NInt 1)]> {[ "c" := VNum (NInt 2) ]});
               ODict {[ "a" := VRef 0 ]};
               OList [VStr "a"; VStr "b"]]
              1 0 2 {[ "a" := VRef 0 ]}
              (<["b":=VNum (NInt 1)]> {[ "c" := VNum (NInt 2) ]}))
    as (_ & Hrun & _); [reflexivity .. |].
  rewrite Hrun. reflexivity.
Defined.

(** ** What a patched dict holds *)

Section Patched.
Context `{Host}.

Lemma putKeyBy_run prev next fn out key h out1 h1 :
  putKeyBy prev next fn out key h = Ok (out1, h1) →
  ∃ x, fn (prop h prev key) (prop h next key) h = Ok (x, h1) ∧
       out1 = if isNil x then out else write out key x.
Proof.
  unfold putKeyBy, bind, ret.
  destruct (fn (prop h prev key) (prop h next key) h) as [[x h2]| | |]; try done.
  intros [= <- <-]. by exists x.
Qed.

Lemma foldM_putKeyBy_lookup fn prev next :
  (∀ p n, sound (fn p n) (λ _, True)) →
  ∀ keys out0 h out h',
    NoDup keys → "__proto__" ∉ keys →
    foldM (putKeyBy prev next fn) keys out0 h = Ok (out, h') →
    grows h h' ∧ parent out = parent out0 ∧
    ∀ k,
      (k ∉ keys → props out !! k = props out0 !! k) ∧
      (k ∈ keys →
         ∃ x h1 h2,
           grows h h1 ∧ grows h2 h' ∧
           fn (prop h1 prev k) (prop h1 next k) h1 = Ok (x, h2) ∧
           props out !! k = if isNil x then props out0 !! k else Some x).
Proof.
  intros Hfn. induction keys as [|key t IH]; intros out0 h out h' Hnd Hpl Hrun.
  - injection Hrun as <- <-. split; [apply grows_refl |]. split; [done |].
    intros k. split; [done |]. by intros ?%elem_of_nil.
  - cbn [foldM] in Hrun. apply NoDup_cons in Hnd as [Hkey Hnd].
    apply not_elem_of_cons in Hpl as [Hpk Hpl].
    destruct (putKeyBy prev next fn out0 key h) as [[out1 h1]| | |] eqn:Hstep;
      [| by rewrite (bind_Throw _ _ _ _ Hstep) in Hrun
       | by rewrite (bind_Exhausted _ _ _ Hstep) in Hrun
       | by rewrite (bind_Escapes _ _ _ Hstep) in Hrun].
    rewrite (bind_Ok _ _ _ _ _ Hstep) in Hrun.
    apply putKeyBy_run in Hstep as (x & Hx & ->).
    destruct (Hfn _ _ _ _ _ Hx) as [Hg1 _].
    destruct (IH _ _ _ _ Hnd Hpl Hrun) as (Hg2 & Hpar & Hk).
    assert (Hkey' : key ≠ "__proto__") by (by intros ->).
    split; [by eapply grows_trans |].
    split.
    { rewrite Hpar. destruct (isNil x); [done |]. by rewrite write_other. }
    assert (Hother : ∀ k, k ≠ key →
              props (if isNil x then out0 else write out0 key x) !! k =
              props out0 !! k).
    { intros k Hne. destruct (isNil x); [done |].
      rewrite write_other by done. cbn [props]. by rewrite lookup_insert_ne. }
    intros k. destruct (Hk k) as [Hout Hin]. split.
    + intros [Hne Hnt]%not_elem_of_cons. rewrite (Hout Hnt). by apply Hother.
    + intros [-> | Hkt]%elem_of_cons.
      * exists x, h, h1. split; [apply grows_refl |]. split; [done |].
        split; [done |]. rewrite (Hout Hkey).
        destruct (isNil x); [done |].
        rewrite write_other by done. cbn [props]. by rewrite lookup_insert_eq.
      * destruct (Hin Hkt) as (x' & ha & hb & Hga & Hgb & Hrun' & Hval).
        exists x', ha, hb. split; [by eapply grows_trans |].
        split; [done |]. split; [done |].
        rewrite Hval, Hother; [done |]. intros ->. done.
Qed.

(** The contents of [patchDictBy(prev, next, fun)] for two Dicts that own no
    property named ["__proto__"]: a key that [next] lacks holds what [prev]
    holds under it, unless that is nullish; a key of [next] holds the result
    of [fun(prev[key], next[key])], run in some store between the first and
    the last, unless that is nullish.  The result is [prev] itself when this
    is exactly what [prev] holds, a new Dict otherwise. *)
Lemma patchDictBy_contents fn h lp ln dp dn r h' :
  (∀ p n, sound (fn p n) (λ _, True)) →
  h !! lp = Some (ODict dp) → h !! ln = Some (ODict dn) →
  dp !! "__proto__" = None → dn !! "__proto__" = None →
  patchDictBy (VRef lp) (VRef ln) fn h = Ok (r, h') →
  ∃ lr dr,
    r = VRef lr ∧ grows h h' ∧ h' !! lr = Some (ODict dr) ∧
    (dr = dp → lr = lp) ∧ (dr ≠ dp → lr = pred (length h')) ∧
    ∀ k,
      match dn !! k with
      | None =>
          dr !! k = match dp !! k with
                    | Some x => if isNil x then None else Some x
                    | None => None
                    end
      | Some y =>
          ∃ x h1 h2,
            grows h h1 ∧ grows h2 h' ∧
            fn (prop h (VRef lp) k) y h1 = Ok (x, h2) ∧
            dr !! k = if isNil x then None else Some x
      end.
Proof.
  intros Hfn Hp Hn Hpp Hpn Hrun. unfold patchDictBy in Hrun.
  unfold bind at 1, reads at 1 in Hrun. unfold bind at 1, reads at 1 in Hrun.
  unfold bind at 1, reads at 1 in Hrun.
  destruct (foldM (putKeyBy (VRef lp) (VRef ln) fn) (getKeys h (VRef ln))
              (foldl (keepKey h (VRef lp) (VRef ln)) blank (getKeys h (VRef lp))) h)
    as [[out h1]| | |] eqn:Hfold;
    [| by rewrite (bind_Throw _ _ _ _ Hfold) in Hrun
     | by rewrite (bind_Exhausted _ _ _ Hfold) in Hrun
     | by rewrite (bind_Escapes _ _ _ Hfold) in Hrun].
  rewrite (bind_Ok _ _ _ _ _ Hfold) in Hrun.
  assert (Hnd : NoDup (getKeys h (VRef ln))).
  { rewrite (getKeys_dict h ln dn Hn). apply NoDup_fst_map_to_list. }
  assert (Hkn : "__proto__" ∉ getKeys h (VRef ln)).
  { rewrite (getKeys_dict h ln dn Hn), elem_of_keys, Hpn. by intros [??]. }
  assert (Hkp : "__proto__" ∉ getKeys h (VRef lp)).
  { rewrite (getKeys_dict h lp dp Hp), elem_of_keys, Hpp. by intros [??]. }
  destruct (foldM_putKeyBy_lookup fn _ _ Hfn _ _ _ _ _ Hnd Hkn Hfold)
    as (Hg & Hpar & Hk).
  rewrite (proj1 (keepKey_fold_whole h _ _ _ _ Hkp whole_blank)) in Hpar.
  rewrite (whole_eta out Hpar) in Hrun.
  rewrite (settle_dict h1 lp dp (props out) (grows_lookup _ _ _ _ Hg Hp)) in Hrun.
  injection Hrun as <- <-.
  assert (Htidy : tidyDraft out).
  { eapply (sound_foldM _ tidyDraft _ _
              (λ b x Hb, sound_putKeyBy _ Hfn _ _ b x Hb)); [| done].
    apply tidyDraft_keepKey, tidyDraft_blank. }
  assert (Hg' : grows h (h1 ++ [ODict (props out)])).
  { eapply grows_trans; [done |]. by apply grows_alloc. }
  assert (Hcontents : ∀ k,
    match dn !! k with
    | None =>
        props out !! k = match dp !! k with
                         | Some x => if isNil x then None else Some x
                         | None => None
                         end
    | Some y =>
        ∃ x ha hb,
          grows h ha ∧ grows hb (h1 ++ [ODict (props out)]) ∧
          fn (prop h (VRef lp) k) y ha = Ok (x, hb) ∧
          props out !! k = if isNil x then None else Some x
    end).
  { intros k. destruct (Hk k) as [Hout Hin].
    pose proof (keepKey_dict_lookup h lp dp (VRef ln) k Hp Hpp) as Hkeep.
    rewrite (has_dict h ln dn k Hn) in Hkeep.
    destruct (dn !! k) as [y|] eqn:Hy.
    - destruct Hin as (x & ha & hb & Hga & Hgb & Hx & Hval).
      { rewrite (getKeys_dict h ln dn Hn). apply elem_of_keys. eauto. }
      exists x, ha, hb. split; [done |].
      split; [eapply grows_trans; [done |]; by apply grows_alloc |].
      rewrite (grows_prop h ha lp k Hga (lookup_lt_Some _ _ _ Hp)) in Hx.
      rewrite (grows_prop h ha ln k Hga (lookup_lt_Some _ _ _ Hn)) in Hx.
      rewrite (prop_own h ln dn k y Hn Hy) in Hx.
      split; [done |]. rewrite Hval, Hkeep.
      rewrite bool_decide_eq_true_2 by eauto.
      destruct (isNil x); [| done].
      destruct (dp !! k) as [z|]; [| done]. by rewrite andb_false_r.
    - rewrite Hout.
      2: { rewrite (getKeys_dict h ln dn Hn), elem_of_keys, Hy. by intros [??]. }
      rewrite Hkeep. rewrite bool_decide_eq_false_2 by (by intros [??]).
      destruct (dp !! k) as [z|]; [| done]. by destruct (isNil z). }
  case_bool_decide as Heq.
  - exists lp, (props out). rewrite <- Heq in *. split; [done |]. split; [done |].
    split; [by apply (grows_lookup _ _ _ _ Hg') |].
    split; [done |]. split; [done |]. exact Hcontents.
  - exists (length h1), (props out). split; [done |]. split; [done |].
    split; [apply lookup_fresh |].
    split; [by intros <- |]. split; [intros _; by rewrite last_length |].
    exact Hcontents.
Qed.

Lemma patchTwoDicts_distinct fuel h lp ln dp dn :
  h !! lp = Some (ODict dp) → h !! ln = Some (ODict dn) → lp ≠ ln →
  patch fuel [VRef lp; VRef ln] h =
    patchDictBy (VRef lp) (VRef ln) (putAny fuel) h.
Proof.
  intros Hp Hn Hne. unfold patch. cbn [length]. rewrite decide_False by lia.
  unfold patchTwoDicts, arg. cbn [lookup list_lookup default].
  assert (Hdp : isDict h (VRef lp) = true) by (apply isDict_ref; eauto).
  assert (Hdn : isDict h (VRef ln) = true) by (apply isDict_ref; eauto).
  rewrite (bind_Ok _ _ _ _ _ (alwaysDict_dict h _ Hdp)).
  rewrite (bind_Ok _ _ _ _ _ (alwaysDict_dict h _ Hdn)).
  assert (is_ (VRef lp) (VRef ln) = false) as -> by (apply is_false; congruence).
  done.
Qed.

Lemma patchDictBy_putAny_total fuel h lp ln dn :
  Forall plainObj h → ordered h → h !! ln = Some (ODict dn) →
  (length h ≤ fuel)%nat →
  ∃ r h', patchDictBy (VRef lp) (VRef ln) (putAny fuel) h = Ok (r, h').
Proof.
  intros Hpl Ho Hn Hf.
  assert (Ht : total_from h (patchDictBy (VRef lp) (VRef ln) (putAny fuel))
                 (λ _, True)).
  { apply total_patchDictBy. intros ext key Hkey ext'.
    apply putAny_total; [done |].
    rewrite (getKeys_grow h ext ln (lookup_lt_Some _ _ _ Hn)),
      (getKeys_dict h ln dn Hn) in Hkey. apply elem_of_keys in Hkey.
    apply (within_prop h ext' fuel ln dn key Ho Hn); [| done].
    apply lookup_lt_Some in Hn. lia. }
  destruct (Ht []) as (r & ext' & Hrun & _); [by rewrite app_nil_r |].
  rewrite app_nil_r in Hrun. eauto.
Qed.

Lemma plain_lookup h l d :
  Forall plainObj h → h !! l = Some (ODict d) → d !! "__proto__" = None.
Proof.
  intros Hpl Hl. rewrite Forall_forall in Hpl.
  apply (Hpl (ODict d)). by eapply list_elem_of_lookup_2.
Qed.

Lemma putAny_primitive fuel h cur x :
  isPrimitive h x = true → putAny fuel cur x h = Ok (x, h).
Proof.
  intros Hp. destruct (is_ cur x) eqn:Hi.
  - rewrite (putAny_same fuel cur x h Hi). apply is_spec in Hi. by subst.
  - apply putAny_atomic; [done | |].
    + assert (isArray h x = false) as ->; [| by rewrite andb_false_r].
      destruct (isArray h x) eqn:Ha; [| done].
      apply isArray_ref in Ha as (l & xs & -> & _).
      by rewrite isPrimitive_not_ref in Hp.
    + assert (isDict h x = false) as ->; [| by rewrite andb_false_r].
      destruct (isDict h x) eqn:Hd; [| done].
      apply isDict_ref in Hd as (l & xs & -> & _).
      by rewrite isPrimitive_not_ref in Hp.
Qed.

(** One turn of the loop of [patchDictBy] with [putAny], at a key under
    which [next] owns a primitive. *)
Lemma putKeyBy_primitive fuel h prev l d out key y :
  h !! l = Some (ODict d) → d !! key = Some y → isPrimitive h y = true →
  putKeyBy prev (VRef l) (putAny fuel) out key h =
    Ok (if isNil y then out else write out key y, h).
Proof.
  intros Hl Hy Hp. unfold putKeyBy, bind.
  rewrite (prop_own h l d key y Hl Hy).
  by rewrite (putAny_primitive fuel h _ y Hp).
Qed.

(** C3, as the code has it.  Let [prev] and [next] be two Dicts that are not
    the same reference, in a store without cycles in which no Dict owns a
    property named ["__proto__"], with fuel for the depth of the store.  Then
    [patch(prev, next)] returns a Dict in which a key that [next] lacks
    holds what [prev] holds under it, unchanged, and a key of [next] holds
    the result of [putAny(prev[key], next[key])]; a nullish value is left out
    in both cases.  The Dict returned is [prev] itself when that is exactly
    what [prev] holds, and a new Dict, the last object of the store,
    otherwise.  When [prev] and [next] are the same reference, [patch]
    returns it as it is.  In particular [patch({a: 1, b: 2}, {b: 3, c: 4})]
    is [{a: 1, b: 3, c: 4}]. *)
Theorem patch_contents (fuel : nat) :
  (∀ h lp ln dp dn,
     h !! lp = Some (ODict dp) → h !! ln = Some (ODict dn) → lp ≠ ln →
     Forall plainObj h → ordered h → (length h ≤ fuel)%nat →
     ∃ lr h' dr,
       patch fuel [VRef lp; VRef ln] h = Ok (VRef lr, h') ∧
       grows h h' ∧ h' !! lr = Some (ODict dr) ∧
       (dr = dp → lr = lp) ∧ (dr ≠ dp → lr = pred (length h')) ∧
       ∀ k,
         match dn !! k with
         | None =>
             dr !! k = match dp !! k with
                       | Some x => if isNil x then None else Some x
                       | None => None
                       end
         | Some y =>
             ∃ x h1 h2,
               grows h h1 ∧ grows h2 h' ∧
               putAny fuel (prop h (VRef lp) k) y h1 = Ok (x, h2) ∧
               dr !! k = if isNil x then None else Some x
         end) ∧
  (∀ h lp dp,
     h !! lp = Some (ODict dp) →
     patch fuel [VRef lp; VRef lp] h = Ok (VRef lp, h)) ∧
  patch fuel [VRef 0; VRef 1] patchStore =
    Ok (VRef 2,
        patchStore ++
        [ODict (<["a":=VNum (NInt 1)]>
                  (<["b":=VNum (NInt 3)]> {[ "c" := VNum (NInt 4) ]}))]).
Proof.
  split; [| split].
  - intros h lp ln dp dn Hp Hn Hne Hpl Ho Hf.
    rewrite (patchTwoDicts_distinct fuel h lp ln dp dn Hp Hn Hne).
    destruct (patchDictBy_putAny_total fuel h lp ln dn Hpl Ho Hn Hf)
      as (r & h' & Hrun).
    destruct (patchDictBy_contents (putAny fuel) h lp ln dp dn r h'
                (sound_putAny fuel) Hp Hn (plain_lookup h lp dp Hpl Hp)
                (plain_lookup h ln dn Hpl Hn) Hrun)
      as (lr & dr & -> & Hg & Hlr & Hsame & Hnew & Hk).
    exists lr, h', dr. by rewrite Hrun.
  - intros h lp dp Hp. unfold patch. cbn [length]. rewrite decide_False by lia.
    unfold patchTwoDicts, arg. cbn [lookup list_lookup default].
    assert (Hdp : isDict h (VRef lp) = true) by (apply isDict_ref; eauto).
    rewrite !(bind_Ok _ _ _ _ _ (alwaysDict_dict h _ Hdp)).
    by rewrite is_refl.
  - rewrite (patchTwoDicts_distinct fuel patchStore 0 1 _ _ eq_refl eq_refl)
      by done.
    unfold patchDictBy, bind at 1, reads at 1.
    unfold bind at 1, reads at 1. unfold bind at 1, reads at 1.
    assert (getKeys patchStore (VRef 1) = ["c"; "b"]) as -> by reflexivity.
    assert (foldl (keepKey patchStore (VRef 0) (VRef 1)) blank
              (getKeys patchStore (VRef 0)) =
            Draft {[ "a" := VNum (NInt 1) ]} None) as -> by reflexivity.
    cbn [foldM].
    unfold bind at 1.
    rewrite (bind_Ok _ _ _ _ _
               (putKeyBy_primitive fuel patchStore (VRef 0) 1 _ _ "c"
                  (VNum (NInt 4)) eq_refl eq_refl eq_refl)).
    rewrite (bind_Ok _ _ _ _ _
               (putKeyBy_primitive fuel patchStore (VRef 0) 1 _ _ "b"
                  (VNum (NInt 3)) eq_refl eq_refl eq_refl)).
    reflexivity.
Qed.

End Patched.

Lemma patch_contents_witness :
  ∃ lr h' dr,
    patch (H := quietHost) 2 [VRef 0; VRef 1] patchStore = Ok (VRef lr, h') ∧
    grows patchStore h' ∧ h' !! lr = Some (ODict dr).
Proof.
  destruct (patch_contents (H := quietHost) 2) as (Hgen & _).
  destruct (Hgen patchStore 0%nat 1%nat
              (<["a":=VNum (NInt 1)]> {[ "b" := VNum (NInt 2) ]})
              (<["b":=VNum (NInt 3)]> {[ "c" := VNum (NInt 4) ]}))
    as (lr & h' & dr & Hrun & Hg & Hlr & _);
    [reflexivity | reflexivity | lia
    | repeat constructor | apply ordered_check; reflexivity
    | simpl; lia |].
  exists lr, h', dr. split; [exact Hrun |]. split; [exact Hg | exact Hlr].
Defined.

(** C3, as the spec words it, fails twice.  When [prev] and [next] are one
    and the same Dict holding a nullish value: for [v = {a: null}],
    [patch(v, v)] is [v], which holds [a], although [putAny(v.a, v.a)] is
    [null] and a nullish result is to be left out.  And when [next] owns a
    property named ["__proto__"]: [patch({}, next)] for the [next] that owns
    ["__proto__"] with the value 1 is a Dict without that key, although
    [putAny(undefined, 1)] is 1. *)
Lemma patch_same_reference_keeps_nullish :
  patch (H := quietHost) 0 [VRef 0; VRef 0] [ODict {[ "a" := VNull ]}] =
    Ok (VRef 0, [ODict {[ "a" := VNull ]}]) ∧
  entries [ODict {[ "a" := VNull ]}] (VRef 0) !! "a" = Some VNull ∧
  putAny (H := quietHost) 0
    (prop (H := quietHost) [ODict {[ "a" := VNull ]}] (VRef 0) "a")
    (prop (H := quietHost) [ODict {[ "a" := VNull ]}] (VRef 0) "a")
    [ODict {[ "a" := VNull ]}] =
    Ok (VNull, [ODict {[ "a" := VNull ]}]) ∧
  isNil VNull = true ∧
  patch (H := quietHost) 0 [VRef 0; VRef 1]
    [ODict ∅; ODict {[ "__proto__" := VNum (NInt 1) ]}] =
    Ok (VRef 0, [ODict ∅; ODict {[ "__proto__" := VNum (NInt 1) ]}; ODict ∅]) ∧
  putAny (H := quietHost) 0 VUndef (VNum (NInt 1))
    [ODict ∅; ODict {[ "__proto__" := VNum (NInt 1) ]}] =
    Ok (VNum (NInt 1), [ODict ∅; ODict {[ "__proto__" := VNum (NInt 1) ]}]).
Proof. repeat split; reflexivity. Qed.

(** ** Merge depth and patch shallowness *)

Section Merged.
Context `{Host}.


Lemma putAny_dicts_unfold fuel h prev next :
  is_ prev next = false → isDict h prev = true → isDict h next = true →
  putAny (S fuel) prev next h = replaceDictBy prev next (putAny fuel) h.
Proof.
  intros Hi Hp Hn. cbn [putAny].
  by rewrite Hi, (isDict_not_array h prev Hp), Hp, Hn.
Qed.






End Merged.



(** * Further properties *)

(** ** Deep equality *)

Section Symmetry.
Context `{Host}.

Lemma deep_everyByFrom_total {A} (fn : A → nat → bool) i (l : list A) :
  Deep.everyByFrom (λ x j, Some (fn x j)) i l = Some (everyByFrom fn i l).
Proof.
  revert i. induction l as [|x t IH]; intros i; [done |].
  cbn [Deep.everyByFrom everyByFrom]. destruct (fn x i); [apply IH | done].
Qed.

(** With a comparator that always returns, [Deep.equalBy] is [equalBy]. *)
Lemma deep_equalBy_total h one other (fn : val → val → bool) :
  Deep.equalBy h one other (λ a b, Some (fn a b)) = Some (equalBy h one other fn).
Proof.
  unfold Deep.equalBy, equalBy. destruct (is_ one other); [done |].
  cbn [orb]. destruct (isArray h one).
  - destruct (isArray h other); [| done]. cbn [Deep.andThen andb].
    unfold Deep.everyListPairBy, everyListPairBy, Deep.everyBy, everyBy.
    destruct (bool_decide (len h one = len h other)); [| done].
    cbn [Deep.andThen andb]. apply deep_everyByFrom_total.
  - destruct (isDict h one); [| done].
    destruct (isDict h other); [| done]. cbn [Deep.andThen andb].
    unfold Deep.everyDictPairBy, everyDictPairBy, Deep.sameKeys, Deep.everyBy, everyBy.
    destruct (bool_decide _ && everyByFrom _ 0 (getKeys h one)); [| done].
    cbn [Deep.andThen andb].
    apply (deep_everyByFrom_total
             (λ key _, fn (prop h one key) (prop h other key))).
Qed.

Lemma equal_unfold fuel h one other :
  equal fuel h one other = Deep.equalBy h other one (comparator fuel h).
Proof. by destruct fuel. Qed.

Lemma deep_everyByFrom_true {A} (fn : A → nat → option bool) i (l : list A) :
  Deep.everyByFrom fn i l = Some true ↔
  ∀ j x, l !! j = Some x → fn x (i + j)%nat = Some true.
Proof.
  revert i. induction l as [|x t IH]; intros i; cbn [Deep.everyByFrom].
  - split; [by intros _ j y ? | done].
  - split.
    + intros Hrun [|j] y Hy.
      * injection Hy as <-. rewrite Nat.add_0_r.
        by destruct (fn x i) as [[]|].
      * destruct (fn x i) as [[]|]; try done.
        replace (i + S j)%nat with (S i + j)%nat by lia.
        by apply (proj1 (IH (S i)) Hrun).
    + intros Hall. pose proof (Hall 0%nat x eq_refl) as H0.
      rewrite Nat.add_0_r in H0. rewrite H0. apply IH. intros j y Hy.
      replace (S i + j)%nat with (i + S j)%nat by lia. by apply Hall.
Qed.

Lemma sameKeys_dicts h l1 l2 d1 d2 :
  h !! l1 = Some (ODict d1) → h !! l2 = Some (ODict d2) →
  Deep.sameKeys h (VRef l1) (VRef l2) = true ↔ dom d1 = dom d2.
Proof.
  intros H1 H2. unfold Deep.sameKeys, everyBy.
  rewrite andb_true_iff, bool_decide_eq_true.
  rewrite (everyByFrom_Forall (λ key, has h (VRef l2) key)), Forall_forall.
  rewrite (getKeys_dict h l1 d1 H1), (getKeys_dict h l2 d2 H2).
  rewrite !length_fmap, !length_map_to_list.
  split.
  - intros [Hsize Hhas]. apply set_subseteq_size_eq.
    + intros k Hk. apply elem_of_dom. apply elem_of_dom, elem_of_keys in Hk.
      specialize (Hhas k Hk). rewrite (has_dict h l2 d2 k H2) in Hhas.
      by apply bool_decide_eq_true in Hhas.
    + rewrite !size_dom. lia.
  - intros Hdom. split.
    + by rewrite <- !(size_dom (D := gset string)), Hdom.
    + intros k Hk. rewrite (has_dict h l2 d2 k H2).
      apply bool_decide_eq_true, elem_of_dom. rewrite <- Hdom.
      by apply elem_of_dom, elem_of_keys.
Qed.

(** When [equal] answers true on two Lists that are not the same
    reference. *)
Lemma equal_true_lists fuel h la lb xs ys :
  h !! la = Some (OList xs) → h !! lb = Some (OList ys) → la ≠ lb →
  equal fuel h (VRef la) (VRef lb) = Some true ↔
  length xs = length ys ∧
  ∀ i x y, xs !! i = Some x → ys !! i = Some y →
    comparator fuel h y x = Some true.
Proof.
  intros Ha Hb Hne. rewrite equal_unfold. unfold Deep.equalBy.
  assert (is_ (VRef lb) (VRef la) = false) as -> by (apply is_false; congruence).
  assert (isArray h (VRef la) = true) as -> by (apply isArray_ref; eauto).
  assert (isArray h (VRef lb) = true) as -> by (apply isArray_ref; eauto).
  cbn [Deep.andThen]. unfold Deep.everyListPairBy, len, at_, elems.
  rewrite Ha, Hb. case_bool_decide as Hlen; cbn [Deep.andThen].
  - unfold Deep.everyBy. rewrite deep_everyByFrom_true. split.
    + intros Hall. split; [done |]. intros i x y Hx Hy.
      specialize (Hall i y Hy). cbn [Nat.add] in Hall. by rewrite Hx in Hall.
    + intros [_ Hall] i y Hy. cbn [Nat.add].
      destruct (xs !! i) as [x|] eqn:Hx.
      * by apply (Hall i x y).
      * apply lookup_ge_None in Hx. apply lookup_lt_Some in Hy. lia.
  - split; [done |]. by intros [? _].
Qed.

(** When [equal] answers true on two Dicts that are not the same
    reference. *)
Lemma equal_true_dicts fuel h la lb da db :
  h !! la = Some (ODict da) → h !! lb = Some (ODict db) → la ≠ lb →
  equal fuel h (VRef la) (VRef lb) = Some true ↔
  dom da = dom db ∧
  ∀ k x y, da !! k = Some x → db !! k = Some y →
    comparator fuel h y x = Some true.
Proof.
  intros Ha Hb Hne. rewrite equal_unfold. unfold Deep.equalBy.
  assert (is_ (VRef lb) (VRef la) = false) as -> by (apply is_false; congruence).
  assert (Hda : isDict h (VRef la) = true) by (apply isDict_ref; eauto).
  assert (Hdb : isDict h (VRef lb) = true) by (apply isDict_ref; eauto).
  rewrite (isDict_not_array h _ Hdb), Hda, Hdb.
  cbn [Deep.andThen]. unfold Deep.everyDictPairBy.
  destruct (Deep.sameKeys h (VRef lb) (VRef la)) eqn:Hkeys; cbn [Deep.andThen].
  - apply (sameKeys_dicts h lb la db da Hb Ha) in Hkeys.
    unfold Deep.everyBy. rewrite deep_everyByFrom_true.
    rewrite (getKeys_dict h lb db Hb). split.
    + intros Hall. split; [done |]. intros k x y Hx Hy.
      assert (Hin : k ∈ (map_to_list db).*1) by (apply elem_of_keys; eauto).
      apply list_elem_of_lookup in Hin as [j Hj].
      specialize (Hall j k Hj).
      by rewrite (prop_own h lb db k y Hb Hy), (prop_own h la da k x Ha Hx) in Hall.
    + intros [_ Hall] j k Hj.
      assert (Hin : is_Some (db !! k)).
      { apply elem_of_keys. by eapply list_elem_of_lookup_2. }
      destruct Hin as [y Hy].
      assert (Hina : is_Some (da !! k)).
      { apply elem_of_dom. rewrite <- Hkeys. apply elem_of_dom. eauto. }
      destruct Hina as [x Hx].
      rewrite (prop_own h lb db k y Hb Hy), (prop_own h la da k x Ha Hx).
      by apply (Hall k x y).
  - split; [done |]. intros [Hdom _].
    assert (Deep.sameKeys h (VRef lb) (VRef la) = true); [| congruence].
    by apply (sameKeys_dicts h lb la db da Hb Ha).
Qed.

(** Unless the two values are identical, [equal] answers false at once when
    they are not both Lists and not both Dicts. *)
Lemma equal_mismatch fuel h one other :
  is_ one other = false →
  isArray h one && isArray h other = false →
  isDict h one && isDict h other = false →
  equal fuel h one other = Some false.
Proof.
  intros Hi Ha Hd. rewrite equal_unfold. unfold Deep.equalBy.
  assert (is_ other one = false) as ->.
  { apply is_false. apply is_false in Hi. congruence. }
  destruct (isArray h other) eqn:Hao.
  - destruct (isArray h one); [by rewrite andb_true_l in Ha | done].
  - destruct (isDict h other) eqn:Hdo; [| done].
    destruct (isDict h one); [by rewrite andb_true_l in Hd | done].
Qed.

Lemma equal_true_inv fuel h a b :
  equal fuel h a b = Some true →
  a = b ∨
  (∃ la lb xs ys,
     a = VRef la ∧ b = VRef lb ∧ la ≠ lb ∧
     h !! la = Some (OList xs) ∧ h !! lb = Some (OList ys)) ∨
  (∃ la lb da db,
     a = VRef la ∧ b = VRef lb ∧ la ≠ lb ∧
     h !! la = Some (ODict da) ∧ h !! lb = Some (ODict db)).
Proof.
  intros Heq. destruct (is_ a b) eqn:Hi; [left; by apply is_spec |]. right.
  destruct (isArray h a && isArray h b) eqn:Ha.
  - left. apply andb_true_iff in Ha as [Ha Hb].
    apply isArray_ref in Ha as (la & xs & -> & Hla).
    apply isArray_ref in Hb as (lb & ys & -> & Hlb).
    exists la, lb, xs, ys. repeat split; try done.
    apply is_false in Hi. congruence.
  - destruct (isDict h a && isDict h b) eqn:Hd.
    + right. apply andb_true_iff in Hd as [Hda Hdb].
      apply isDict_ref in Hda as (la & da & -> & Hla).
      apply isDict_ref in Hdb as (lb & db & -> & Hlb).
      exists la, lb, da, db. repeat split; try done.
      apply is_false in Hi. congruence.
    + rewrite (equal_mismatch fuel h a b Hi Ha Hd) in Heq. done.
Qed.

Lemma equal_same fuel h a : equal fuel h a a = Some true.
Proof. rewrite equal_unfold. unfold Deep.equalBy. by rewrite is_refl. Qed.

Lemma equal_true_sym fuel h a b :
  equal fuel h a b = Some true → equal fuel h b a = Some true.
Proof.
  revert a b. induction fuel as [|fuel IH]; intros a b Heq;
    destruct (equal_true_inv _ h a b Heq)
      as [-> | [(la & lb & xs & ys & -> & -> & Hne & Hla & Hlb)
               | (la & lb & da & db & -> & -> & Hne & Hla & Hlb)]];
    try apply equal_same.
  - destruct (proj1 (equal_true_lists 0 h la lb xs ys Hla Hlb Hne) Heq)
      as [Hlen Hall].
    apply (equal_true_lists 0 h lb la ys xs Hlb Hla); [congruence |].
    split; [done |]. intros i y x Hy Hx. by specialize (Hall i x y Hx Hy).
  - destruct (proj1 (equal_true_dicts 0 h la lb da db Hla Hlb Hne) Heq)
      as [Hdom Hall].
    apply (equal_true_dicts 0 h lb la db da Hlb Hla); [congruence |].
    split; [done |]. intros k y x Hy Hx. by specialize (Hall k x y Hx Hy).
  - destruct (proj1 (equal_true_lists (S fuel) h la lb xs ys Hla Hlb Hne) Heq)
      as [Hlen Hall].
    apply (equal_true_lists (S fuel) h lb la ys xs Hlb Hla); [congruence |].
    split; [done |]. intros i y x Hy Hx. apply IH. by apply (Hall i x y).
  - destruct (proj1 (equal_true_dicts (S fuel) h la lb da db Hla Hlb Hne) Heq)
      as [Hdom Hall].
    apply (equal_true_dicts (S fuel) h lb la db da Hlb Hla); [congruence |].
    split; [done |]. intros k y x Hy Hx. apply IH. by apply (Hall k x y).
Qed.

(** X1. [equal] answers true on [a] and [b] exactly when it answers true on
    [b] and [a], with the same fuel. *)
Theorem equal_symmetric (fuel : nat) (h : heap) (a b : val) :
  equal fuel h a b = Some true ↔ equal fuel h b a = Some true.
Proof. split; apply equal_true_sym. Qed.

End Symmetry.

Lemma equal_symmetric_witness :
  equal (H := quietHost) 1 [OList [VNum (NInt 1)]; OList [VNum (NInt 1)]] (VRef 1) (VRef 0) =
    Some true.
Proof.
  apply (proj1 (equal_symmetric (H := quietHost) 1 [OList [VNum (NInt 1)]; OList [VNum (NInt 1)]]
                  (VRef 0) (VRef 1))).
  reflexivity.
Defined.

Section Kinds.
Context `{Host}.

(** X2. Kinds do not mix in [equal]: a value equals itself (NaN too) whatever
    the fuel; two values that are not identical and not both Lists or both
    Dicts are unequal, so a List never equals a Dict and an opaque object
    equals only itself; Lists of different lengths and Dicts with different
    keys are unequal; none of this asks the comparator. *)
Theorem equal_kinds (fuel : nat) (h : heap) :
  (∀ a, equal fuel h a a = Some true) ∧
  (∀ a b,
     is_ a b = false →
     isArray h a && isArray h b = false →
     isDict h a && isDict h b = false →
     equal fuel h a b = Some false) ∧
  (∀ a b, isArray h a = true → isDict h b = true →
     equal fuel h a b = Some false ∧ equal fuel h b a = Some false) ∧
  (∀ la lb xs ys,
     h !! la = Some (OList xs) → h !! lb = Some (OList ys) →
     length xs ≠ length ys →
     equal fuel h (VRef la) (VRef lb) = Some false) ∧
  (∀ la lb da db,
     h !! la = Some (ODict da) → h !! lb = Some (ODict db) →
     dom da ≠ dom db →
     equal fuel h (VRef la) (VRef lb) = Some false).
Proof.
  split; [apply equal_same |]. split; [apply equal_mismatch |].
  split; [| split].
  - intros a b Ha Hb.
    assert (Hne : a ≠ b).
    { intros ->. apply isDict_not_array in Hb. congruence. }
    pose proof (isDict_not_array h b Hb) as Hba.
    assert (Hab : isDict h a = false).
    { destruct (isDict h a) eqn:Hd; [| done].
      apply isDict_not_array in Hd. congruence. }
    split; apply equal_mismatch;
      rewrite ?Ha, ?Hb, ?Hba, ?Hab, ?andb_false_r; try done;
      apply is_false; congruence.
  - intros la lb xs ys Hla Hlb Hlen. rewrite equal_unfold. unfold Deep.equalBy.
    assert (is_ (VRef lb) (VRef la) = false) as ->.
    { apply is_false. intros [= ->]. congruence. }
    assert (isArray h (VRef la) = true) as -> by (apply isArray_ref; eauto).
    assert (isArray h (VRef lb) = true) as -> by (apply isArray_ref; eauto).
    cbn [Deep.andThen]. unfold Deep.everyListPairBy, len, elems.
    rewrite Hla, Hlb. by rewrite bool_decide_eq_false_2 by congruence.
  - intros la lb da db Hla Hlb Hdom. rewrite equal_unfold. unfold Deep.equalBy.
    assert (is_ (VRef lb) (VRef la) = false) as ->.
    { apply is_false. intros [= ->]. congruence. }
    assert (Hda : isDict h (VRef la) = true) by (apply isDict_ref; eauto).
    assert (Hdb : isDict h (VRef lb) = true) by (apply isDict_ref; eauto).
    rewrite (isDict_not_array h _ Hdb), Hda, Hdb.
    cbn [Deep.andThen]. unfold Deep.everyDictPairBy.
    destruct (Deep.sameKeys h (VRef lb) (VRef la)) eqn:Hkeys; [| done].
    apply (sameKeys_dicts h lb la db da Hlb Hla) in Hkeys. congruence.
Qed.

End Kinds.

Lemma equal_kinds_witness :
  equal (H := quietHost) 0 [OList [VNum (NInt 1); VNum (NInt 2)];
           ODict (<["0":=VNum (NInt 1)]> {[ "1" := VNum (NInt 2) ]})]
    (VRef 0) (VRef 1) = Some false.
Proof.
  destruct (equal_kinds (H := quietHost) 0
              [OList [VNum (NInt 1); VNum (NInt 2)];
               ODict (<["0":=VNum (NInt 1)]> {[ "1" := VNum (NInt 2) ]})])
    as (_ & _ & Hmix & _).
  destruct (Hmix (VRef 0) (VRef 1)) as [Hab _]; [reflexivity .. |].
  exact Hab.
Defined.

(** ** Deep equality and reference preservation *)

Lemma returns_ret {A} h0 (a : A) : returns_from h0 (ret a) a.
Proof. intros ext. exists []. by rewrite app_nil_r. Qed.

Lemma returns_bind {A B} h0 (c : M A) (k : A → M B) a b :
  returns_from h0 c a → returns_from h0 (k a) b → returns_from h0 (bind c k) b.
Proof.
  intros Hc Hk ext. destruct (Hc ext) as (e1 & Ha).
  destruct (Hk (ext ++ e1)) as (e2 & Hb).
  exists (e1 ++ e2). rewrite (bind_Ok _ _ _ _ _ Ha).
  rewrite <- (app_assoc h0 ext e1), Hb. by rewrite !app_assoc.
Qed.

Lemma returns_mapM {A B} h0 (f : A → M B) (g : A → B) (l : list A) :
  (∀ x, x ∈ l → returns_from h0 (f x) (g x)) →
  returns_from h0 (mapM f l) (g <$> l).
Proof.
  induction l as [|x t IH]; intros Hf; cbn [mapM fmap list_fmap];
    [apply returns_ret |].
  eapply returns_bind; [apply Hf, list_elem_of_here |].
  eapply returns_bind; [| apply returns_ret].
  apply IH. intros z Hz. by apply Hf, list_elem_of_further.
Qed.

Lemma returns_foldM {A B} h0 (f : B → A → M B) (g : B → A → B) (l : list A) b :
  (∀ b x, x ∈ l → returns_from h0 (f b x) (g b x)) →
  returns_from h0 (foldM f l b) (foldl g b l).
Proof.
  revert b. induction l as [|x t IH]; intros b Hf; cbn [foldM foldl];
    [apply returns_ret |].
  eapply returns_bind; [apply Hf, list_elem_of_here |].
  apply IH. intros b' z Hz. by apply Hf, list_elem_of_further.
Qed.

Lemma tidy_lookup h l d :
  Forall tidyObj h → h !! l = Some (ODict d) →
  cleanMap d ∧ d !! "__proto__" = None.
Proof.
  intros Ht Hl. rewrite Forall_forall in Ht.
  apply (Ht (ODict d)). by eapply list_elem_of_lookup_2.
Qed.

Section KeepsReference.
Context `{Host}.

Lemma putAny_equal_step n h fuel :
  Forall tidyObj h →
  (∀ x y, comparator n h y x = Some true →
     returns_from h (putAny fuel x y) x) →
  ∀ prev next,
    equal n h prev next = Some true →
    returns_from h (putAny (S fuel) prev next) prev.
Proof.
  intros Htidy Hchild prev next Heq.
  destruct (equal_true_inv _ h prev next Heq)
    as [-> | [(la & lb & xs & ys & -> & -> & Hne & Hla & Hlb)
             | (la & lb & da & db & -> & -> & Hne & Hla & Hlb)]].
  { intros ext. exists []. rewrite app_nil_r. apply putAny_same, is_refl. }
  all: intros ext.
  all: assert (Hi : is_ (VRef la) (VRef lb) = false)
    by (apply is_false; congruence).
  - destruct (proj1 (equal_true_lists _ h la lb xs ys Hla Hlb Hne) Heq)
      as [Hlen Hall].
    cbn [putAny]. rewrite Hi.
    assert (isArray (h ++ ext) (VRef la) = true) as ->
      by (apply isArray_ref; eauto using lookup_grow).
    assert (isArray (h ++ ext) (VRef lb) = true) as ->
      by (apply isArray_ref; eauto using lookup_grow).
    assert (Hr : returns_from h (replaceListBy (VRef la) (VRef lb) (putAny fuel))
                   (VRef la)); [| apply Hr].
    clear ext. intros ext. unfold replaceListBy, bind at 1, reads at 1.
    assert (Hn : len (h ++ ext) (VRef lb) = length xs).
    { unfold len. rewrite (elems_grow h ext lb (lookup_lt_Some _ _ _ Hlb)).
      unfold elems. by rewrite Hlb. }
    rewrite Hn.
    assert (Hm : returns_from h
              (mapM (λ i h', putAny fuel (at_ h' (VRef la) i) (at_ h' (VRef lb) i) h')
                 (seq 0 (length xs)))
              ((λ i, at_ h (VRef la) i) <$> seq 0 (length xs))).
    { apply returns_mapM. intros i Hi' ext1.
      apply elem_of_seq in Hi' as [_ Hi'].
      unfold at_. rewrite (elems_grow h ext1 la (lookup_lt_Some _ _ _ Hla)).
      rewrite (elems_grow h ext1 lb (lookup_lt_Some _ _ _ Hlb)).
      unfold elems. rewrite Hla, Hlb.
      destruct (xs !! i) as [x|] eqn:Hx;
        [| apply lookup_ge_None in Hx; simpl in Hi'; lia].
      destruct (ys !! i) as [y|] eqn:Hy;
        [| apply lookup_ge_None in Hy; simpl in Hi'; lia].
      apply (Hchild x y). by apply (Hall i x y). }
    destruct (Hm ext) as (e1 & Hrun). rewrite (bind_Ok _ _ _ _ _ Hrun).
    assert (Hout : (λ i, at_ h (VRef la) i) <$> seq 0 (length xs) = xs).
    { apply list_eq. intros i. rewrite list_lookup_fmap.
      destruct (xs !! i) as [x|] eqn:Hx.
      - rewrite (proj2 (lookup_seq 0 (length xs) i i));
          [| split; [done | by eapply lookup_lt_Some]].
        cbn. unfold at_, elems. by rewrite Hla, Hx.
      - rewrite (proj2 (lookup_ge_None (seq 0 (length xs)) i)); [done |].
        rewrite length_seq. by apply lookup_ge_None. }
    rewrite Hout.
    rewrite (settle_list _ la xs xs
               (lookup_grow _ e1 la _ (lookup_grow h ext la _ Hla))).
    rewrite bool_decide_eq_true_2 by done. by exists (e1 ++ [OList xs]);
      rewrite !app_assoc.
  - destruct (proj1 (equal_true_dicts _ h la lb da db Hla Hlb Hne) Heq)
      as [Hdom Hall].
    destruct (tidy_lookup h la da Htidy Hla) as [Hca Hpa].
    destruct (tidy_lookup h lb db Htidy Hlb) as [Hcb Hpb].
    cbn [putAny]. rewrite Hi.
    assert (Hda : isDict (h ++ ext) (VRef la) = true)
      by (apply isDict_ref; eauto using lookup_grow).
    assert (isDict (h ++ ext) (VRef lb) = true) as ->
      by (apply isDict_ref; eauto using lookup_grow).
    rewrite (isDict_not_array _ _ Hda), Hda.
    assert (Hr : returns_from h (replaceDictBy (VRef la) (VRef lb) (putAny fuel))
                   (VRef la)); [| apply Hr].
    clear ext Hda. intros ext. unfold replaceDictBy, bind at 1, reads at 1.
    rewrite (getKeys_grow h ext lb (lookup_lt_Some _ _ _ Hlb)).
    set (g := λ key : string, prop h (VRef la) key).
    assert (Hm : returns_from h
              (foldM (putKeyBy (VRef la) (VRef lb) (putAny fuel))
                 (getKeys h (VRef lb)) blank)
              (foldl (λ out key,
                        if negb (isNil (g key)) then write out key (g key) else out)
                 blank (getKeys h (VRef lb)))).
    { apply returns_foldM. intros out key Hkey.
      rewrite (getKeys_dict h lb db Hlb) in Hkey.
      apply elem_of_keys in Hkey as [y Hy].
      assert (Hx : is_Some (da !! key)).
      { apply elem_of_dom. rewrite Hdom. apply elem_of_dom. eauto. }
      destruct Hx as [x Hx].
      assert (Hg : g key = x) by (by apply (prop_own h la da key)).
      rewrite Hg.
      assert ((if negb (isNil x) then write out key x else out) =
              (if isNil x then out else write out key x)) as ->
        by (by destruct (isNil x)).
      unfold putKeyBy. eapply returns_bind; [| apply returns_ret].
      intros ext1.
      rewrite (prop_grow h ext1 la key (lookup_lt_Some _ _ _ Hla)).
      rewrite (prop_grow h ext1 lb key (lookup_lt_Some _ _ _ Hlb)).
      rewrite (prop_own h la da key x Hla Hx), (prop_own h lb db key y Hlb Hy).
      apply (Hchild x y). by apply (Hall key x y). }
    destruct (Hm ext) as (e1 & Hrun). rewrite (bind_Ok _ _ _ _ _ Hrun).
    assert (Hkeys : "__proto__" ∉ getKeys h (VRef lb)).
    { rewrite (getKeys_dict h lb db Hlb), elem_of_keys, Hpb. by intros [??]. }
    assert (Hw : whole (foldl (λ out key,
                          if negb (isNil (g key)) then write out key (g key) else out)
                          blank (getKeys h (VRef lb))))
      by (apply foldl_write_whole; [done | apply whole_blank]).
    rewrite (whole_eta _ (proj1 Hw)).
    assert (Hout : props (foldl (λ out key,
                            if negb (isNil (g key)) then write out key (g key)
                            else out)
                            blank (getKeys h (VRef lb))) = da).
    { apply map_eq. intros k.
      rewrite (foldl_write_lookup (λ key, negb (isNil (g key))) g) by done.
      cbn [props blank]. rewrite lookup_empty.
      rewrite (getKeys_dict h lb db Hlb). unfold g.
      destruct (da !! k) as [x|] eqn:Hx.
      - rewrite (prop_own h la da k x Hla Hx).
        rewrite bool_decide_eq_true_2.
        + by rewrite (Hca k x Hx).
        + apply elem_of_keys, elem_of_dom. rewrite <- Hdom.
          apply elem_of_dom. eauto.
      - rewrite bool_decide_eq_false_2; [done |].
        rewrite elem_of_keys. intros Hk. apply elem_of_dom in Hk.
        rewrite <- Hdom in Hk. apply elem_of_dom in Hk. rewrite Hx in Hk.
        by destruct Hk. }
    rewrite Hout.
    rewrite (settle_dict _ la da da
               (lookup_grow _ e1 la _ (lookup_grow h ext la _ Hla))).
    rewrite bool_decide_eq_true_2 by done. by exists (e1 ++ [ODict da]);
      rewrite !app_assoc.
Qed.

Lemma putAny_equal_returns_prev f h :
  Forall tidyObj h →
  ∀ fuel prev next,
    (f < fuel)%nat → equal f h prev next = Some true →
    returns_from h (putAny fuel prev next) prev.
Proof.
  intros Htidy. induction f as [|f IH]; intros fuel prev next Hf Heq;
    (destruct fuel as [|fuel]; [lia |]).
  - apply (putAny_equal_step 0 h fuel Htidy); [| done]. by intros x y Hc.
  - apply (putAny_equal_step (S f) h fuel Htidy); [| done].
    intros x y Hc. cbn [comparator] in Hc.
    apply IH; [lia | by apply equal_true_sym].
Qed.

(** X3. Deep equality preserves the reference.  In a store whose Dicts hold
    no null or undefined value and own no property named ["__proto__"], if
    [equal(prev, next)] is true then [putAny(prev, next)] returns [prev]
    itself, whatever the depth at which the two were found equal; only
    speculative copies are added to the store. *)
Theorem putAny_equal_keeps_reference (f fuel : nat) (h : heap) (prev next : val) :
  Forall tidyObj h →
  equal f h prev next = Some true →
  (f < fuel)%nat →
  ∃ h', putAny fuel prev next h = Ok (prev, h') ∧ grows h h'.
Proof.
  intros Htidy Heq Hf.
  destruct (putAny_equal_returns_prev f h Htidy fuel prev next Hf Heq [])
    as (ext & Hrun).
  rewrite app_nil_r in Hrun. exists (h ++ ext). split; [done |].
  by apply (sound_putAny _ _ _ _ _ _ Hrun).
Qed.

End KeepsReference.

Lemma putAny_equal_keeps_reference_witness :
  ∃ h',
    putAny (H := quietHost) 3 (VRef 2) (VRef 5)
      [OList [VNum (NInt 1); VNum NNaN]; ODict {[ "x" := VStr "s" ]};
       OList [VRef 0; VRef 1];
       OList [VNum (NInt 1); VNum NNaN]; ODict {[ "x" := VStr "s" ]};
       OList [VRef 3; VRef 4]] = Ok (VRef 2, h').
Proof.
  destruct (putAny_equal_keeps_reference (H := quietHost) 2 3
              [OList [VNum (NInt 1); VNum NNaN]; ODict {[ "x" := VStr "s" ]};
               OList [VRef 0; VRef 1];
               OList [VNum (NInt 1); VNum NNaN]; ODict {[ "x" := VStr "s" ]};
               OList [VRef 3; VRef 4]] (VRef 2) (VRef 5)) as (h' & Hrun & _).
  - repeat constructor;
      apply (cleanMap_insert ∅ "x" (VStr "s") cleanMap_empty eq_refl).
  - reflexivity.
  - lia.
  - exists h'. exact Hrun.
Defined.

(** ** Shallow equality *)

Section Shallow.
Context `{Host}.

(** X4. With [is] for comparator, [equalBy] is equality of the parts by
    identity: two Lists are equal exactly when they hold the same values in
    the same order, two Dicts exactly when they hold the same values under
    the same keys; a value that is not identical to another and not of its
    kind is not equal to it. *)
Theorem equalBy_is_shallow (h : heap) :
  (∀ l1 l2 xs ys,
     h !! l1 = Some (OList xs) → h !! l2 = Some (OList ys) →
     equalBy h (VRef l1) (VRef l2) is_ = true ↔ xs = ys) ∧
  (∀ l1 l2 d1 d2,
     h !! l1 = Some (ODict d1) → h !! l2 = Some (ODict d2) →
     equalBy h (VRef l1) (VRef l2) is_ = true ↔ d1 = d2) ∧
  (∀ a b,
     a ≠ b →
     isArray h a && isArray h b = false →
     isDict h a && isDict h b = false →
     equalBy h a b is_ = false).
Proof.
  split; [| split].
  - intros l1 l2 xs ys H1 H2.
    by rewrite (equalBy_list h l1 l2 xs ys H1 H2), bool_decide_eq_true.
  - intros l1 l2 d1 d2 H1 H2.
    by rewrite (equalBy_dict h l1 l2 d1 d2 H1 H2), bool_decide_eq_true.
  - intros a b Hne Ha Hd. unfold equalBy.
    rewrite (proj2 (is_false a b) Hne). cbn [orb].
    destruct (isArray h a); [by rewrite andb_true_l in Ha; rewrite Ha |].
    destruct (isDict h a); [by rewrite andb_true_l in Hd; rewrite Hd |].
    done.
Qed.

End Shallow.

Lemma equalBy_is_shallow_witness :
  equalBy (H := quietHost) [OList [VNum NNaN; VRef 0]; OList [VNum NNaN; VRef 0]]
    (VRef 0) (VRef 1) is_ = true.
Proof.
  destruct (equalBy_is_shallow (H := quietHost)
              [OList [VNum NNaN; VRef 0]; OList [VNum NNaN; VRef 0]])
    as (Hlists & _).
  apply (Hlists 0%nat 1%nat [VNum NNaN; VRef 0] [VNum NNaN; VRef 0]);
    reflexivity.
Defined.

(** ** Reading through a missing key *)

Section Missing.
Context `{Host}.

Lemma getFold_nil h v keys :
  isNil v = true → keys ≠ [] → getFold h v keys = Ok VUndef.
Proof.
  intros Hn Hk. destruct keys as [|key rest]; [done |]. clear Hk.
  cbn [getFold]. unfold get at 1. rewrite Hn. clear Hn v.
  induction rest as [|key' rest IH]; [done |].
  cbn [getFold]. unfold get at 1. by cbn [isNil].
Qed.

Lemma getFold_app h v ks1 ks2 r :
  getFold h v ks1 = Ok r → getFold h v (ks1 ++ ks2) = getFold h r ks2.
Proof.
  revert v. induction ks1 as [|key rest IH]; intros v Hr.
  - by injection Hr as <-.
  - cbn [getFold app] in *. destruct (get h v key) as [v'| | |]; try done.
    by apply IH.
Qed.

(** X5. Reading stops mattering at the first miss.  If a prefix of the path
    leads to null or undefined and the path goes on, [getIn] returns
    [undefined] and does not throw, whatever the remaining keys are, even
    objects that cannot be turned into property names; and [scan] on the
    keys of a List path is [getIn] on that path. *)
Theorem getIn_missing_absorbs (h : heap) (v path : val) (ks1 ks2 : list val) (r : val) :
  isArray h path = true → elems h path = ks1 ++ ks2 →
  getFold h v ks1 = Ok r → isNil r = true → ks2 ≠ [] →
  getIn v path h = Ok (VUndef, h) ∧
  scan v (elems h path) h = getIn v path h.
Proof.
  intros Ha Hel Hr Hn Hk.
  assert (Hrun : getIn v path h = liftO (getFold h v (elems h path)) h).
  { unfold getIn. by rewrite (bind_Ok _ _ h tt h (validate_Ok h _ IsArray Ha)). }
  split; [| by rewrite Hrun].
  rewrite Hrun, Hel, (getFold_app h v ks1 ks2 r Hr).
  by rewrite (getFold_nil h r ks2 Hn Hk).
Qed.

End Missing.

Lemma getIn_missing_absorbs_witness :
  getIn (H := quietHost) (VRef 0) (VRef 2)
    [ODict {[ "a" := VNum (NInt 1) ]}; ODict ∅;
     OList [VStr "b"; VRef 1; VStr "c"]] =
  Ok (VUndef,
      [ODict {[ "a" := VNum (NInt 1) ]}; ODict ∅;
       OList [VStr "b"; VRef 1; VStr "c"]]).
Proof.
  destruct (getIn_missing_absorbs (H := quietHost)
              [ODict {[ "a" := VNum (NInt 1) ]}; ODict ∅;
               OList [VStr "b"; VRef 1; VStr "c"]]
              (VRef 0) (VRef 2) [VStr "b"] [VRef 1; VStr "c"] VUndef)
    as [Hrun _]; [reflexivity .. | discriminate | exact Hrun].
Defined.

(** ** Writing then reading *)

Lemma isPrimitive_inv h v : isPrimitive h v = true → ∀ l, v ≠ VRef l.
Proof. intros Hp l ->. by rewrite isPrimitive_not_ref in Hp. Qed.

Lemma isPrimitive_any_store h h' v : isPrimitive h v = true → isPrimitive h' v = true.
Proof. intros Hp. destruct v; try done. by rewrite isPrimitive_not_ref in Hp. Qed.

Section WriteRead.
Context `{Host}.

(** What [assocAtKey] returns on a Dict that owns no property named
    ["__proto__"], for another key than that: a Dict that reads [value]
    under the key (and does not own the key, when [value] is nullish) and
    holds, under every other key, the non-nullish value the Dict held. *)
Lemma assocAtKey_dict h l d key value :
  h !! l = Some (ODict d) → d !! "__proto__" = None → toKey key ≠ "__proto__" →
  ∃ r h' d',
    assocAtKey (VRef l) key value h = Ok (VRef r, h') ∧
    grows h h' ∧ h' !! r = Some (ODict d') ∧ d' !! "__proto__" = None ∧
    (if isNil value then d' !! toKey key = None
     else prop h' (VRef r) (toKey key) = value) ∧
    (∀ k z, k ≠ toKey key → d !! k = Some z → isNil z = false → d' !! k = Some z) ∧
    (∀ k z, k ≠ toKey key → d' !! k = Some z → d !! k = Some z).
Proof.
  intros Hl Hp Hkey. unfold assocAtKey.
  destruct (if isNil value then negb (has h (VRef l) (toKey key))
            else is_ (prop h (VRef l) (toKey key)) value) eqn:Hsame.
  - exists l, h, d. split; [done |]. split; [apply grows_refl |].
    split; [done |]. split; [done |]. split; [| split; [by intros | by intros]].
    destruct (isNil value) eqn:Hn.
    + rewrite (has_dict h l d _ Hl) in Hsame.
      apply negb_true_iff, bool_decide_eq_false in Hsame.
      destruct (d !! toKey key) eqn:Hk; [| done]. destruct Hsame. eauto.
    + by apply is_spec in Hsame.
  - set (out := foldl (copyKey h (VRef l) (toKey key)) blank (getKeys h (VRef l))).
    assert (Hout : ∀ k, props out !! k =
              match d !! k with
              | Some x => if negb (bool_decide (k = toKey key)) && negb (isNil x)
                          then Some x else None
              | None => None
              end) by (intros k; apply (copyKey_dict_lookup h l d _ k Hl Hp)).
    assert (Hkeys : "__proto__" ∉ getKeys h (VRef l)).
    { rewrite (getKeys_dict h l d Hl), elem_of_keys, Hp. by intros [??]. }
    assert (Hw : whole out) by (by apply copyKey_fold_whole, whole_blank).
    assert (Htidy : tidyDraft out) by (apply tidyDraft_copyKey, tidyDraft_blank).
    assert (Hw' : whole (if isNil value then out else write out (toKey key) value)).
    { destruct (isNil value); [done | by apply whole_write]. }
    assert (Ht' : tidyDraft (if isNil value then out else write out (toKey key) value)).
    { destruct (isNil value) eqn:Hn; [done | by apply tidyDraft_write]. }
    rewrite (whole_seal _ h Hw').
    eexists (length h), _, _.
    split; [done |]. split; [by apply grows_alloc, tidyDraft_obj |].
    split; [apply lookup_fresh |]. split; [by destruct Hw' |].
    assert (Hat : props out !! toKey key = None).
    { rewrite Hout. destruct (d !! toKey key); [| done].
      by rewrite bool_decide_eq_true_2. }
    destruct (isNil value) eqn:Hn.
    + split; [done |]. split.
      * intros k z Hk Hz Hnz. rewrite Hout, Hz, Hnz.
        by rewrite bool_decide_eq_false_2.
      * intros k z Hk Hz. rewrite Hout in Hz.
        destruct (d !! k) as [x|]; [| done]. by case_match; simplify_eq.
    + rewrite (write_other _ _ value Hkey). cbn [props]. split.
      { apply (prop_own _ (length h) _ _ value (lookup_fresh h _)).
        by rewrite lookup_insert_eq. }
      split.
      * intros k z Hk Hz Hnz. rewrite lookup_insert_ne by done.
        rewrite Hout, Hz, Hnz. by rewrite bool_decide_eq_false_2.
      * intros k z Hk Hz. rewrite lookup_insert_ne in Hz by done.
        rewrite Hout in Hz.
        destruct (d !! k) as [x|]; [| done]. by case_match; simplify_eq.
Qed.

(** [assoc] on a Dict or on a nullish value, which it takes for an empty
    Dict. *)
Lemma assoc_dict_or_nil h v key value :
  isNil v = true ∨ isDict h v = true →
  entries h v !! "__proto__" = None → toKey key ≠ "__proto__" →
  ∃ r h' d',
    assoc v key value h = Ok (VRef r, h') ∧
    grows h h' ∧ h' !! r = Some (ODict d') ∧ d' !! "__proto__" = None ∧
    (if isNil value then d' !! toKey key = None
     else prop h' (VRef r) (toKey key) = value) ∧
    (∀ k z, k ≠ toKey key → entries h v !! k = Some z → isNil z = false →
       d' !! k = Some z) ∧
    (∀ k z, k ≠ toKey key → d' !! k = Some z → entries h v !! k = Some z).
Proof.
  intros [Hn | Hd] Hp Hkey.
  - assert (Hrun : assoc v key value h =
              assocAtKey (VRef (length h)) key value (h ++ [ODict ∅])).
    { unfold assoc.
      assert (isArray h v = false) as -> by (by destruct v).
      by rewrite (bind_Ok _ _ _ _ _ (alwaysDict_nil h v Hn)). }
    destruct (assocAtKey_dict (h ++ [ODict ∅]) (length h) ∅ key value
                (lookup_fresh h _) (lookup_empty _) Hkey)
      as (r & h' & d' & Hr & Hg & Hlr & Hpr & Hat & Hkeep & Hfrom).
    exists r, h', d'. rewrite Hrun. split; [done |].
    split; [eapply grows_trans; [apply (grows_alloc h (ODict ∅)), tidyObj_empty | done] |].
    split; [done |]. split; [done |]. split; [done |].
    assert (He : entries h v = ∅) by (by destruct v).
    rewrite He. split.
    + intros k z _ Hz. by rewrite lookup_empty in Hz.
    + intros k z Hk Hz. by apply Hfrom.
  - pose proof Hd as (l & d & -> & Hl)%isDict_ref.
    rewrite (entries_dict h l d Hl) in Hp.
    rewrite (assoc_dict h l d key value Hl), (entries_dict h l d Hl).
    apply (assocAtKey_dict h l d key value Hl Hp Hkey).
Qed.

Lemma get_dict_primitive h r d key :
  h !! r = Some (ODict d) → isPrimitive h key = true →
  get h (VRef r) key = Ok (prop h (VRef r) (toKey key)).
Proof.
  intros Hr Hp. rewrite (get_primitive h _ key Hp). unfold getPrim.
  by cbn [isNil].
Qed.

(** X6. Writing then reading, on a Dict.  Let [v] be nullish or a Dict that
    owns no property named ["__proto__"], [key] a primitive key other than
    ["__proto__"] and [value] a primitive.  Then [put(v, key, value)]
    returns a Dict in which [get] under [key] is [value]; when [value] is
    null or undefined the Dict does not own [key].  Under any other key it
    holds what [v] held there, when that was not nullish, and it owns no key
    that [v] did not own. *)
Theorem put_then_get (fuel : nat) (h : heap) (v key value : val) :
  isNil v = true ∨ isDict h v = true →
  entries h v !! "__proto__" = None →
  isPrimitive h key = true → isPrimitive h value = true →
  toKey key ≠ "__proto__" →
  ∃ r h',
    put fuel v key value h = Ok (r, h') ∧ grows h h' ∧ isDict h' r = true ∧
    (isNil value = false → get h' r key = Ok value) ∧
    (isNil value = true → has h' r (toKey key) = false) ∧
    (∀ key' z,
       isPrimitive h key' = true → toKey key' ≠ toKey key →
       entries h v !! toKey key' = Some z → isNil z = false →
       get h' r key' = Ok z) ∧
    (∀ k, k ≠ toKey key → has h' r k = true → is_Some (entries h v !! k)).
Proof.
  intros Hv Hplain Hkey Hval Hk.
  destruct (assoc_dict_or_nil h v key value Hv Hplain Hk)
    as (r & h' & d' & Hr & Hg & Hlr & Hpr & Hat & Hkeep & Hfrom).
  exists (VRef r), h'.
  assert (Hput : put fuel v key value h = Ok (VRef r, h')).
  { unfold put. rewrite (bind_Ok _ _ h tt h (validate_Ok h _ IsPrimitive Hkey)).
    assert (Hcur : getM v key h = Ok (getPrim h v key, h))
      by (unfold getM; by rewrite (get_primitive h v key Hkey)).
    rewrite (bind_Ok _ _ _ _ _ Hcur).
    by rewrite (bind_Ok _ _ _ _ _ (putAny_primitive fuel h _ value Hval)). }
  split; [done |]. split; [done |].
  split; [apply isDict_ref; eauto |].
  split; [| split; [| split]].
  - intros Hn. rewrite Hn in Hat.
    rewrite (get_dict_primitive h' r d' key Hlr (isPrimitive_any_store h h' _ Hkey)).
    by rewrite Hat.
  - intros Hn. rewrite Hn in Hat. rewrite (has_dict h' r d' _ Hlr), Hat.
    apply bool_decide_eq_false. by intros [??].
  - intros key' z Hkey' Hne Hz Hnz.
    rewrite (get_dict_primitive h' r d' key' Hlr (isPrimitive_any_store h h' _ Hkey')).
    f_equal. apply (prop_own h' r d' _ z Hlr). by apply Hkeep.
  - intros k Hne Hhas. rewrite (has_dict h' r d' k Hlr) in Hhas.
    apply bool_decide_eq_true in Hhas as [z Hz]. exists z. by apply Hfrom.
Qed.

End WriteRead.

Lemma put_then_get_witness :
  ∃ r h',
    put (H := quietHost) 0 (VRef 0) (VStr "b") (VNum (NInt 7))
      [ODict {[ "a" := VNum (NInt 1) ]}] = Ok (r, h') ∧
    get (H := quietHost) h' r (VStr "b") = Ok (VNum (NInt 7)).
Proof.
  destruct (put_then_get (H := quietHost) 0
              [ODict {[ "a" := VNum (NInt 1) ]}] (VRef 0) (VStr "b")
              (VNum (NInt 7)))
    as (r & h' & Hput & _ & _ & Hget & _);
    [right; reflexivity | reflexivity | reflexivity | reflexivity | discriminate |].
  exists r, h'. split; [exact Hput | apply Hget; reflexivity].
Defined.


Section WriteList.
Context `{Host}.

(** X7. [put] on a List.  With a primitive value, a key that is not a
    natural number is rejected by the natural-number test and an index above
    the length by the bounds check.  An index up to the length is accepted:
    below the length the result holds the value at that index and is the
    List itself exactly when it held that value already; at the length the
    value is appended to a new List.  Reading the index back gives the
    value (the index of a List prints in plain digits: it is below
    [10 ^ 21]). *)
Theorem put_list_index (fuel : nat) (h : heap) (l : nat) (xs : list val)
    (key value : val) :
  h !! l = Some (OList xs) →
  isPrimitive h key = true → isPrimitive h value = true →
  (isNatural key = false →
     put fuel (VRef l) key value h = Throw (ValidateError key IsNatural)) ∧
  (∀ i : nat, key = VNum (NInt (Z.of_nat i)) → (length xs < i)%nat →
     put fuel (VRef l) key value h =
       Throw (BoundsError (Z.of_nat i) (length xs))) ∧
  (∀ i : nat, key = VNum (NInt (Z.of_nat i)) → (i ≤ length xs)%nat →
     ∃ r h',
       put fuel (VRef l) key value h = Ok (r, h') ∧ grows h h' ∧
       isArray h' r = true ∧
       elems h' r = (if decide (i < length xs)%nat then <[i:=value]> xs
                     else xs ++ [value]) ∧
       (r = VRef l ↔ xs !! i = Some value) ∧
       ((Z.of_nat i < 10 ^ 21)%Z → get h' r key = Ok value)).
Proof.
  intros Hl Hkey Hval.
  assert (Ha : isArray h (VRef l) = true) by (apply isArray_ref; eauto).
  assert (Hlen : len h (VRef l) = length xs).
  { unfold len, elems. by rewrite Hl. }
  assert (Hput : put fuel (VRef l) key value h =
            assocAtIndex (VRef l) key value h).
  { unfold put. rewrite (bind_Ok _ _ h tt h (validate_Ok h _ IsPrimitive Hkey)).
    assert (Hcur : getM (VRef l) key h = Ok (getPrim h (VRef l) key, h))
      by (unfold getM; by rewrite (get_primitive h _ key Hkey)).
    rewrite (bind_Ok _ _ _ _ _ Hcur).
    rewrite (bind_Ok _ _ _ _ _ (putAny_primitive fuel h _ value Hval)).
    unfold assoc. by rewrite Ha. }
  rewrite Hput. unfold assocAtIndex.
  split; [| split].
  - intros Hnat. apply bind_Throw. by rewrite validateBounds_spec, Hnat.
  - intros i -> Hi. apply bind_Throw. rewrite validateBounds_spec, Hlen.
    assert (isNatural (VNum (NInt (Z.of_nat i))) = true) as ->
      by (apply isNatural_spec; eauto).
    cbn [asInt].
    destruct (Z.of_nat i <=? Z.of_nat (length xs))%Z eqn:Hle; [| done].
    apply Z.leb_le in Hle. lia.
  - intros i -> Hi.
    assert (Hb : validateBounds (VRef l) (VNum (NInt (Z.of_nat i))) h = Ok (tt, h)).
    { rewrite validateBounds_spec, Hlen.
      assert (isNatural (VNum (NInt (Z.of_nat i))) = true) as ->
        by (apply isNatural_spec; eauto).
      cbn [asInt]. by rewrite (proj2 (Z.leb_le _ _)) by lia. }
    rewrite (bind_Ok _ _ _ _ _ Hb). cbn [asInt]. rewrite Nat2Z.id, Hlen.
    unfold at_, elems. rewrite Hl.
    assert (Hread : ∀ h1 lr ys,
              h1 !! lr = Some (OList ys) → ys !! i = Some value →
              (Z.of_nat i < 10 ^ 21)%Z →
              get h1 (VRef lr) (VNum (NInt (Z.of_nat i))) = Ok value).
    { intros h1 lr ys Hlr Hys Hbig.
      rewrite (get_primitive h1 _ _ (isPrimitive_any_store h h1 _ Hkey)).
      unfold getPrim. cbn [isNil]. rewrite (toKey_index i Hbig).
      rewrite (prop_list_index h1 lr ys i Hlr (lookup_lt_Some _ _ _ Hys)).
      unfold at_, elems. by rewrite Hlr, Hys. }
    destruct (decide (i < length xs)%nat) as [Hlt | Hge].
    + rewrite (proj2 (Z.ltb_lt _ _)) by lia. cbn [andb].
      destruct (xs !! i) as [x|] eqn:Hx;
        [| apply lookup_ge_None in Hx; lia].
      change (default VUndef (Some x)) with x. destruct (is_ x value) eqn:Hi'.
      * apply is_spec in Hi'. subst x.
        exists (VRef l), h. split; [done |]. split; [apply grows_refl |].
        split; [done |]. unfold elems. rewrite Hl.
        split; [by rewrite list_insert_id |]. split; [done |].
        by apply (Hread h l xs).
      * exists (VRef (length h)), (h ++ [OList (setAt xs i value)]).
        split; [done |]. split; [by apply grows_alloc |].
        split; [apply isArray_ref; eauto using lookup_fresh |].
        unfold elems. rewrite lookup_fresh. unfold setAt.
        rewrite decide_True by done. split; [done |]. split.
        -- split.
           ++ intros [= Heq]. apply lookup_lt_Some in Hl. lia.
           ++ intros [= ->]. by rewrite is_refl in Hi'.
        -- apply (Hread _ (length h) (<[i:=value]> xs) (lookup_fresh h _)).
           by apply list_lookup_insert_eq.
    + assert (i = length xs) as -> by lia.
      rewrite Z.ltb_irrefl. cbn [andb].
      exists (VRef (length h)), (h ++ [OList (setAt xs (length xs) value)]).
      split; [done |]. split; [by apply grows_alloc |].
      split; [apply isArray_ref; eauto using lookup_fresh |].
      unfold elems. rewrite lookup_fresh. unfold setAt.
      rewrite decide_False by lia. rewrite Nat.sub_diag. cbn [replicate app].
      split; [done |]. split.
      * split.
        -- intros [= Heq]. apply lookup_lt_Some in Hl. lia.
        -- intros Hx. apply lookup_lt_Some in Hx. lia.
      * apply (Hread _ (length h) (xs ++ [value]) (lookup_fresh h _)).
        rewrite lookup_app_r by lia. by rewrite Nat.sub_diag.
Qed.

End WriteList.

Lemma put_list_index_witness :
  ∃ r h',
    put (H := quietHost) 0 (VRef 0) (VNum (NInt 2)) (VStr "c")
      [OList [VStr "a"; VStr "b"]] = Ok (r, h') ∧
    elems h' r = [VStr "a"; VStr "b"; VStr "c"].
Proof.
  destruct (put_list_index (H := quietHost) 0 [OList [VStr "a"; VStr "b"]]
              0 [VStr "a"; VStr "b"] (VNum (NInt 2)) (VStr "c"))
    as (_ & _ & Hin); [reflexivity .. |].
  destruct (Hin 2%nat eq_refl) as (r & h' & Hput & _ & _ & Hel & _);
    [simpl; lia |].
  exists r, h'. split; [exact Hput | exact Hel].
Defined.


(** ** Inserting and removing *)

Lemma elems_fresh_list h xs : elems (h ++ [OList xs]) (VRef (length h)) = xs.
Proof. unfold elems. by rewrite lookup_fresh. Qed.

Lemma delete_spliced (xs : list val) i v :
  (i ≤ length xs)%nat → delete i (take i xs ++ v :: drop i xs) = xs.
Proof.
  intros Hi. assert (Hl : length (take i xs) = i) by (rewrite length_take; lia).
  rewrite delete_take_drop, (take_app_length' _ _ i) by done.
  rewrite drop_app_ge by lia. rewrite Hl.
  replace (S i - i)%nat with 1%nat by lia.
  change (drop 1 (v :: drop i xs)) with (drop i xs). apply take_drop.
Qed.

Lemma splice_deleted (xs : list val) i x :
  xs !! i = Some x → take i (delete i xs) ++ x :: drop i (delete i xs) = xs.
Proof.
  intros Hx. assert (Hi : (i < length xs)%nat) by (by eapply lookup_lt_Some).
  assert (Hl : length (take i xs) = i) by (rewrite length_take; lia).
  rewrite delete_take_drop, (take_app_length' _ _ i) by done.
  rewrite (drop_app_length' _ _ i) by done. by apply take_drop_middle.
Qed.

(** X8. Removing what was inserted.  For a List (or a nullish value, taken
    for the empty List) and an index up to its length, [insertAtIndex] and
    then [removeAtIndex] at the same index give a List with the elements of
    the first, in a new object; and for an index below the length, removing
    the element and inserting it back at that index does the same. *)
Theorem insert_remove_round_trip (h : heap) (lst value : val) (i : nat) :
  isNil lst = true ∨ isArray h lst = true →
  (i ≤ len h lst)%nat →
  (∃ r1 h1 r2 h2,
     insertAtIndex lst (VNum (NInt (Z.of_nat i))) value h = Ok (r1, h1) ∧
     removeAtIndex r1 (VNum (NInt (Z.of_nat i))) h1 = Ok (r2, h2) ∧
     elems h2 r2 = elems h lst ∧ r2 ≠ lst ∧ r2 ≠ r1) ∧
  ((i < len h lst)%nat →
   ∃ r1 h1 r2 h2,
     removeAtIndex lst (VNum (NInt (Z.of_nat i))) h = Ok (r1, h1) ∧
     insertAtIndex r1 (VNum (NInt (Z.of_nat i))) (at_ h lst i) h1 = Ok (r2, h2) ∧
     elems h2 r2 = elems h lst ∧ r2 ≠ lst ∧ r2 ≠ r1).
Proof.
  intros Hlst Hi.
  assert (Hnat : isNatural (VNum (NInt (Z.of_nat i))) = true)
    by (apply isNatural_spec; eauto).
  assert (Hco : ∃ lst' h',
            alwaysArray lst h = Ok (lst', h') ∧ elems h' lst' = elems h lst ∧
            isArray h' lst' = true ∧ (length h ≤ length h')%nat ∧
            ∀ l, lst = VRef l → (l < length h)%nat).
  { destruct Hlst as [Hn | Ha].
    - exists (VRef (length h)), (h ++ [OList []]).
      rewrite (alwaysArray_nil h lst Hn), elems_fresh_list.
      split; [done |]. split; [by destruct lst |].
      split; [apply isArray_ref; eauto using lookup_fresh |].
      split; [rewrite length_app; lia | by destruct lst].
    - exists lst, h. rewrite (alwaysArray_array h lst Ha).
      repeat split; try done. intros l ->. by apply isArray_valid. }
  destruct Hco as (lst' & h' & Hc & Hel & Ha' & Hlen & Hvalid).
  split.
  - pose proof (insertAtIndex_coerced h h' lst lst' (VNum (NInt (Z.of_nat i)))
                  value Hc) as Hins.
    rewrite Hnat in Hins. cbn [asInt] in Hins. unfold len in Hins, Hi.
    rewrite Hel, Nat2Z.id in Hins.
    rewrite (proj2 (Z.leb_le _ _)) in Hins by lia.
    set (out := take i (elems h lst) ++ value :: drop i (elems h lst)) in *.
    assert (Hlo : length out = S (length (elems h lst))).
    { unfold out. rewrite length_app, length_take. simpl.
      rewrite length_drop. lia. }
    assert (Ha1 : isArray (h' ++ [OList out]) (VRef (length h')) = true)
      by (apply isArray_ref; eauto using lookup_fresh).
    pose proof (removeAtIndex_array (h' ++ [OList out]) (VRef (length h'))
                  (Z.of_nat i) Ha1) as Hrem.
    unfold len in Hrem. rewrite elems_fresh_list, Hlo, Nat2Z.id in Hrem.
    rewrite (proj2 (Z.leb_le _ _)), (proj2 (Z.ltb_lt _ _)) in Hrem by lia.
    cbn [andb] in Hrem.
    eexists _, _, _, _. split; [exact Hins |]. split; [exact Hrem |].
    rewrite elems_fresh_list. split.
    + unfold out. by apply delete_spliced.
    + rewrite length_app. cbn [length]. split.
      * intros Heq. specialize (Hvalid _ (eq_sym Heq)). lia.
      * intros [= Heq]. lia.
  - intros Hlt. unfold len in Hlt.
    assert (Ha : isArray h lst = true).
    { destruct Hlst as [Hn | Ha]; [| done].
      destruct lst; try done; simpl in Hlt; lia. }
    pose proof (removeAtIndex_array h lst (Z.of_nat i) Ha) as Hrem.
    unfold len in Hrem. rewrite Nat2Z.id in Hrem.
    rewrite (proj2 (Z.leb_le _ _)), (proj2 (Z.ltb_lt _ _)) in Hrem by lia.
    cbn [andb] in Hrem.
    set (out := delete i (elems h lst)) in *.
    assert (Hlo : S (length out) = length (elems h lst)).
    { unfold out. rewrite length_delete; [lia |].
      by apply lookup_lt_is_Some_2. }
    assert (Ha1 : isArray (h ++ [OList out]) (VRef (length h)) = true)
      by (apply isArray_ref; eauto using lookup_fresh).
    pose proof (insertAtIndex_coerced (h ++ [OList out]) (h ++ [OList out])
                  (VRef (length h)) (VRef (length h))
                  (VNum (NInt (Z.of_nat i))) (at_ h lst i)
                  (alwaysArray_array _ _ Ha1)) as Hins.
    rewrite Hnat in Hins. cbn [asInt] in Hins. unfold len in Hins.
    rewrite elems_fresh_list, Nat2Z.id in Hins.
    rewrite (proj2 (Z.leb_le _ _)) in Hins by lia.
    eexists _, _, _, _. split; [exact Hrem |]. split; [exact Hins |].
    rewrite elems_fresh_list. split.
    + unfold out, at_.
      destruct (elems h lst !! i) as [x|] eqn:Hx;
        [| apply lookup_ge_None in Hx; lia].
      by apply splice_deleted.
    + rewrite length_app. cbn [length]. split.
      * intros Heq. specialize (Hvalid _ (eq_sym Heq)). lia.
      * intros [= Heq]. lia.
Qed.

Lemma insert_remove_round_trip_witness :
  ∃ r1 h1 r2 h2,
    insertAtIndex (VRef 0) (VNum (NInt 1)) (VStr "x")
      [OList [VNum (NInt 1); VNum (NInt 2)]] = Ok (r1, h1) ∧
    removeAtIndex r1 (VNum (NInt 1)) h1 = Ok (r2, h2) ∧
    elems h2 r2 = [VNum (NInt 1); VNum (NInt 2)].
Proof.
  destruct (insert_remove_round_trip [OList [VNum (NInt 1); VNum (NInt 2)]]
              (VRef 0) (VStr "x") 1) as [Hround _];
    [right; reflexivity | vm_compute; lia |].
  destruct Hround as (r1 & h1 & r2 & h2 & Hins & Hrem & Hel & _).
  exists r1, h1, r2, h2. split; [exact Hins |]. split; [exact Hrem | exact Hel].
Defined.


(** ** What can throw *)

Lemma nothrow_ret {A} (a : A) : nothrow (ret a).
Proof. by intros h e. Qed.

Lemma nothrow_reads {A} (f : heap → A) : nothrow (reads f).
Proof. by intros h e. Qed.

Lemma nothrow_alloc o : nothrow (alloc o).
Proof. by intros h e. Qed.

Lemma nothrow_seal out : nothrow (seal out).
Proof. intros h e. unfold seal. by destruct (parent out). Qed.

Lemma nothrow_bind {A B} (c : M A) (k : A → M B) :
  nothrow c → (∀ a, nothrow (k a)) → nothrow (bind c k).
Proof.
  intros Hc Hk h e. unfold bind.
  destruct (c h) as [[a h1]|e1| |] eqn:Hch; [apply Hk | | done | done].
  by destruct (Hc h e1).
Qed.

Lemma nothrow_heap {A} (c : heap → M A) :
  (∀ h, nothrow (c h)) → nothrow (λ h, c h h).
Proof. intros Hc h e. apply (Hc h). Qed.

Lemma nothrow_mapM {A B} (f : A → M B) (l : list A) :
  (∀ x, nothrow (f x)) → nothrow (mapM f l).
Proof.
  intros Hf. induction l as [|x t IH]; cbn [mapM]; [apply nothrow_ret |].
  apply nothrow_bind; [apply Hf |]. intros y.
  apply nothrow_bind; [apply IH | intros; apply nothrow_ret].
Qed.

Lemma nothrow_foldM {A B} (f : B → A → M B) (l : list A) b :
  (∀ b x, nothrow (f b x)) → nothrow (foldM f l b).
Proof.
  intros Hf. revert b. induction l as [|x t IH]; intros b; cbn [foldM];
    [apply nothrow_ret |].
  apply nothrow_bind; [apply Hf | intros; apply IH].
Qed.

Lemma safe_ret {A} (a : A) (Q : A → Prop) : Q a → safe (ret a) Q.
Proof. intros Ha h _. split; [apply grows_refl | done]. Qed.

Lemma safe_reads {A} (f : heap → A) (Q : A → Prop) :
  (∀ h, Forall plainObj h → Q (f h)) → safe (reads f) Q.
Proof. intros Hf h Hp. split; [apply grows_refl | by apply Hf]. Qed.

Lemma safe_alloc o : tidyObj o → safe (alloc o) (λ _, True).
Proof. intros Ho h _. split; [by apply grows_alloc | done]. Qed.

Lemma safe_bind {A B} (c : M A) (k : A → M B) (P : A → Prop) (Q : B → Prop) :
  safe c P → (∀ a, P a → safe (k a) Q) → safe (bind c k) Q.
Proof.
  intros Hc Hk h Hp. specialize (Hc h Hp). unfold bind.
  destruct (c h) as [[a h1]|e| |]; try done. destruct Hc as [Hg Ha].
  specialize (Hk a Ha h1 (grows_plain h h1 Hg Hp)).
  destruct (k a h1) as [[b h2]|e| |]; try done. destruct Hk as [Hg' Hb].
  split; [by eapply grows_trans | done].
Qed.

Lemma safe_weaken {A} (c : M A) (P Q : A → Prop) :
  safe c P → (∀ a, P a → Q a) → safe c Q.
Proof.
  intros Hc HPQ h Hp. specialize (Hc h Hp).
  destruct (c h) as [[a h1]|e| |]; try done. destruct Hc. auto.
Qed.

Lemma safe_heap {A} (c : heap → M A) (Q : A → Prop) :
  (∀ h, safe (c h) Q) → safe (λ h, c h h) Q.
Proof. intros Hc h Hp. by apply (Hc h). Qed.

Lemma safe_mapM {A B} (f : A → M B) (l : list A) :
  (∀ x, safe (f x) (λ _, True)) → safe (mapM f l) (λ _, True).
Proof.
  intros Hf. induction l as [|x t IH]; simpl; [by apply safe_ret |].
  eapply safe_bind; [apply Hf |]. intros y _.
  eapply safe_bind; [apply IH |]. intros ys _. by apply safe_ret.
Qed.

Lemma safe_foldM {A B} (f : B → A → M B) (P : B → Prop) (l : list A) (b : B) :
  (∀ b x, x ∈ l → P b → safe (f b x) P) → P b → safe (foldM f l b) P.
Proof.
  revert b. induction l as [|x t IH]; intros b Hf Hb; simpl; [by apply safe_ret |].
  eapply safe_bind; [by apply Hf; [apply list_elem_of_here |] |].
  intros b' Hb'. apply IH; [| done].
  intros b'' z Hz. by apply Hf, list_elem_of_further.
Qed.

Lemma safe_seal out : tidyDraft out → whole out → safe (seal out) (λ _, True).
Proof.
  intros Ht Hw h _. rewrite (whole_seal out h Hw).
  split; [by apply grows_alloc, tidyDraft_obj | done].
Qed.

Lemma safe_toDict v : safe (toDict v) (λ _, True).
Proof.
  intros h _. unfold toDict. destruct (isDict h v).
  - split; [apply grows_refl | done].
  - split; [apply grows_alloc, tidyObj_empty | done].
Qed.

Lemma seal_Ok out h r h' :
  seal out h = Ok (r, h') →
  parent out = None ∧ r = VRef (length h) ∧ h' = h ++ [ODict (props out)].
Proof.
  unfold seal. destruct (parent out); [done |]. by intros [= <- <-].
Qed.

Section Throws.
Context `{Host}.

Lemma nothrow_settle prev out :
  nothrow (let* o := seal out in
           reads (λ h, if equalBy h prev o is_ then prev else o)).
Proof. apply nothrow_bind; [apply nothrow_seal | intros; apply nothrow_reads]. Qed.

Lemma nothrow_putKeyBy prev next fn out key :
  (∀ p n, nothrow (fn p n)) → nothrow (putKeyBy prev next fn out key).
Proof.
  intros Hfn. unfold putKeyBy. apply nothrow_bind; [| intros; apply nothrow_ret].
  apply (nothrow_heap (λ h, fn (prop h prev key) (prop h next key))).
  intros h. apply Hfn.
Qed.

Lemma nothrow_replaceListBy prev next fn :
  (∀ p n, nothrow (fn p n)) → nothrow (replaceListBy prev next fn).
Proof.
  intros Hfn. unfold replaceListBy.
  apply nothrow_bind; [apply nothrow_reads |]. intros n.
  apply nothrow_bind.
  - apply nothrow_mapM. intros i.
    apply (nothrow_heap (λ h, fn (at_ h prev i) (at_ h next i))).
    intros h. apply Hfn.
  - intros out. apply nothrow_bind; [apply nothrow_alloc |].
    intros o. apply nothrow_reads.
Qed.

Lemma nothrow_replaceDictBy prev next fn :
  (∀ p n, nothrow (fn p n)) → nothrow (replaceDictBy prev next fn).
Proof.
  intros Hfn. unfold replaceDictBy.
  apply nothrow_bind; [apply nothrow_reads |]. intros keys.
  apply nothrow_bind; [| intros; apply nothrow_settle].
  apply nothrow_foldM. intros b x. by apply nothrow_putKeyBy.
Qed.

Lemma nothrow_patchDictBy prev next fn :
  (∀ p n, nothrow (fn p n)) → nothrow (patchDictBy prev next fn).
Proof.
  intros Hfn. unfold patchDictBy.
  apply nothrow_bind; [apply nothrow_reads |]. intros prevKeys.
  apply nothrow_bind; [apply nothrow_reads |]. intros out0.
  apply nothrow_bind; [apply nothrow_reads |]. intros nextKeys.
  apply nothrow_bind; [| intros; apply nothrow_settle].
  apply nothrow_foldM. intros b x. by apply nothrow_putKeyBy.
Qed.

Lemma nothrow_putAny fuel prev next : nothrow (putAny fuel prev next).
Proof.
  revert prev next. induction fuel as [|fuel IH]; intros prev next h e;
    cbn [putAny]; destruct (is_ prev next); try done;
    destruct (isArray h prev), (isArray h next), (isDict h prev), (isDict h next);
    try done.
  all: first [ by apply nothrow_replaceListBy | by apply nothrow_replaceDictBy ].
Qed.

Lemma nothrow_toDict v : nothrow (toDict v).
Proof. intros h e. unfold toDict. by destruct (isDict h v). Qed.

Lemma nothrow_mergeTwo fuel prev next : nothrow (mergeTwo fuel prev next).
Proof.
  revert prev next. induction fuel as [|fuel IH]; intros prev next;
    cbn [mergeTwo]; destruct (is_ prev next); try apply nothrow_ret.
  - by intros h e.
  - apply nothrow_bind; [apply nothrow_toDict |]. intros p.
    apply nothrow_bind; [apply nothrow_toDict |]. intros n.
    apply nothrow_patchDictBy. intros p' n' h e.
    destruct (isDict h n'); [apply IH | apply nothrow_putAny].
Qed.

(** In a store in which no Dict owns ["__proto__"], the loops write under
    no such name, and the prototype of the Dict they build stays. *)
Lemma safe_putKeyBy prev next fn out key :
  (∀ p n, safe (fn p n) (λ _, True)) →
  key ≠ "__proto__" → tidyDraft out ∧ whole out →
  safe (putKeyBy prev next fn out key) (λ out, tidyDraft out ∧ whole out).
Proof.
  intros Hfn Hk [Ht Hw]. unfold putKeyBy. eapply safe_bind.
  - apply (safe_heap (λ h, fn (prop h prev key) (prop h next key))).
    intros h. apply Hfn.
  - intros v _. apply safe_ret. destruct (isNil v) eqn:Hv; [done |].
    split; [by apply tidyDraft_write | by apply whole_write].
Qed.

Lemma safe_putKeys prev next fn keys out :
  (∀ p n, safe (fn p n) (λ _, True)) →
  "__proto__" ∉ keys → tidyDraft out ∧ whole out →
  safe (foldM (putKeyBy prev next fn) keys out) (λ out, tidyDraft out ∧ whole out).
Proof.
  intros Hfn Hk Ho. apply safe_foldM; [| done].
  intros b key Hkey Hb. apply safe_putKeyBy; [done | by intros -> | done].
Qed.

Lemma safe_settle prev out :
  tidyDraft out ∧ whole out →
  safe (let* o := seal out in
        reads (λ h, if equalBy h prev o is_ then prev else o)) (λ _, True).
Proof.
  intros [Ht Hw]. eapply safe_bind; [by apply safe_seal |].
  intros o _. by apply safe_reads.
Qed.

Lemma safe_replaceListBy prev next fn :
  (∀ p n, safe (fn p n) (λ _, True)) →
  safe (replaceListBy prev next fn) (λ _, True).
Proof.
  intros Hfn. unfold replaceListBy.
  eapply safe_bind; [by apply safe_reads with (Q := λ _, True) |].
  intros n _. eapply safe_bind.
  { apply safe_mapM. intros i.
    apply (safe_heap (λ h, fn (at_ h prev i) (at_ h next i))).
    intros h. apply Hfn. }
  intros out _. eapply safe_bind; [apply safe_alloc, tidyObj_list |].
  intros o _. by apply safe_reads.
Qed.

Lemma safe_replaceDictBy prev next fn :
  (∀ p n, safe (fn p n) (λ _, True)) →
  safe (replaceDictBy prev next fn) (λ _, True).
Proof.
  intros Hfn. unfold replaceDictBy.
  apply (safe_bind _ _ (λ keys, "__proto__" ∉ keys)).
  { apply safe_reads. intros h Hp. by apply getKeys_plain_all. }
  intros keys Hkeys.
  apply (safe_bind _ _ (λ out, tidyDraft out ∧ whole out));
    [| intros out Hout; by apply safe_settle].
  apply safe_putKeys; [done | done |].
  split; [apply tidyDraft_blank | apply whole_blank].
Qed.

Lemma safe_patchDictBy prev next fn :
  (∀ p n, safe (fn p n) (λ _, True)) →
  safe (patchDictBy prev next fn) (λ _, True).
Proof.
  intros Hfn. unfold patchDictBy.
  apply (safe_bind _ _ (λ keys, "__proto__" ∉ keys)).
  { apply safe_reads. intros h Hp. by apply getKeys_plain_all. }
  intros prevKeys Hprev.
  apply (safe_bind _ _ (λ out, tidyDraft out ∧ whole out)).
  { apply safe_reads. intros h _. split.
    - apply tidyDraft_keepKey, tidyDraft_blank.
    - by apply keepKey_fold_whole, whole_blank. }
  intros out0 Hout0.
  apply (safe_bind _ _ (λ keys, "__proto__" ∉ keys)).
  { apply safe_reads. intros h Hp. by apply getKeys_plain_all. }
  intros nextKeys Hnext.
  apply (safe_bind _ _ (λ out, tidyDraft out ∧ whole out));
    [| intros out Hout; by apply safe_settle].
  by apply safe_putKeys.
Qed.

Lemma safe_putAny fuel prev next : safe (putAny fuel prev next) (λ _, True).
Proof.
  revert prev next. induction fuel as [|fuel IH]; intros prev next h Hp;
    cbn [putAny]; destruct (is_ prev next);
    try (split; [apply grows_refl | done]);
    destruct (isArray h prev), (isArray h next), (isDict h prev), (isDict h next);
    try done; try (split; [apply grows_refl | done]).
  all: first [ by apply safe_replaceListBy | by apply safe_replaceDictBy ].
Qed.

Lemma safe_mergeTwo fuel prev next : safe (mergeTwo fuel prev next) (λ _, True).
Proof.
  revert prev next. induction fuel as [|fuel IH]; intros prev next;
    cbn [mergeTwo]; destruct (is_ prev next); try by apply safe_ret.
  - by intros h _.
  - eapply safe_bind; [apply safe_toDict |]. intros p _.
    eapply safe_bind; [apply safe_toDict |]. intros n _.
    apply safe_patchDictBy. intros p' n' h Hp.
    destruct (isDict h n'); [by apply IH | by apply safe_putAny].
Qed.

(** [alwaysDict] throws the Dict test on its argument and nothing else, and
    what it returns is a Dict. *)
Lemma alwaysDict_cases h v :
  (alwaysDict v h = Throw (ValidateError v IsDict) ∧
   isNil v = false ∧ isDict h v = false) ∨
  (∃ p h1, alwaysDict v h = Ok (p, h1) ∧ grows h h1 ∧ isDict h1 p = true ∧
           (isNil v = true ∨ isDict h v = true)).
Proof.
  destruct (isNil v) eqn:Hn.
  - right. exists (VRef (length h)), (h ++ [ODict ∅]).
    rewrite (alwaysDict_nil h v Hn). split; [done |].
    split; [apply (grows_alloc h (ODict ∅)), tidyObj_empty |].
    split; [apply isDict_ref; eauto using lookup_fresh | by left].
  - destruct (isDict h v) eqn:Hd.
    + right. exists v, h. rewrite (alwaysDict_dict h v Hd).
      split; [done |]. split; [apply grows_refl |]. split; [done | by right].
    + left. split; [| done]. unfold alwaysDict. rewrite Hn.
      apply bind_Throw. unfold validate, satisfies. by rewrite Hd.
Qed.

Lemma isDict_grows h h' v : grows h h' → isDict h v = true → isDict h' v = true.
Proof.
  intros Hg Hd. pose proof Hd as (l & d & -> & Hl)%isDict_ref.
  by rewrite (grows_isDict h h' l Hg (lookup_lt_Some _ _ _ Hl)).
Qed.

(** What [patchDictBy] returns on a Dict is a Dict: the Dict itself, or the
    one it has built, whose prototype it has not replaced. *)
Lemma patchDictBy_returns_dict fn h prev next r h' :
  (∀ p n, sound (fn p n) (λ _, True)) →
  isDict h prev = true →
  patchDictBy prev next fn h = Ok (r, h') → isDict h' r = true.
Proof.
  intros Hfn (lp & dp & -> & Hp)%isDict_ref Hrun. unfold patchDictBy in Hrun.
  unfold bind at 1, reads at 1 in Hrun. unfold bind at 1, reads at 1 in Hrun.
  unfold bind at 1, reads at 1 in Hrun.
  destruct (foldM (putKeyBy (VRef lp) next fn) (getKeys h next)
              (foldl (keepKey h (VRef lp) next) blank (getKeys h (VRef lp))) h)
    as [[out h1]| | |] eqn:Hfold;
    [| by rewrite (bind_Throw _ _ _ _ Hfold) in Hrun
     | by rewrite (bind_Exhausted _ _ _ Hfold) in Hrun
     | by rewrite (bind_Escapes _ _ _ Hfold) in Hrun].
  rewrite (bind_Ok _ _ _ _ _ Hfold) in Hrun.
  assert (Hg : grows h h1).
  { eapply (sound_foldM _ tidyDraft _ _
              (λ b x Hb, sound_putKeyBy _ Hfn _ _ b x Hb)); [| done].
    apply tidyDraft_keepKey, tidyDraft_blank. }
  destruct (seal out h1) as [[o h2]| | |] eqn:Hseal;
    [| by rewrite (bind_Throw _ _ _ _ Hseal) in Hrun
     | by rewrite (bind_Exhausted _ _ _ Hseal) in Hrun
     | by rewrite (bind_Escapes _ _ _ Hseal) in Hrun].
  rewrite (bind_Ok _ _ _ _ _ Hseal) in Hrun.
  apply seal_Ok in Hseal as (_ & -> & ->).
  unfold reads in Hrun. injection Hrun as <- <-. case_match.
  - apply isDict_ref. exists lp, dp. split; [done |].
    apply lookup_grow. by apply (grows_lookup _ _ _ _ Hg).
  - apply isDict_ref. exists (length h1), (props out). split; [done |].
    apply lookup_fresh.
Qed.

Lemma mergeTwo_returns_dict fuel h prev next r h' :
  isDict h prev = true →
  mergeTwo fuel prev next h = Ok (r, h') → isDict h' r = true.
Proof.
  intros Hd Hrun. destruct (is_ prev next) eqn:Hi.
  - rewrite (mergeTwo_same fuel prev next h Hi) in Hrun. by injection Hrun as <- <-.
  - destruct fuel as [|fuel]; [by cbn [mergeTwo] in Hrun; rewrite Hi in Hrun |].
    rewrite (mergeTwo_unfold fuel prev next h Hi) in Hrun.
    assert (Hp : toDict prev h = Ok (prev, h)) by (unfold toDict; by rewrite Hd).
    rewrite (bind_Ok _ _ _ _ _ Hp) in Hrun.
    destruct (toDict next h) as [[n h1]| | |] eqn:Hn;
      [| by rewrite (bind_Throw _ _ _ _ Hn) in Hrun
       | by rewrite (bind_Exhausted _ _ _ Hn) in Hrun
       | by rewrite (bind_Escapes _ _ _ Hn) in Hrun].
    rewrite (bind_Ok _ _ _ _ _ Hn) in Hrun.
    destruct (sound_toDict next h n h1 Hn) as [Hg _].
    apply (patchDictBy_returns_dict (mergeOrPut fuel) h1 prev n r h'
             (sound_mergeOrPut fuel) (isDict_grows h h1 prev Hg Hd) Hrun).
Qed.

Lemma dictStep_throw_inv h h1 v :
  grows h h1 → isDict h1 v = false → isDict h v = false.
Proof.
  intros Hg Hd. destruct (isDict h v) eqn:Hd0; [| done].
  by rewrite (isDict_grows h h1 v Hg Hd0) in Hd.
Qed.

Lemma dictStep_of (fn : val → val → M val) :
  (∀ p n h r h', isDict h p = true → fn p n h = Ok (r, h') →
     grows h h' ∧ isDict h' r = true) →
  (∀ p n, nothrow (fn p n)) →
  (∀ p n, safe (fn p n) (λ _, True)) →
  dictStep (λ a b, let* p := alwaysDict a in let* n := alwaysDict b in fn p n).
Proof.
  intros Hok Hno Hsafe a b h Hpl.
  destruct (alwaysDict_cases h a) as [(Ha & Hna & Hda) | (p & h1 & Ha & Hg1 & Hd1 & _)].
  { rewrite (bind_Throw _ _ _ _ Ha). by left. }
  rewrite (bind_Ok _ _ _ _ _ Ha).
  destruct (alwaysDict_cases h1 b) as [(Hb & Hnb & Hdb) | (n & h2 & Hb & Hg2 & Hd2 & _)].
  { rewrite (bind_Throw _ _ _ _ Hb). right.
    split; [done |]. split; [done |]. by eapply dictStep_throw_inv. }
  rewrite (bind_Ok _ _ _ _ _ Hb).
  pose proof (Hsafe p n h2 (grows_plain _ _ Hg2 (grows_plain _ _ Hg1 Hpl))) as Hs.
  destruct (fn p n h2) as [[r h']|e| |] eqn:Hrun;
    [| by destruct (Hno p n h2 e) | done | done].
  destruct (Hok p n h2 r h' (isDict_grows h1 h2 p Hg2 Hd1) Hrun) as [Hg3 Hr].
  split; [| done]. eapply grows_trans; [done |]. by eapply grows_trans.
Qed.

Lemma patchTwoDicts_step fuel : dictStep (patchTwoDicts fuel).
Proof.
  apply (dictStep_of
           (λ p n, if is_ p n then ret p else patchDictBy p n (putAny fuel))).
  - intros p n h r h' Hd Hrun. destruct (is_ p n).
    + injection Hrun as <- <-. split; [apply grows_refl | done].
    + split; [by apply (sound_patchDictBy _ (sound_putAny fuel) _ _ _ _ _ Hrun) |].
      by apply (patchDictBy_returns_dict _ h p n r h' (sound_putAny fuel)).
  - intros p n. destruct (is_ p n); [apply nothrow_ret |].
    apply nothrow_patchDictBy, nothrow_putAny.
  - intros p n. destruct (is_ p n); [by apply safe_ret |].
    apply safe_patchDictBy, safe_putAny.
Qed.

Lemma mergeTwoDicts_step fuel : dictStep (mergeTwoDicts fuel).
Proof.
  apply (dictStep_of (mergeTwo fuel)).
  - intros p n h r h' Hd Hrun.
    split; [by apply (sound_mergeTwo _ _ _ _ _ _ Hrun) |].
    by apply (mergeTwo_returns_dict fuel h p n r h').
  - apply nothrow_mergeTwo.
  - apply safe_mergeTwo.
Qed.

Lemma foldM_dictStep fn :
  dictStep fn →
  ∀ rest acc h,
    Forall plainObj h →
    foldM fn rest acc h ≠ Escapes ∧
    ∀ e, foldM fn rest acc h = Throw e →
      (e = ValidateError acc IsDict ∧ isNil acc = false ∧ isDict h acc = false) ∨
      (∃ x, x ∈ rest ∧ e = ValidateError x IsDict ∧ isNil x = false ∧
            isDict h x = false).
Proof.
  intros Hfn. induction rest as [|x t IH]; intros acc h Hpl; [done |].
  cbn [foldM]. pose proof (Hfn acc x h Hpl) as Hstep.
  destruct (fn acc x h) as [[r h1]|e1| |] eqn:Hfx.
  - rewrite (bind_Ok _ _ _ _ _ Hfx). destruct Hstep as [Hg Hr].
    destruct (IH r h1 (grows_plain _ _ Hg Hpl)) as [Hesc Hthrow].
    split; [done |]. intros e Hrun.
    destruct (Hthrow e Hrun) as [(_ & _ & Hd) | (y & Hy & -> & Hny & Hdy)];
      [congruence |].
    right. exists y. split; [by apply list_elem_of_further |].
    split; [done |]. split; [done |]. by eapply dictStep_throw_inv.
  - rewrite (bind_Throw _ _ _ _ Hfx). split; [done |]. intros e [= <-].
    destruct Hstep as [H1 | (-> & Hn & Hd)]; [by left |].
    right. exists x. split; [apply list_elem_of_here | done].
  - by rewrite (bind_Exhausted _ _ _ Hfx).
  - done.
Qed.

Lemma variadic_throws fn (args : list val) h :
  dictStep fn → Forall plainObj h →
  (if decide (2 < length args)%nat then reduce fn args
   else fn (arg args 0) (arg args 1)) h ≠ Escapes ∧
  ∀ e,
    (if decide (2 < length args)%nat then reduce fn args
     else fn (arg args 0) (arg args 1)) h = Throw e →
    ∃ x, x ∈ args ∧ e = ValidateError x IsDict ∧ isNil x = false ∧
         isDict h x = false.
Proof.
  intros Hfn Hpl. case_decide as Hlen.
  - destruct args as [|first rest]; [simpl in Hlen; lia |].
    cbn [reduce].
    destruct (foldM_dictStep fn Hfn rest first h Hpl) as [Hesc Hthrow].
    split; [done |]. intros e Hrun.
    destruct (Hthrow e Hrun) as [(-> & Hn & Hd) | (x & Hx & -> & Hn & Hd)].
    + exists first. split; [apply list_elem_of_here | done].
    + exists x. split; [by apply list_elem_of_further | done].
  - pose proof (Hfn (arg args 0) (arg args 1) h Hpl) as Hstep.
    split; [intros Hrun; by rewrite Hrun in Hstep |].
    intros e Hrun. rewrite Hrun in Hstep.
    assert (Harg : ∀ i, isNil (arg args i) = false → arg args i ∈ args).
    { intros i Hn. unfold arg in *. destruct (args !! i) as [x|] eqn:Hx; [| done].
      by eapply list_elem_of_lookup_2. }
    destruct Hstep as [(-> & Hn & Hd) | (-> & Hn & Hd)].
    + exists (arg args 0). split; [by apply Harg | done].
    + exists (arg args 1). split; [by apply Harg | done].
Qed.

(** With no key to write, [patchDictBy] returns. *)
Lemma patchDictBy_no_keys h prev next fn :
  Forall plainObj h → getKeys h next = [] →
  ∃ r h', patchDictBy prev next fn h = Ok (r, h').
Proof.
  intros Hpl Hk. unfold patchDictBy, bind, reads. rewrite Hk. cbn [foldM].
  unfold ret.
  rewrite (whole_seal _ h
             (keepKey_fold_whole h prev next _ _ (getKeys_plain_all h prev Hpl)
                whole_blank)).
  eauto.
Qed.

(** The coercion of the two arguments of [patch] and of [merge], when each
    is nullish or a Dict: both become Dicts, and the second is the argument
    itself or a new Dict without keys. *)
Lemma two_dicts_total (k : val → val → M val) h a b :
  Forall plainObj h →
  isNil a = true ∨ isDict h a = true →
  isNil b = true ∨ isDict h b = true →
  (∀ p n ext,
     Forall plainObj (h ++ ext) →
     isDict (h ++ ext) p = true → isDict (h ++ ext) n = true →
     (n = b ∧ isDict h b = true) ∨ (p ≠ n ∧ getKeys (h ++ ext) n = []) →
     ∃ r h', k p n (h ++ ext) = Ok (r, h')) →
  ∃ r h', (let* p := alwaysDict a in let* n := alwaysDict b in k p n) h = Ok (r, h').
Proof.
  intros Hpl Ha Hb Hk.
  assert (Hempty : plainObj (ODict ∅)) by apply lookup_empty.
  assert (Hone : Forall plainObj (h ++ [ODict ∅])).
  { apply Forall_app. split; [done | by apply Forall_singleton]. }
  assert (Htwo : Forall plainObj (h ++ [ODict ∅] ++ [ODict ∅])).
  { rewrite app_assoc. apply Forall_app. split; [done | by apply Forall_singleton]. }
  assert (Hfresh : ∀ h1, isDict (h1 ++ [ODict ∅]) (VRef (length h1)) = true).
  { intros h1. apply isDict_ref. eauto using lookup_fresh. }
  assert (Hkeys : ∀ h1, getKeys (h1 ++ [ODict ∅]) (VRef (length h1)) = []).
  { intros h1. unfold getKeys. by rewrite lookup_fresh, map_to_list_empty. }
  assert (Hup : ∀ v ext, isDict h v = true → isDict (h ++ ext) v = true).
  { intros v ext (l & d & -> & Hl)%isDict_ref. apply isDict_ref.
    eauto using lookup_grow. }
  destruct (isNil a) eqn:Hna.
  - rewrite (bind_Ok _ _ _ _ _ (alwaysDict_nil h a Hna)).
    destruct (isNil b) eqn:Hnb.
    + rewrite (bind_Ok _ _ _ _ _ (alwaysDict_nil _ b Hnb)).
      rewrite <- (app_assoc h). apply Hk; [done | | |].
      * apply isDict_ref. exists (length h), ∅. split; [done |].
        rewrite app_assoc. apply lookup_grow, lookup_fresh.
      * rewrite app_assoc. apply Hfresh.
      * right. split; [rewrite last_length; intros [= ?]; lia |].
        rewrite app_assoc. apply Hkeys.
    + destruct Hb as [? | Hdb]; [done |].
      rewrite (bind_Ok _ _ _ _ _ (alwaysDict_dict _ b (Hup b _ Hdb))).
      apply Hk; [done | apply Hfresh | by apply Hup | by left].
  - destruct Ha as [? | Hda]; [done |].
    rewrite (bind_Ok _ _ _ _ _ (alwaysDict_dict h a Hda)).
    destruct (isNil b) eqn:Hnb.
    + rewrite (bind_Ok _ _ _ _ _ (alwaysDict_nil _ b Hnb)).
      apply Hk; [done | by apply Hup | apply Hfresh |].
      right. split; [| apply Hkeys].
      apply isDict_ref in Hda as (l & d & -> & Hl).
      apply lookup_lt_Some in Hl. intros [= ?]. lia.
    + destruct Hb as [? | Hdb]; [done |].
      rewrite (bind_Ok _ _ _ _ _ (alwaysDict_dict h b Hdb)).
      rewrite <- (app_nil_r h). apply Hk; rewrite ?app_nil_r; try done.
      by left.
Qed.

Lemma mergeTwo_dicts fuel h p n :
  isDict h p = true → isDict h n = true →
  mergeTwo (S fuel) p n h =
    (if is_ p n then ret p else patchDictBy p n (mergeOrPut fuel)) h.
Proof.
  intros Hp Hn. destruct (is_ p n) eqn:Hi; [by apply mergeTwo_same |].
  rewrite (mergeTwo_unfold fuel p n h Hi). unfold bind, toDict.
  by rewrite Hp, Hn.
Qed.

(** X9. What can throw.  [putAny] and [mergeTwo] throw none of the library's
    errors, whatever they are given.  In a store in which no Dict owns a
    property named ["__proto__"], [patch] and [merge], with any number of
    arguments, replace no prototype and throw nothing but the failed Dict
    test of one of their arguments, one that is neither nullish nor a Dict;
    a nested value of any kind never makes them throw one of these errors.
    The runtime's own [RangeError], the outcome [Exhausted], is raised by
    values that are too deep or cyclic only: in such a store without cycles,
    with fuel for its depth, [patch] and [merge] of two arguments that pass
    the Dict test return, and what they return is a Dict. *)
Theorem throws_only_dict_test (fuel : nat) :
  (∀ prev next h e, putAny fuel prev next h ≠ Throw e) ∧
  (∀ prev next h e, mergeTwo fuel prev next h ≠ Throw e) ∧
  (∀ args h,
     Forall plainObj h →
     patch fuel args h ≠ Escapes ∧
     ∀ e, patch fuel args h = Throw e →
       ∃ x, x ∈ args ∧ e = ValidateError x IsDict ∧ isNil x = false ∧
            isDict h x = false) ∧
  (∀ args h,
     Forall plainObj h →
     merge fuel args h ≠ Escapes ∧
     ∀ e, merge fuel args h = Throw e →
       ∃ x, x ∈ args ∧ e = ValidateError x IsDict ∧ isNil x = false ∧
            isDict h x = false) ∧
  (∀ a b h,
     Forall plainObj h → ordered h → (length h ≤ fuel)%nat →
     isNil a = true ∨ isDict h a = true →
     isNil b = true ∨ isDict h b = true →
     (∃ r h', patch fuel [a; b] h = Ok (r, h') ∧ isDict h' r = true) ∧
     (∃ r h', merge (S fuel) [a; b] h = Ok (r, h') ∧ isDict h' r = true)).
Proof.
  split; [intros prev next; apply nothrow_putAny |].
  split; [intros prev next; apply nothrow_mergeTwo |].
  split; [| split].
  - intros args h Hpl.
    apply (variadic_throws (patchTwoDicts fuel) args h (patchTwoDicts_step fuel) Hpl).
  - intros args h Hpl.
    apply (variadic_throws (mergeTwoDicts fuel) args h (mergeTwoDicts_step fuel) Hpl).
  - intros a b h Hpl Ho Hf Ha Hb.
    assert (Hret : ∀ (fn : val → val → M val) r h',
              dictStep fn → fn a b h = Ok (r, h') → isDict h' r = true).
    { intros fn r h' Hstep Hrun. specialize (Hstep a b h Hpl).
      rewrite Hrun in Hstep. by destruct Hstep. }
    split.
    + assert (Hrun : ∃ r h', patchTwoDicts fuel a b h = Ok (r, h')).
      { apply (two_dicts_total
                 (λ p n, if is_ p n then ret p else patchDictBy p n (putAny fuel))
                 h a b Hpl Ha Hb).
        intros p n ext Hpl' Hdp Hdn Hn. destruct (is_ p n); [by eexists _, _ |].
        destruct Hn as [[-> Hdb] | [_ Hkeys]];
          [| by apply patchDictBy_no_keys].
        apply isDict_ref in Hdb as (ln & dn & -> & Hln).
        assert (Ht : total_from h (patchDictBy p (VRef ln) (putAny fuel))
                       (λ _, True)).
        { apply total_patchDictBy. intros ext0 key Hkey ext'.
          apply putAny_total; [done |].
          rewrite (getKeys_grow h ext0 ln (lookup_lt_Some _ _ _ Hln)),
            (getKeys_dict h ln dn Hln) in Hkey. apply elem_of_keys in Hkey.
          apply (within_prop h ext' fuel ln dn key Ho Hln); [| done].
          apply lookup_lt_Some in Hln. lia. }
        destruct (Ht ext Hpl') as (r & ext' & Hrun & _). eauto. }
      destruct Hrun as (r & h' & Hrun). exists r, h'.
      assert (Hp : patch fuel [a; b] h = patchTwoDicts fuel a b h).
      { unfold patch. cbn [length]. by rewrite decide_False by lia. }
      rewrite Hp. split; [done |].
      by apply (Hret (patchTwoDicts fuel) r h' (patchTwoDicts_step fuel)).
    + assert (Hrun : ∃ r h', mergeTwoDicts (S fuel) a b h = Ok (r, h')).
      { apply (two_dicts_total (mergeTwo (S fuel)) h a b Hpl Ha Hb).
        intros p n ext Hpl' Hdp Hdn Hn.
        destruct Hn as [[-> Hdb] | [Hne Hkeys]].
        - apply isDict_ref in Hdb as (ln & dn & -> & Hln).
          assert (Hw : within h fuel (VRef ln)).
          { intros l [= <-]. apply lookup_lt_Some in Hln. lia. }
          destruct (mergeTwo_total h fuel p (VRef ln) Ho Hw ext Hpl')
            as (r & ext' & Hrun & _). eauto.
        - rewrite (mergeTwo_dicts fuel _ p n Hdp Hdn).
          rewrite (proj2 (is_false p n) Hne).
          by apply patchDictBy_no_keys. }
      destruct Hrun as (r & h' & Hrun). exists r, h'.
      assert (Hp : merge (S fuel) [a; b] h = mergeTwoDicts (S fuel) a b h).
      { unfold merge. cbn [length]. by rewrite decide_False by lia. }
      rewrite Hp. split; [done |].
      by apply (Hret (mergeTwoDicts (S fuel)) r h' (mergeTwoDicts_step (S fuel))).
Qed.

End Throws.

Lemma throws_only_dict_test_witness :
  ∃ x, x ∈ [VRef 0; VNum (NInt 5); VRef 0] ∧
       ValidateError (VNum (NInt 5)) IsDict = ValidateError x IsDict.
Proof.
  destruct (throws_only_dict_test (H := quietHost) 0) as (_ & _ & Hpatch & _).
  destruct (Hpatch [VRef 0; VNum (NInt 5); VRef 0] [ODict ∅]) as [_ Hthrow].
  { repeat constructor. }
  destruct (Hthrow (ValidateError (VNum (NInt 5)) IsDict) eq_refl)
    as (x & Hx & He & _).
  exists x. split; [exact Hx | exact He].
Defined.

(** ** Writing then reading along a path *)

Section WritePath.
Context `{Host}.

Lemma entries_plain h v :
  Forall plainObj h → isNil v = true ∨ isDict h v = true →
  entries h v !! "__proto__" = None.
Proof.
  intros Hpl [Hn | (l & d & -> & Hl)%isDict_ref].
  - by destruct v.
  - rewrite (entries_dict h l d Hl). by apply (plain_lookup h l d).
Qed.

Lemma assocInAt_read h0 x keys :
  keys ≠ [] → isNil x = false →
  Forall (λ key, isPrimitive h0 key = true ∧ toKey key ≠ "__proto__") keys →
  ∀ h v,
    Forall plainObj h →
    dictChain h v keys = true →
    ∃ r h',
      assocInAt v keys x h = Ok (VRef r, h') ∧ grows h h' ∧
      isDict h' (VRef r) = true ∧
      ∀ h'', grows h' h'' → getFold h'' (VRef r) keys = Ok x.
Proof.
  intros Hne Hx Hprim. induction Hprim as [|key rest [Hkey Hproto] Hrest IH]; [done |].
  clear Hne. intros h v Hpl Hchain. cbn [dictChain] in Hchain.
  apply andb_true_iff in Hchain as [Hv Hchain].
  assert (Hv' : ∀ h1, grows h h1 → isNil v = true ∨ isDict h1 v = true).
  { intros h1 Hg. apply orb_true_iff in Hv as [Hn | Hd]; [by left | right].
    by apply (isDict_grows h h1). }
  assert (Hread : ∀ h1 h2 r d' y,
            h1 !! r = Some (ODict d') → prop h1 (VRef r) (toKey key) = y →
            grows h1 h2 →
            get h2 (VRef r) key = Ok y).
  { intros h1 h2 r d' y Hr Hy Hg.
    rewrite (get_dict_primitive h2 r d' key (grows_lookup _ _ _ _ Hg Hr)
               (isPrimitive_any_store h0 h2 _ Hkey)).
    by rewrite (grows_prop h1 h2 r _ Hg (lookup_lt_Some _ _ _ Hr)), Hy. }
  destruct rest as [|key2 rest2].
  - cbn [assocInAt].
    destruct (assoc_dict_or_nil h v key x (Hv' h (grows_refl h))
                (entries_plain h v Hpl (Hv' h (grows_refl h))) Hproto)
      as (r & h' & d' & Hr & Hg & Hlr & _ & Hat & _).
    rewrite Hx in Hat.
    exists r, h'. split; [done |]. split; [done |].
    split; [apply isDict_ref; eauto |].
    intros h'' Hg'. cbn [getFold].
    by rewrite (Hread h' h'' r d' x Hlr Hat Hg').
  - destruct (IH ltac:(done) h (getPrim h v key) Hpl Hchain)
      as (s & h1 & Hsub & Hg1 & Hds & Hreads).
    assert (Hcur : getM v key h = Ok (getPrim h v key, h)).
    { unfold getM. by rewrite (get_primitive h v key (isPrimitive_any_store h0 h _ Hkey)). }
    destruct (assoc_dict_or_nil h1 v key (VRef s) (Hv' h1 Hg1)
                (entries_plain h1 v (grows_plain _ _ Hg1 Hpl) (Hv' h1 Hg1)) Hproto)
      as (r & h2 & d' & Hr & Hg2 & Hlr & _ & Hat & _).
    cbn [isNil] in Hat.
    exists r, h2. split.
    { change (assocInAt v (key :: key2 :: rest2) x)
        with (let* inner := getM v key in
              let* sub := assocInAt inner (key2 :: rest2) x in
              assoc v key sub).
      rewrite (bind_Ok _ _ _ _ _ Hcur). by rewrite (bind_Ok _ _ _ _ _ Hsub). }
    split; [by eapply grows_trans |].
    split; [apply isDict_ref; eauto |].
    intros h'' Hg'.
    change (getFold h'' (VRef r) (key :: key2 :: rest2))
      with (match get h'' (VRef r) key with
            | Ok v' => getFold h'' v' (key2 :: rest2)
            | Throw e => Throw e
            | Exhausted => Exhausted
            | Escapes => Escapes
            end).
    rewrite (Hread h2 h'' r d' (VRef s) Hlr Hat Hg').
    apply Hreads. by eapply grows_trans.
Qed.

(** X10. Writing then reading along a path.  Let [path] be a List of
    primitives that is not empty and holds no key ["__proto__"], in a store
    in which no Dict owns a property of that name, and let every value met
    on the way from [v] be nullish or a Dict.  Then [putIn(v, path, x)] with
    a primitive [x] that is not nullish returns a Dict, making the Dicts
    that are missing on the way, and [getIn] of the result along [path] is
    [x]. *)
Theorem putIn_then_getIn (fuel : nat) (h : heap) (v path x : val) :
  Forall plainObj h →
  isPath h path = true → elems h path ≠ [] →
  Forall (λ key, toKey key ≠ "__proto__") (elems h path) →
  dictChain h v (elems h path) = true →
  isPrimitive h x = true → isNil x = false →
  ∃ r h',
    putIn fuel v path x h = Ok (r, h') ∧ grows h h' ∧ isDict h' r = true ∧
    getIn r path h' = Ok (x, h').
Proof.
  intros Hpl Hpath Hne Hproto Hchain Hx Hnx.
  pose proof Hpath as Hp. unfold isPath in Hp.
  apply andb_true_iff in Hp as [Ha Hev]. apply everyByFrom_Forall in Hev.
  pose proof Ha as (lp & ks & -> & Hlp)%isArray_ref.
  assert (Hkeys : Forall (λ key, isPrimitive h key = true ∧ toKey key ≠ "__proto__")
                    (elems h (VRef lp))).
  { rewrite Forall_forall in Hev, Hproto. apply Forall_forall. intros key Hkey.
    split; [by apply Hev | by apply Hproto]. }
  destruct (assocInAt_read h x (elems h (VRef lp)) Hne Hnx Hkeys h v Hpl Hchain)
    as (r & h' & Hrun & Hg & Hd & Hread).
  exists (VRef r), h'.
  assert (Hel : elems h' (VRef lp) = elems h (VRef lp))
    by (apply (grows_elems h h' lp Hg), (lookup_lt_Some _ _ _ Hlp)).
  split; [| split; [done | split; [done |]]].
  - unfold putIn. rewrite (bind_Ok _ _ h tt h (validate_Ok h _ IsPath Hpath)).
    assert (Hcur : getIn v (VRef lp) h =
              Ok (foldl (getPrim h) v (elems h (VRef lp)), h)).
    { unfold getIn. rewrite (bind_Ok _ _ h tt h (validate_Ok h _ IsArray Ha)).
      by rewrite (getFold_primitive h _ v Hev). }
    rewrite (bind_Ok _ _ _ _ _ Hcur).
    rewrite (bind_Ok _ _ _ _ _ (putAny_primitive fuel h _ x Hx)).
    unfold assocIn, len. rewrite bool_decide_eq_false_2; [done |].
    by destruct (elems h (VRef lp)).
  - unfold getIn.
    assert (Ha' : isArray h' (VRef lp) = true)
      by (apply isArray_ref; eauto using grows_lookup).
    rewrite (bind_Ok _ _ h' tt h' (validate_Ok h' _ IsArray Ha')).
    by rewrite Hel, (Hread h' (grows_refl h')).
Qed.

End WritePath.

Lemma putIn_then_getIn_witness :
  ∃ r h',
    putIn (H := quietHost) 0 VUndef (VRef 0) (VNum (NInt 1))
      [OList [VStr "a"; VStr "b"]] = Ok (r, h') ∧
    getIn (H := quietHost) r (VRef 0) h' = Ok (VNum (NInt 1), h').
Proof.
  destruct (putIn_then_getIn (H := quietHost) 0 [OList [VStr "a"; VStr "b"]]
              VUndef (VRef 0) (VNum (NInt 1)))
    as (r & h' & Hput & _ & _ & Hget);
    [repeat constructor | reflexivity | discriminate
    | repeat constructor; discriminate | reflexivity | reflexivity | reflexivity |].
  exists r, h'. split; [exact Hput | exact Hget].
Defined.

(** ** What [putAny] returns *)

Lemma mapM_lookup {A B} (f : A → M B) :
  (∀ x, sound (f x) (λ _, True)) →
  ∀ l h out h',
    mapM f l h = Ok (out, h') →
    grows h h' ∧ length out = length l ∧
    ∀ i a y, l !! i = Some a → out !! i = Some y →
      ∃ ha hb, grows h ha ∧ grows hb h' ∧ f a ha = Ok (y, hb).
Proof.
  intros Hf. induction l as [|x t IH]; intros h out h' Hrun.
  - injection Hrun as <- <-. split; [apply grows_refl |]. split; [done |].
    by intros i a y ?.
  - cbn [mapM] in Hrun.
    destruct (f x h) as [[y1 h1]| | |] eqn:Hx;
      [| by rewrite (bind_Throw _ _ _ _ Hx) in Hrun
       | by rewrite (bind_Exhausted _ _ _ Hx) in Hrun
       | by rewrite (bind_Escapes _ _ _ Hx) in Hrun].
    rewrite (bind_Ok _ _ _ _ _ Hx) in Hrun.
    destruct (mapM f t h1) as [[ys h2]| | |] eqn:Ht;
      [| by rewrite (bind_Throw _ _ _ _ Ht) in Hrun
       | by rewrite (bind_Exhausted _ _ _ Ht) in Hrun
       | by rewrite (bind_Escapes _ _ _ Ht) in Hrun].
    rewrite (bind_Ok _ _ _ _ _ Ht) in Hrun. injection Hrun as <- <-.
    destruct (Hf x h y1 h1 Hx) as [Hg1 _].
    destruct (IH h1 ys h2 Ht) as (Hg2 & Hlen & Hall).
    split; [by eapply grows_trans |]. split; [simpl; by rewrite Hlen |].
    intros [|i] a y Ha Hy.
    + injection Ha as <-. injection Hy as <-.
      exists h, h1. split; [apply grows_refl | done].
    + destruct (Hall i a y Ha Hy) as (ha & hb & Hga & Hgb & Hrun).
      exists ha, hb. split; [by eapply grows_trans | done].
Qed.

Section Returned.
Context `{Host}.

Lemma equal_true_grows fuel h h' a b :
  grows h h' → equal fuel h a b = Some true → equal fuel h' a b = Some true.
Proof.
  intros Hg. revert a b. induction fuel as [|fuel IH]; intros a b Heq;
    destruct (equal_true_inv _ h a b Heq)
      as [-> | [(la & lb & xs & ys & -> & -> & Hne & Hla & Hlb)
               | (la & lb & da & db & -> & -> & Hne & Hla & Hlb)]];
    try apply equal_same.
  - destruct (proj1 (equal_true_lists 0 h la lb xs ys Hla Hlb Hne) Heq)
      as [Hlen Hall].
    apply (equal_true_lists 0 h' la lb xs ys (grows_lookup _ _ _ _ Hg Hla)
             (grows_lookup _ _ _ _ Hg Hlb) Hne).
    split; [done |]. intros i x y Hx Hy. by apply (Hall i x y).
  - destruct (proj1 (equal_true_dicts 0 h la lb da db Hla Hlb Hne) Heq)
      as [Hdom Hall].
    apply (equal_true_dicts 0 h' la lb da db (grows_lookup _ _ _ _ Hg Hla)
             (grows_lookup _ _ _ _ Hg Hlb) Hne).
    split; [done |]. intros k x y Hx Hy. by apply (Hall k x y).
  - destruct (proj1 (equal_true_lists (S fuel) h la lb xs ys Hla Hlb Hne) Heq)
      as [Hlen Hall].
    apply (equal_true_lists (S fuel) h' la lb xs ys (grows_lookup _ _ _ _ Hg Hla)
             (grows_lookup _ _ _ _ Hg Hlb) Hne).
    split; [done |]. intros i x y Hx Hy. apply IH. by apply (Hall i x y).
  - destruct (proj1 (equal_true_dicts (S fuel) h la lb da db Hla Hlb Hne) Heq)
      as [Hdom Hall].
    apply (equal_true_dicts (S fuel) h' la lb da db (grows_lookup _ _ _ _ Hg Hla)
             (grows_lookup _ _ _ _ Hg Hlb) Hne).
    split; [done |]. intros k x y Hx Hy. apply IH. by apply (Hall k x y).
Qed.

Lemma equal_true_not_nil fuel h x y :
  equal fuel h x y = Some true → isNil y = false → isNil x = false.
Proof.
  intros Heq Hy.
  by destruct (equal_true_inv _ h x y Heq)
    as [-> | [(la & lb & xs & ys & -> & -> & _) | (la & lb & da & db & -> & -> & _)]].
Qed.

Lemma putAny_lists fuel prev next h l xs out h1 :
  is_ prev next = false → prev = VRef l → h !! l = Some (OList xs) →
  isArray h next = true →
  mapM (λ i h', putAny fuel (at_ h' prev i) (at_ h' next i) h')
    (seq 0 (len h next)) h = Ok (out, h1) →
  putAny (S fuel) prev next h =
    Ok (if bool_decide (xs = out) then prev else VRef (length h1),
        h1 ++ [OList out]).
Proof.
  intros Hi -> Hl Hn Hmap. simpl. rewrite Hi, Hn.
  assert (isArray h (VRef l) = true) as -> by (apply isArray_ref; eauto).
  unfold replaceListBy, bind at 1, reads at 1. unfold bind at 1.
  rewrite Hmap. apply settle_list.
  eapply grows_lookup; [| done].
  eapply (sound_mapM _ _ (λ i, sound_heap _ _ (λ h', sound_putAny fuel _ _))).
  exact Hmap.
Qed.

(** The three ways [putAny] returns: the next value as it is; a List rebuilt
    from two Lists; a Dict rebuilt from two Dicts. *)
Lemma putAny_inv fuel prev next h r h' :
  putAny fuel prev next h = Ok (r, h') →
  (r = next ∧ h' = h) ∨
  (∃ fuel' la lb xs ys out h1,
     fuel = S fuel' ∧ prev = VRef la ∧ next = VRef lb ∧ la ≠ lb ∧
     h !! la = Some (OList xs) ∧ h !! lb = Some (OList ys) ∧
     mapM (λ i h', putAny fuel' (at_ h' (VRef la) i) (at_ h' (VRef lb) i) h')
       (seq 0 (length ys)) h = Ok (out, h1) ∧
     r = (if bool_decide (xs = out) then VRef la else VRef (length h1)) ∧
     h' = h1 ++ [OList out]) ∨
  (∃ fuel' la lb da db out h1,
     fuel = S fuel' ∧ prev = VRef la ∧ next = VRef lb ∧ la ≠ lb ∧
     h !! la = Some (ODict da) ∧ h !! lb = Some (ODict db) ∧
     foldM (putKeyBy (VRef la) (VRef lb) (putAny fuel')) (getKeys h (VRef lb))
       blank h = Ok (out, h1) ∧
     parent out = None ∧
     r = (if bool_decide (da = props out) then VRef la else VRef (length h1)) ∧
     h' = h1 ++ [ODict (props out)]).
Proof.
  intros Hrun. destruct (is_ prev next) eqn:Hi.
  { rewrite (putAny_same fuel prev next h Hi) in Hrun. injection Hrun as <- <-.
    left. by apply is_spec in Hi. }
  assert (Hne : prev ≠ next) by (by apply is_false).
  destruct (isArray h prev && isArray h next) eqn:Ha.
  - apply andb_true_iff in Ha as [Hap Han].
    pose proof Hap as (la & xs & -> & Hla)%isArray_ref.
    pose proof Han as (lb & ys & -> & Hlb)%isArray_ref.
    destruct fuel as [|fuel]; [cbn [putAny] in Hrun; by rewrite Hi, Hap, Han in Hrun |].
    right; left.
    assert (Hn : len h (VRef lb) = length ys) by (unfold len, elems; by rewrite Hlb).
    destruct (mapM (λ i h', putAny fuel (at_ h' (VRef la) i) (at_ h' (VRef lb) i) h')
                (seq 0 (length ys)) h) as [[out h1]| | |] eqn:Hmap.
    + rewrite (putAny_lists fuel _ _ h la xs out h1 Hi eq_refl Hla Han) in Hrun
        by (by rewrite Hn).
      injection Hrun as <- <-.
      exists fuel, la, lb, xs, ys, out, h1. repeat split; try done. congruence.
    + cbn [putAny] in Hrun. rewrite Hi, Hap, Han in Hrun.
      unfold replaceListBy, bind at 1, reads at 1 in Hrun. rewrite Hn in Hrun.
      by rewrite (bind_Throw _ _ _ _ Hmap) in Hrun.
    + cbn [putAny] in Hrun. rewrite Hi, Hap, Han in Hrun.
      unfold replaceListBy, bind at 1, reads at 1 in Hrun. rewrite Hn in Hrun.
      by rewrite (bind_Exhausted _ _ _ Hmap) in Hrun.
    + cbn [putAny] in Hrun. rewrite Hi, Hap, Han in Hrun.
      unfold replaceListBy, bind at 1, reads at 1 in Hrun. rewrite Hn in Hrun.
      by rewrite (bind_Escapes _ _ _ Hmap) in Hrun.
  - destruct (isDict h prev && isDict h next) eqn:Hd.
    + apply andb_true_iff in Hd as [Hdp Hdn].
      pose proof Hdp as (la & da & -> & Hla)%isDict_ref.
      pose proof Hdn as (lb & db & -> & Hlb)%isDict_ref.
      pose proof (isDict_not_array _ _ Hdp) as Hnp.
      destruct fuel as [|fuel];
        [cbn [putAny] in Hrun; by rewrite Hi, Hnp, Hdp, Hdn in Hrun |].
      right; right.
      rewrite (putAny_dicts_unfold fuel h _ _ Hi Hdp Hdn) in Hrun.
      unfold replaceDictBy, bind at 1, reads at 1 in Hrun.
      destruct (foldM (putKeyBy (VRef la) (VRef lb) (putAny fuel))
                  (getKeys h (VRef lb)) blank h) as [[out h1]| | |] eqn:Hfold;
        [| by rewrite (bind_Throw _ _ _ _ Hfold) in Hrun
         | by rewrite (bind_Exhausted _ _ _ Hfold) in Hrun
         | by rewrite (bind_Escapes _ _ _ Hfold) in Hrun].
      rewrite (bind_Ok _ _ _ _ _ Hfold) in Hrun.
      assert (Hpar : parent out = None).
      { unfold bind, seal in Hrun. by destruct (parent out). }
      assert (Hg : grows h h1).
      { eapply (sound_foldM _ tidyDraft _ _
                  (λ b x Hb, sound_putKeyBy _ (sound_putAny fuel) _ _ b x Hb)
                  tidyDraft_blank). exact Hfold. }
      rewrite (whole_eta out Hpar) in Hrun.
      rewrite (settle_dict h1 la da (props out) (grows_lookup _ _ _ _ Hg Hla))
        in Hrun.
      injection Hrun as <- <-.
      exists fuel, la, lb, da, db, out, h1. repeat split; try done. congruence.
    + rewrite (putAny_atomic fuel prev next h Hi Ha Hd) in Hrun.
      injection Hrun as <- <-. by left.
Qed.

Lemma putAny_equal_next fuel :
  ∀ h prev next r h',
    Forall tidyObj h → putAny fuel prev next h = Ok (r, h') →
    equal fuel h' r next = Some true.
Proof.
  induction fuel as [|fuel IH]; intros h prev next r h' Htidy Hrun;
    destruct (putAny_inv _ prev next h r h' Hrun)
      as [[-> ->]
         | [(fuel' & la & lb & xs & ys & out & h1 & Hf & -> & -> & Hne & Hla &
             Hlb & Hmap & -> & ->)
           | (fuel' & la & lb & da & db & out & h1 & Hf & -> & -> & Hne & Hla &
              Hlb & Hfold & Hpar & -> & ->)]];
    try apply equal_same; try done; injection Hf as <-.
  - destruct (mapM_lookup _ (λ i, sound_heap _ _ (λ h', sound_putAny fuel _ _))
                _ _ _ _ Hmap) as (Hg1 & Hlen & Hall).
    rewrite length_seq in Hlen.
    assert (Hg' : grows h1 (h1 ++ [OList out])) by (apply grows_alloc, tidyObj_list).
    assert (Hr : ∃ lr,
              (if bool_decide (xs = out) then VRef la else VRef (length h1)) = VRef lr ∧
              (h1 ++ [OList out]) !! lr = Some (OList out) ∧ lr ≠ lb).
    { case_bool_decide as Hsame.
      - exists la. subst out. split; [done |]. split; [| done].
        eauto using grows_lookup, grows_trans.
      - exists (length h1). split; [done |]. split; [apply lookup_fresh |].
        apply lookup_lt_Some in Hlb. apply grows_length in Hg1. lia. }
    destruct Hr as (lr & -> & Hlr & Hnr).
    apply (equal_true_lists (S fuel) _ lr lb out ys Hlr); [| done |].
    { eauto using grows_lookup, grows_trans. }
    split; [done |]. intros i x y Hx Hy. cbn [comparator].
    apply equal_true_sym.
    destruct (Hall i i x) as (ha & hb & Hga & Hgb & Hstep); [| done |].
    { apply lookup_seq. split; [done | by eapply lookup_lt_Some]. }
    assert (Hy' : at_ ha (VRef lb) i = y).
    { unfold at_. rewrite (grows_elems h ha lb Hga (lookup_lt_Some _ _ _ Hlb)).
      unfold elems. by rewrite Hlb, Hy. }
    rewrite Hy' in Hstep.
    apply (equal_true_grows fuel hb); [by eapply grows_trans |].
    apply (IH ha _ y x hb (grows_tidy h ha Hga Htidy) Hstep).
  - assert (Hnd : NoDup (getKeys h (VRef lb))).
    { rewrite (getKeys_dict h lb db Hlb). apply NoDup_fst_map_to_list. }
    destruct (tidy_lookup h lb db Htidy Hlb) as [Hdb Hpb].
    assert (Hkeys : "__proto__" ∉ getKeys h (VRef lb)).
    { rewrite (getKeys_dict h lb db Hlb), elem_of_keys, Hpb. by intros [??]. }
    destruct (foldM_putKeyBy_lookup (putAny fuel) _ _ (sound_putAny fuel)
                _ _ _ _ _ Hnd Hkeys Hfold) as (Hg1 & _ & Hk).
    assert (Hchar : ∀ k,
              match db !! k with
              | Some y => ∃ x, props out !! k = Some x ∧ isNil x = false ∧
                               equal fuel h1 x y = Some true
              | None => props out !! k = None
              end).
    { intros k. destruct (Hk k) as [Hout Hin].
      destruct (db !! k) as [y|] eqn:Hy.
      - destruct Hin as (x & ha & hb & Hga & Hgb & Hstep & Hval).
        { rewrite (getKeys_dict h lb db Hlb). apply elem_of_keys. eauto. }
        rewrite (grows_prop h ha lb k Hga (lookup_lt_Some _ _ _ Hlb)) in Hstep.
        rewrite (prop_own h lb db k y Hlb Hy) in Hstep.
        pose proof (IH ha _ y x hb (grows_tidy h ha Hga Htidy) Hstep) as Heq.
        pose proof (equal_true_not_nil fuel hb x y Heq (Hdb k y Hy)) as Hx.
        rewrite Hx in Hval. exists x. split; [done |]. split; [done |].
        by apply (equal_true_grows fuel hb).
      - rewrite Hout; [apply lookup_empty |].
        rewrite (getKeys_dict h lb db Hlb), elem_of_keys, Hy. by intros [??]. }
    assert (Hout : tidyObj (ODict (props out))).
    { split.
      - intros k x Hx. specialize (Hchar k). destruct (db !! k) as [y|].
        + destruct Hchar as (x' & Hx' & Hn & _). congruence.
        + congruence.
      - specialize (Hchar "__proto__"). by rewrite Hpb in Hchar. }
    assert (Hg' : grows h1 (h1 ++ [ODict (props out)])) by (by apply grows_alloc).
    assert (Hr : ∃ lr,
              (if bool_decide (da = props out) then VRef la else VRef (length h1))
              = VRef lr ∧
              (h1 ++ [ODict (props out)]) !! lr = Some (ODict (props out)) ∧
              lr ≠ lb).
    { case_bool_decide as Hsame.
      - exists la. split; [done |]. split; [| done].
        apply lookup_grow. rewrite <- Hsame. by apply (grows_lookup _ _ _ _ Hg1).
      - exists (length h1). split; [done |]. split; [apply lookup_fresh |].
        apply lookup_lt_Some in Hlb. apply grows_length in Hg1. lia. }
    destruct Hr as (lr & -> & Hlr & Hnr).
    apply (equal_true_dicts (S fuel) _ lr lb (props out) db Hlr); [| done |].
    { eauto using grows_lookup, grows_trans. }
    split.
    + apply set_eq. intros k. rewrite !elem_of_dom. specialize (Hchar k).
      destruct (db !! k) as [y|].
      * destruct Hchar as (x & -> & _). split; eauto.
      * rewrite Hchar. split; by intros [??].
    + intros k x y Hx Hy. cbn [comparator]. apply equal_true_sym.
      specialize (Hchar k). rewrite Hy in Hchar.
      destruct Hchar as (x' & Hx' & _ & Heq).
      assert (x' = x) as -> by congruence.
      by apply (equal_true_grows fuel h1).
Qed.

(** X11. What [putAny] returns is [next], up to deep equality.  In a store
    whose Dicts hold no null or undefined value and own no property named
    ["__proto__"], whenever [putAny(prev, next)] returns, [equal] of the
    result and [next] is true; and on a store without cycles, with fuel for
    the depth of [next], it does return. *)
Theorem putAny_result_equals_next (fuel : nat) (h : heap) (prev next : val) :
  Forall tidyObj h →
  (∀ r h', putAny fuel prev next h = Ok (r, h') →
     equal fuel h' r next = Some true) ∧
  (ordered h → within h fuel next →
     ∃ r h', putAny fuel prev next h = Ok (r, h') ∧ grows h h' ∧
             equal fuel h' r next = Some true).
Proof.
  intros Htidy. split.
  - intros r h'. by apply putAny_equal_next.
  - intros Ho Hw.
    destruct (putAny_total h fuel prev next Ho Hw [])
      as (r & ext & Hrun & _); [rewrite app_nil_r; by apply tidy_plain |].
    rewrite app_nil_r in Hrun. exists r, (h ++ ext). split; [done |].
    split; [by apply (sound_putAny _ _ _ _ _ _ Hrun) |].
    by apply (putAny_equal_next fuel h prev next).
Qed.

End Returned.

Lemma putAny_result_equals_next_witness :
  ∃ r h',
    putAny (H := quietHost) 4 (VRef 1) (VRef 3)
      [OList [VNum (NInt 1)]; ODict {[ "a" := VRef 0 ]};
       OList [VNum (NInt 1)]; ODict (<["a":=VRef 2]> {[ "b" := VStr "s" ]})] =
      Ok (r, h') ∧
    equal (H := quietHost) 4 h' r (VRef 3) = Some true.
Proof.
  destruct (putAny_result_equals_next (H := quietHost) 4
              [OList [VNum (NInt 1)]; ODict {[ "a" := VRef 0 ]};
               OList [VNum (NInt 1)]; ODict (<["a":=VRef 2]> {[ "b" := VStr "s" ]})]
              (VRef 1) (VRef 3)) as [_ Hret].
  - repeat constructor.
    + apply (cleanMap_insert ∅ "a" (VRef 0) cleanMap_empty eq_refl).
    + apply (cleanMap_insert _ "a" (VRef 2)); [| reflexivity].
      apply (cleanMap_insert ∅ "b" (VStr "s") cleanMap_empty eq_refl).
  - destruct Hret as (r & h' & Hrun & _ & Heq).
    + apply ordered_check. reflexivity.
    + intros l [= <-]. simpl. lia.
    + exists r, h'. split; [exact Hrun | exact Heq].
Defined.

(** ** The empty path *)

Section EmptyPath.
Context `{Host}.

Lemma putIn_nil_path fuel h prev path next :
  isArray h path = true → len h path = 0%nat →
  putIn fuel prev path next h = putAny fuel prev next h.
Proof.
  intros Ha Hlen.
  unfold putIn, bind at 1, validate. simpl.
  assert (Hel : elems h path = []).
  { unfold len in Hlen. by destruct (elems h path). }
  unfold isPath. rewrite Ha, Hel. simpl.
  unfold bind at 1, getIn, bind at 1, validate. simpl. rewrite Ha, Hel. simpl.
  unfold bind.
  destruct (putAny fuel prev next h) as [[r h']| | |] eqn:Hrun; try done.
  destruct (sound_putAny fuel prev next h r h' Hrun) as [Hg _].
  apply isArray_ref in Ha as (l & xs & -> & Hl).
  unfold assocIn, len.
  rewrite (grows_elems h h' l Hg (lookup_lt_Some _ _ _ Hl)), Hel.
  done.
Qed.

(** C10, as the code has it.  With the empty path, [putIn(prev, [], next)]
    is [putAny(prev, next)], the same outcome and the same store.  That is
    [prev] itself when [prev] and [next] are identical, and [next] as it is
    when the two are not both Lists and not both Dicts.  In a store whose
    Dicts hold no null or undefined value and own no property named
    ["__proto__"], it is [prev] itself whenever [equal(prev, next)] is true,
    at whatever depth; what it returns is always deeply equal to [next]; and
    in such a store without cycles, with fuel for the depth of [next], the
    call returns. *)
Theorem putIn_empty_path (fuel : nat) (h : heap) (prev path next : val) :
  isArray h path = true → len h path = 0%nat →
  putIn fuel prev path next h = putAny fuel prev next h ∧
  (is_ prev next = true → putIn fuel prev path next h = Ok (prev, h)) ∧
  (is_ prev next = false →
   isArray h prev && isArray h next = false →
   isDict h prev && isDict h next = false →
   putIn fuel prev path next h = Ok (next, h)) ∧
  (Forall tidyObj h →
   (∀ f, equal f h prev next = Some true → (f < fuel)%nat →
      ∃ h', putIn fuel prev path next h = Ok (prev, h') ∧ grows h h') ∧
   (∀ r h', putIn fuel prev path next h = Ok (r, h') →
      equal fuel h' r next = Some true) ∧
   (ordered h → within h fuel next →
      ∃ r h', putIn fuel prev path next h = Ok (r, h') ∧ grows h h' ∧
              equal fuel h' r next = Some true)).
Proof.
  intros Ha Hlen. rewrite (putIn_nil_path fuel h prev path next Ha Hlen).
  split; [done |]. split; [apply putAny_same |]. split; [apply putAny_atomic |].
  intros Htidy. split; [| split].
  - intros f Heq Hf.
    destruct (putAny_equal_returns_prev f h Htidy fuel prev next Hf Heq [])
      as (ext & Hrun).
    rewrite app_nil_r in Hrun. exists (h ++ ext). split; [done |].
    by apply (sound_putAny _ _ _ _ _ _ Hrun).
  - intros r h'. by apply putAny_equal_next.
  - intros Ho Hw.
    destruct (putAny_total h fuel prev next Ho Hw [])
      as (r & ext & Hrun & _); [rewrite app_nil_r; by apply tidy_plain |].
    rewrite app_nil_r in Hrun. exists r, (h ++ ext). split; [done |].
    split; [by apply (sound_putAny _ _ _ _ _ _ Hrun) |].
    by apply (putAny_equal_next fuel h prev next).
Qed.

End EmptyPath.

Lemma putIn_empty_path_witness :
  putIn (H := quietHost) 1 (VRef 0) (VRef 2) (VRef 1)
    [OList [VNum (NInt 1)]; OList [VNum (NInt 1)]; OList []] =
  Ok (VRef 0,
      [OList [VNum (NInt 1)]; OList [VNum (NInt 1)]; OList [];
       OList [VNum (NInt 1)]]).
Proof.
  destruct (putIn_empty_path (H := quietHost) 1
              [OList [VNum (NInt 1)]; OList [VNum (NInt 1)]; OList []]
              (VRef 0) (VRef 2) (VRef 1) eq_refl eq_refl) as (Heq & _).
  rewrite Heq. reflexivity.
Defined.

(** C10, as the spec words it, fails on Dicts that hold a nullish value: for
    [prev = {a: null}] and [next = {a: null}], which [equal] finds equal,
    [putIn(prev, [], next)] is a new, empty Dict: not [prev] itself, and not
    equal to [next]. *)
Lemma putIn_empty_path_drops_nullish :
  equal (H := quietHost) 1
    [ODict {[ "a" := VNull ]}; ODict {[ "a" := VNull ]}; OList []]
    (VRef 0) (VRef 1) = Some true ∧
  putIn (H := quietHost) 1 (VRef 0) (VRef 2) (VRef 1)
    [ODict {[ "a" := VNull ]}; ODict {[ "a" := VNull ]}; OList []] =
    Ok (VRef 3,
        [ODict {[ "a" := VNull ]}; ODict {[ "a" := VNull ]}; OList []; ODict ∅]) ∧
  VRef 3 ≠ VRef 0 ∧
  equal (H := quietHost) 1
    [ODict {[ "a" := VNull ]}; ODict {[ "a" := VNull ]}; OList []; ODict ∅]
    (VRef 3) (VRef 1) = Some false.
Proof. repeat split; try reflexivity. discriminate. Qed.

(** ** Writing an equal value *)

Section PutEqual.
Context `{Host}.

(** X12. Writing a value that is deeply equal to the one held keeps the
    reference.  In a store whose Dicts hold no null or undefined value and
    own no property named ["__proto__"], let [cur] be [get(v, key)] for a
    primitive key, and let [equal(cur, x)] be true.  If [v] is a Dict that
    does not hold a nullish value under [key], or a List and [key] a natural
    number below its length (and below [10 ^ 21], as every index is), then
    [put(v, key, x)] returns [v] itself; the store gains only the copies
    that were made to compare. *)
Theorem put_equal_keeps_reference (f fuel : nat) (h : heap) (v key x cur : val) :
  Forall tidyObj h →
  isPrimitive h key = true →
  get h v key = Ok cur →
  equal f h cur x = Some true → (f < fuel)%nat →
  (isDict h v = true ∧ (has h v (toKey key) = true → isNil cur = false)) ∨
  (isArray h v = true ∧
   ∃ i : nat, key = VNum (NInt (Z.of_nat i)) ∧ (i < len h v)%nat ∧
              (Z.of_nat i < 10 ^ 21)%Z) →
  ∃ h', put fuel v key x h = Ok (v, h') ∧ grows h h'.
Proof.
  intros Htidy Hp Hget Heq Hf Hv.
  assert (Hnn : isNil v = false).
  { destruct Hv as [[Hd _] | [Ha _]];
      [by eapply isDict_not_nil | by eapply isArray_not_nil]. }
  assert (Hcur : cur = prop h v (toKey key)).
  { rewrite (get_primitive h v key Hp) in Hget. unfold getPrim in Hget.
    rewrite Hnn in Hget. congruence. }
  destruct (putAny_equal_returns_prev f h Htidy fuel cur x Hf Heq [])
    as (ext & Hrun).
  rewrite app_nil_r in Hrun.
  assert (Hg : grows h (h ++ ext)) by (by apply (sound_putAny _ _ _ _ _ _ Hrun)).
  exists (h ++ ext). split; [| done].
  unfold put. rewrite (bind_Ok _ _ h tt h (validate_Ok h _ IsPrimitive Hp)).
  assert (Hm : getM v key h = Ok (cur, h)) by (unfold getM; by rewrite Hget).
  rewrite (bind_Ok _ _ _ _ _ Hm), (bind_Ok _ _ _ _ _ Hrun).
  unfold assoc. destruct Hv as [[Hd Hnil] | [Ha (i & -> & Hi & Hbig)]].
  - pose proof Hd as (l & d & -> & Hl)%isDict_ref.
    pose proof (isDict_grows h (h ++ ext) _ Hg Hd) as Hd'.
    rewrite (isDict_not_array _ _ Hd').
    rewrite (bind_Ok _ _ _ _ _ (alwaysDict_dict _ _ Hd')).
    apply assocAtKey_same.
    rewrite (grows_has h _ l _ Hg (lookup_lt_Some _ _ _ Hl)).
    rewrite (grows_prop h _ l _ Hg (lookup_lt_Some _ _ _ Hl)).
    destruct (isNil cur) eqn:Hn; [| done].
    destruct (has h (VRef l) (toKey key)); [| done].
    specialize (Hnil eq_refl). congruence.
  - pose proof Ha as (l & xs & -> & Hl)%isArray_ref.
    assert (Ha' : isArray (h ++ ext) (VRef l) = true)
      by (apply isArray_ref; eauto using grows_lookup).
    rewrite Ha'.
    assert (Hi' : (i < length xs)%nat).
    { unfold len, elems in Hi. by rewrite Hl in Hi. }
    assert (Hel : elems (h ++ ext) (VRef l) = elems h (VRef l))
      by (apply (grows_elems h _ l Hg), (lookup_lt_Some _ _ _ Hl)).
    assert (Hat : cur = at_ (h ++ ext) (VRef l) i).
    { rewrite Hcur, (toKey_index i Hbig).
      rewrite (prop_list_index h l xs i Hl Hi'). unfold at_. by rewrite Hel. }
    rewrite Hat. apply assocAtIndex_same. unfold len. by rewrite Hel.
Qed.

End PutEqual.

Lemma put_equal_keeps_reference_witness :
  ∃ h',
    put (H := quietHost) 2 (VRef 1) (VStr "a") (VRef 2)
      [OList [VNum (NInt 1)]; ODict {[ "a" := VRef 0 ]}; OList [VNum (NInt 1)]] =
    Ok (VRef 1, h').
Proof.
  destruct (put_equal_keeps_reference (H := quietHost) 1 2
              [OList [VNum (NInt 1)]; ODict {[ "a" := VRef 0 ]};
               OList [VNum (NInt 1)]]
              (VRef 1) (VStr "a") (VRef 2) (VRef 0)) as (h' & Hrun & _).
  - repeat constructor.
    apply (cleanMap_insert ∅ "a" (VRef 0) cleanMap_empty eq_refl).
  - reflexivity.
  - reflexivity.
  - reflexivity.
  - lia.
  - left. split; [reflexivity | reflexivity].
  - exists h'. exact Hrun.
Defined.

(** ** Patching with nothing new *)

Section PatchEqual.
Context `{Host}.

Lemma patchDictBy_equal_returns_prev f h fuel lp ln dp dn :
  Forall tidyObj h →
  h !! lp = Some (ODict dp) → h !! ln = Some (ODict dn) →
  (∀ k y, dn !! k = Some y →
     ∃ x, dp !! k = Some x ∧ equal f h x y = Some true) →
  (f < fuel)%nat →
  returns_from h (patchDictBy (VRef lp) (VRef ln) (putAny fuel)) (VRef lp).
Proof.
  intros Htidy Hp Hn Hsub Hf ext.
  destruct (tidy_lookup h lp dp Htidy Hp) as [Hcp Hpp].
  destruct (tidy_lookup h ln dn Htidy Hn) as [Hcn Hpn].
  unfold patchDictBy. unfold bind at 1, reads at 1.
  unfold bind at 1, reads at 1. unfold bind at 1, reads at 1.
  rewrite (getKeys_grow h ext ln (lookup_lt_Some _ _ _ Hn)).
  set (out0 := foldl (keepKey (h ++ ext) (VRef lp) (VRef ln)) blank
                 (getKeys (h ++ ext) (VRef lp))).
  set (g := λ key : string, prop h (VRef lp) key).
  assert (Hm : returns_from h
            (foldM (putKeyBy (VRef lp) (VRef ln) (putAny fuel))
               (getKeys h (VRef ln)) out0)
            (foldl (λ out key,
                      if negb (isNil (g key)) then write out key (g key) else out)
               out0 (getKeys h (VRef ln)))).
  { apply returns_foldM. intros out key Hkey.
    rewrite (getKeys_dict h ln dn Hn) in Hkey.
    apply elem_of_keys in Hkey as [y Hy].
    destruct (Hsub key y Hy) as (x & Hx & Heq).
    assert (Hg : g key = x) by (by apply (prop_own h lp dp key)).
    rewrite Hg.
    assert ((if negb (isNil x) then write out key x else out) =
            (if isNil x then out else write out key x)) as ->
      by (by destruct (isNil x)).
    unfold putKeyBy. eapply returns_bind; [| apply returns_ret].
    intros ext1.
    rewrite (prop_grow h ext1 lp key (lookup_lt_Some _ _ _ Hp)).
    rewrite (prop_grow h ext1 ln key (lookup_lt_Some _ _ _ Hn)).
    rewrite (prop_own h lp dp key x Hp Hx), (prop_own h ln dn key y Hn Hy).
    apply (putAny_equal_returns_prev f h Htidy fuel x y Hf Heq). }
  destruct (Hm ext) as (e1 & Hrun). rewrite (bind_Ok _ _ _ _ _ Hrun).
  assert (Hkn : "__proto__" ∉ getKeys h (VRef ln)).
  { rewrite (getKeys_dict h ln dn Hn), elem_of_keys, Hpn. by intros [??]. }
  assert (Hkp : "__proto__" ∉ getKeys (h ++ ext) (VRef lp)).
  { rewrite (getKeys_dict _ lp dp (lookup_grow h ext lp _ Hp)), elem_of_keys, Hpp.
    by intros [??]. }
  assert (Hw0 : whole out0) by (by apply keepKey_fold_whole, whole_blank).
  assert (Hw : whole (foldl (λ out key,
                        if negb (isNil (g key)) then write out key (g key) else out)
                        out0 (getKeys h (VRef ln))))
    by (by apply foldl_write_whole).
  rewrite (whole_eta _ (proj1 Hw)).
  assert (Hout : props (foldl (λ out key,
                          if negb (isNil (g key)) then write out key (g key)
                          else out)
                          out0 (getKeys h (VRef ln))) = dp).
  { apply map_eq. intros k.
    rewrite (foldl_write_lookup (λ key, negb (isNil (g key))) g) by done.
    unfold out0, g.
    rewrite (keepKey_dict_lookup (h ++ ext) lp dp (VRef ln) k
               (lookup_grow h ext lp _ Hp) Hpp).
    rewrite (has_dict (h ++ ext) ln dn k (lookup_grow h ext ln _ Hn)).
    rewrite (getKeys_dict h ln dn Hn).
    destruct (dp !! k) as [x|] eqn:Hx.
    - rewrite (prop_own h lp dp k x Hp Hx), (Hcp k x Hx).
      cbn [negb andb]. rewrite andb_true_r.
      case_bool_decide as Hin; [done |].
      rewrite bool_decide_eq_false_2; [done |].
      intros Hk. apply Hin. by apply elem_of_keys.
    - rewrite bool_decide_eq_false_2; [done |].
      rewrite elem_of_keys. intros [y Hy].
      destruct (Hsub k y Hy) as (x & Hx' & _). congruence. }
  rewrite Hout.
  rewrite (settle_dict _ lp dp dp
             (lookup_grow _ e1 lp _ (lookup_grow h ext lp _ Hp))).
  rewrite bool_decide_eq_true_2 by done.
  exists (e1 ++ [ODict dp]). by rewrite !app_assoc.
Qed.

(** X13. Patching with nothing new keeps the reference.  In a store whose
    Dicts hold no null or undefined value and own no property named
    ["__proto__"], if every entry of the Dict [next] is deeply equal to what
    the Dict [prev] holds under the same key, then [patch(prev, next)]
    returns [prev] itself. *)
Theorem patch_equal_keeps_reference (f fuel : nat) (h : heap) (lp ln : nat)
    (dp dn : gmap string val) :
  Forall tidyObj h →
  h !! lp = Some (ODict dp) → h !! ln = Some (ODict dn) →
  (∀ k y, dn !! k = Some y →
     ∃ x, dp !! k = Some x ∧ equal f h x y = Some true) →
  (f < fuel)%nat →
  ∃ h', patch fuel [VRef lp; VRef ln] h = Ok (VRef lp, h') ∧ grows h h'.
Proof.
  intros Htidy Hp Hn Hsub Hf.
  destruct (decide (lp = ln)) as [<- | Hne].
  - exists h. split; [| apply grows_refl].
    unfold patch. cbn [length]. rewrite decide_False by lia.
    unfold patchTwoDicts, arg. cbn [lookup list_lookup default].
    assert (Hdp : isDict h (VRef lp) = true) by (apply isDict_ref; eauto).
    rewrite !(bind_Ok _ _ _ _ _ (alwaysDict_dict h _ Hdp)).
    by rewrite is_refl.
  - rewrite (patchTwoDicts_distinct fuel h lp ln dp dn Hp Hn Hne).
    destruct (patchDictBy_equal_returns_prev f h fuel lp ln dp dn
                Htidy Hp Hn Hsub Hf []) as (ext & Hrun).
    rewrite app_nil_r in Hrun. exists (h ++ ext). split; [done |].
    by apply (sound_patchDictBy _ (sound_putAny fuel) _ _ _ _ _ Hrun).
Qed.

End PatchEqual.

Lemma patch_equal_keeps_reference_witness :
  ∃ h',
    patch (H := quietHost) 2 [VRef 1; VRef 3]
      [OList [VNum (NInt 1)];
       ODict (<["a":=VRef 0]> {[ "b" := VStr "s" ]});
       OList [VNum (NInt 1)]; ODict {[ "a" := VRef 2 ]}] = Ok (VRef 1, h').
Proof.
  destruct (patch_equal_keeps_reference (H := quietHost) 1 2
              [OList [VNum (NInt 1)];
               ODict (<["a":=VRef 0]> {[ "b" := VStr "s" ]});
               OList [VNum (NInt 1)]; ODict {[ "a" := VRef 2 ]}]
              1 3 (<["a":=VRef 0]> {[ "b" := VStr "s" ]}) {[ "a" := VRef 2 ]})
    as (h' & Hrun & _).
  - repeat constructor.
    + apply (cleanMap_insert _ "a" (VRef 0)); [| reflexivity].
      apply (cleanMap_insert ∅ "b" (VStr "s") cleanMap_empty eq_refl).
    + apply (cleanMap_insert ∅ "a" (VRef 2) cleanMap_empty eq_refl).
  - reflexivity.
  - reflexivity.
  - intros k y Hy. apply lookup_singleton_Some in Hy as [<- <-].
    exists (VRef 0). split; reflexivity.
  - lia.
  - exists h'. exact Hrun.
Defined.

(** ** Transitivity of deep equality *)

Section Transitive.
Context `{Host}.

Lemma equal_trans_step n h :
  (∀ x y z, comparator n h y x = Some true → comparator n h z y = Some true →
     comparator n h z x = Some true) →
  ∀ a b c,
    equal n h a b = Some true → equal n h b c = Some true →
    equal n h a c = Some true.
Proof.
  intros Hchild a b c Hab Hbc.
  destruct (equal_true_inv _ h a b Hab)
    as [-> | [(la & lb & xs & ys & -> & -> & Hne & Hla & Hlb)
             | (la & lb & da & db & -> & -> & Hne & Hla & Hlb)]]; [done | |];
    (destruct (equal_true_inv _ h _ c Hbc)
       as [<- | [(lb' & lc & ys' & zs & [= <-] & -> & Hne' & Hlb' & Hlc)
                | (lb' & lc & db' & dc & [= <-] & -> & Hne' & Hlb' & Hlc)]];
     [done | |]); try congruence.
  - assert (ys' = ys) as -> by congruence.
    destruct (decide (la = lc)) as [-> | Hac]; [apply equal_same |].
    destruct (proj1 (equal_true_lists _ h la lb xs ys Hla Hlb Hne) Hab)
      as [Hlen1 Hall1].
    destruct (proj1 (equal_true_lists _ h lb lc ys zs Hlb Hlc Hne') Hbc)
      as [Hlen2 Hall2].
    apply (equal_true_lists _ h la lc xs zs Hla Hlc Hac).
    split; [congruence |]. intros i x z Hx Hz.
    destruct (ys !! i) as [y|] eqn:Hy.
    + apply (Hchild x y z); [by apply (Hall1 i) | by apply (Hall2 i)].
    + apply lookup_ge_None in Hy. apply lookup_lt_Some in Hx. lia.
  - assert (db' = db) as -> by congruence.
    destruct (decide (la = lc)) as [-> | Hac]; [apply equal_same |].
    destruct (proj1 (equal_true_dicts _ h la lb da db Hla Hlb Hne) Hab)
      as [Hdom1 Hall1].
    destruct (proj1 (equal_true_dicts _ h lb lc db dc Hlb Hlc Hne') Hbc)
      as [Hdom2 Hall2].
    apply (equal_true_dicts _ h la lc da dc Hla Hlc Hac).
    split; [congruence |]. intros k x z Hx Hz.
    assert (Hy : is_Some (db !! k)).
    { apply elem_of_dom. rewrite <- Hdom1. apply elem_of_dom. eauto. }
    destruct Hy as [y Hy].
    apply (Hchild x y z); [by apply (Hall1 k) | by apply (Hall2 k)].
Qed.

(** X14. [equal] is transitive: with the same fuel, if it answers true on [a]
    and [b] and on [b] and [c], it answers true on [a] and [c]. *)
Theorem equal_transitive (fuel : nat) (h : heap) (a b c : val) :
  equal fuel h a b = Some true → equal fuel h b c = Some true →
  equal fuel h a c = Some true.
Proof.
  revert a b c. induction fuel as [|fuel IH]; intros a b c.
  - apply equal_trans_step. by intros x y z Hxy.
  - apply equal_trans_step. intros x y z Hyx Hzy. cbn [comparator] in *.
    by apply (IH z y x).
Qed.

End Transitive.

Lemma equal_transitive_witness :
  equal (H := quietHost) 1 [OList [VNum (NInt 1)]; OList [VNum (NInt 1)]; OList [VNum (NInt 1)]]
    (VRef 0) (VRef 2) = Some true.
Proof.
  apply (equal_transitive (H := quietHost) 1
           [OList [VNum (NInt 1)]; OList [VNum (NInt 1)]; OList [VNum (NInt 1)]]
           (VRef 0) (VRef 1) (VRef 2)); reflexivity.
Defined.

(** ** Dicts that come from [next] *)

Section FromNext.
Context `{Host}.

Lemma patchDictBy_prev_or_new fn h lp dp next r h' :
  (∀ p n, sound (fn p n) (λ _, True)) →
  h !! lp = Some (ODict dp) →
  patchDictBy (VRef lp) next fn h = Ok (r, h') →
  r = VRef lp ∨ ∃ lr, r = VRef lr ∧ (length h ≤ lr)%nat.
Proof.
  intros Hfn Hp Hrun. unfold patchDictBy in Hrun.
  unfold bind at 1, reads at 1 in Hrun. unfold bind at 1, reads at 1 in Hrun.
  unfold bind at 1, reads at 1 in Hrun.
  destruct (foldM (putKeyBy (VRef lp) next fn) (getKeys h next)
              (foldl (keepKey h (VRef lp) next) blank (getKeys h (VRef lp))) h)
    as [[out h1]| | |] eqn:Hfold;
    [| by rewrite (bind_Throw _ _ _ _ Hfold) in Hrun
     | by rewrite (bind_Exhausted _ _ _ Hfold) in Hrun
     | by rewrite (bind_Escapes _ _ _ Hfold) in Hrun].
  rewrite (bind_Ok _ _ _ _ _ Hfold) in Hrun.
  assert (Hg : grows h h1).
  { eapply (sound_foldM _ tidyDraft _ _
              (λ b x Hb, sound_putKeyBy _ Hfn _ _ b x Hb)); [| done].
    apply tidyDraft_keepKey, tidyDraft_blank. }
  destruct (seal out h1) as [[o h2]| | |] eqn:Hseal;
    [| by rewrite (bind_Throw _ _ _ _ Hseal) in Hrun
     | by rewrite (bind_Exhausted _ _ _ Hseal) in Hrun
     | by rewrite (bind_Escapes _ _ _ Hseal) in Hrun].
  rewrite (bind_Ok _ _ _ _ _ Hseal) in Hrun.
  apply seal_Ok in Hseal as (_ & -> & ->).
  unfold reads in Hrun. injection Hrun as <- <-. case_match; [by left | right].
  exists (length h1). split; [done | by apply grows_length].
Qed.

(** X15. [merge] does not share the Dicts of [next].  Let [next] be a Dict,
    in a store without cycles in which no Dict owns a property named
    ["__proto__"], with fuel for the depth of [next].  Then
    [mergeOrPut(prev, next)], which [merge] applies under every key,
    returns, and what it returns is [prev] itself or a Dict made by the
    call, so it is [next] only when [next] is [prev]; [putAny], which
    [patch] applies, returns the reference [next] itself when [prev] is not
    a Dict. *)
Theorem merge_copies_next_dicts (fuel : nat) (h : heap) (prev next : val) :
  isDict h next = true →
  (Forall plainObj h → ordered h → within h fuel next →
   ∃ r h',
     mergeOrPut (S fuel) prev next h = Ok (r, h') ∧ grows h h' ∧
     (r = prev ∨
      (∃ lr, r = VRef lr ∧ (length h ≤ lr)%nat ∧ isDict h' r = true ∧
             r ≠ next))) ∧
  (isDict h prev = false → putAny fuel prev next h = Ok (next, h)).
Proof.
  intros Hdn. split.
  - intros Hpl Ho Hw.
    destruct (mergeTwo_total h fuel prev next Ho Hw [])
      as (r & ext & Hrun & _); [by rewrite app_nil_r |].
    rewrite app_nil_r in Hrun. exists r, (h ++ ext).
    unfold mergeOrPut. rewrite Hdn. split; [done |].
    split; [by apply (sound_mergeTwo _ _ _ _ _ _ Hrun) |].
    destruct (is_ prev next) eqn:Hi.
    { rewrite (mergeTwo_same (S fuel) prev next h Hi) in Hrun.
      injection Hrun as <- _. by left. }
    rewrite (mergeTwo_unfold fuel prev next h Hi) in Hrun.
    pose proof Hdn as (ln & dn & -> & Hln)%isDict_ref.
    assert (Hfresh : ∀ lr, (length h ≤ lr)%nat → VRef lr ≠ VRef ln).
    { intros lr Hlr [= ->]. apply lookup_lt_Some in Hln. lia. }
    destruct (isDict h prev) eqn:Hdp.
    + pose proof Hdp as (lp & dp & -> & Hlp)%isDict_ref.
      assert (Hp : toDict (VRef lp) h = Ok (VRef lp, h))
        by (unfold toDict; by rewrite Hdp).
      assert (Hn : toDict (VRef ln) h = Ok (VRef ln, h))
        by (unfold toDict; by rewrite Hdn).
      rewrite (bind_Ok _ _ _ _ _ Hp), (bind_Ok _ _ _ _ _ Hn) in Hrun.
      pose proof (patchDictBy_returns_dict (mergeOrPut fuel) h _ _ r _
                    (sound_mergeOrPut fuel) Hdp Hrun) as Hdr.
      destruct (patchDictBy_prev_or_new (mergeOrPut fuel) h lp dp _ r _
                  (sound_mergeOrPut fuel) Hlp Hrun) as [-> | (lr & -> & Hlr)];
        [by left | right].
      exists lr. split; [done |]. split; [done |]. split; [done |].
      by apply Hfresh.
    + assert (Hp : toDict prev h = Ok (VRef (length h), h ++ [ODict ∅]))
        by (unfold toDict; by rewrite Hdp).
      assert (Hdn' : isDict (h ++ [ODict ∅]) (VRef ln) = true)
        by (apply isDict_ref; eauto using lookup_grow).
      assert (Hn : toDict (VRef ln) (h ++ [ODict ∅]) = Ok (VRef ln, h ++ [ODict ∅]))
        by (unfold toDict; by rewrite Hdn').
      rewrite (bind_Ok _ _ _ _ _ Hp), (bind_Ok _ _ _ _ _ Hn) in Hrun.
      assert (Hd0 : isDict (h ++ [ODict ∅]) (VRef (length h)) = true)
        by (apply isDict_ref; eauto using lookup_fresh).
      pose proof (patchDictBy_returns_dict (mergeOrPut fuel) _ _ _ r _
                    (sound_mergeOrPut fuel) Hd0 Hrun) as Hdr.
      right.
      destruct (patchDictBy_prev_or_new (mergeOrPut fuel) _ (length h) ∅ _ r _
                  (sound_mergeOrPut fuel) (lookup_fresh h _) Hrun)
        as [-> | (lr & -> & Hlr)].
      * exists (length h). split; [done |]. split; [done |].
        split; [done | by apply Hfresh].
      * rewrite length_app in Hlr. cbn [length] in Hlr.
        exists lr. split; [done |]. split; [lia |].
        split; [done | apply Hfresh; lia].
  - intros Hdp. apply putAny_atomic.
    + apply is_false. intros ->. congruence.
    + by rewrite (isDict_not_array h next Hdn), andb_false_r.
    + by rewrite Hdp.
Qed.

End FromNext.

Lemma merge_copies_next_dicts_witness :
  (∃ r h',
     mergeOrPut (H := quietHost) 2 (VNum (NInt 1)) (VRef 0)
       [ODict {[ "x" := VNum (NInt 1) ]}] = Ok (r, h') ∧ r ≠ VRef 0) ∧
  putAny (H := quietHost) 1 (VNum (NInt 1)) (VRef 0)
    [ODict {[ "x" := VNum (NInt 1) ]}] =
    Ok (VRef 0, [ODict {[ "x" := VNum (NInt 1) ]}]).
Proof.
  destruct (merge_copies_next_dicts (H := quietHost) 1
              [ODict {[ "x" := VNum (NInt 1) ]}]
              (VNum (NInt 1)) (VRef 0)) as [Hmerge Hput]; [reflexivity |].
  split; [| apply Hput; reflexivity].
  destruct Hmerge as (r & h' & Hrun & _ & Hr).
  - repeat constructor.
  - apply ordered_check. reflexivity.
  - intros l [= <-]. simpl. lia.
  - exists r, h'. split; [exact Hrun |].
    destruct Hr as [-> | (lr & -> & _ & _ & Hne)]; [discriminate | exact Hne].
Defined.

(** ** A nullish first argument *)

Section NullishPrev.
Context `{Host}.

Lemma atomic_grows h ext v : atomic h v → atomic (h ++ ext) v.
Proof.
  destruct v as [| | | | |l]; try done. intros (c & ps & Hl).
  exists c, ps. by apply lookup_grow.
Qed.

Lemma putAny_atomic_prev fuel h prev next :
  atomic h prev → putAny fuel prev next h = Ok (next, h).
Proof.
  intros Ha. destruct (is_ prev next) eqn:Hi.
  - rewrite (putAny_same fuel prev next h Hi). apply is_spec in Hi. by subst.
  - apply putAny_atomic; [done | |].
    + assert (isArray h prev = false) as ->; [| done].
      destruct (isArray h prev) eqn:Hp; [| done].
      apply isArray_ref in Hp as (l & xs & -> & Hl).
      destruct Ha as (c & ps & Hl'). congruence.
    + assert (isDict h prev = false) as ->; [| done].
      destruct (isDict h prev) eqn:Hp; [| done].
      apply isDict_ref in Hp as (l & xs & -> & Hl).
      destruct Ha as (c & ps & Hl'). congruence.
Qed.

(** X16. [patch] with a nullish first argument copies.  Let [v] be a Dict, in
    a store in which no Dict owns a property named ["__proto__"], and let
    the empty Dict inherit no List and no Dict under a key of [v] (it
    inherits functions, under such names as [toString]).  Then
    [patch(undefined, v)] returns a Dict that is not [v] and was not in the
    store, holding what [v] holds under each key, the same values, with the
    nullish ones left out.  No descent is made: the call returns whatever
    the fuel and whatever [v] holds. *)
Theorem patch_nullish_prev_copies (fuel : nat) (h : heap) (p : val) (lv : nat)
    (dv : gmap string val) :
  isNil p = true → h !! lv = Some (ODict dv) → Forall plainObj h →
  (∀ k, is_Some (dv !! k) → atomic h (inherited (VRef (length h)) k)) →
  ∃ lr h' dr,
    patch fuel [p; VRef lv] h = Ok (VRef lr, h') ∧ grows h h' ∧
    h' !! lr = Some (ODict dr) ∧ (length h ≤ lr)%nat ∧
    ∀ k, dr !! k = match dv !! k with
                   | Some x => if isNil x then None else Some x
                   | None => None
                   end.
Proof.
  intros Hp Hv Hpl Hinh.
  set (h0 := h ++ [ODict ∅]).
  assert (H0 : h0 !! length h = Some (ODict ∅)) by apply lookup_fresh.
  assert (Hv0 : h0 !! lv = Some (ODict dv)) by (by apply lookup_grow).
  assert (Hg0 : grows h h0) by (apply (grows_alloc h (ODict ∅)), tidyObj_empty).
  assert (Hpl0 : Forall plainObj h0) by (by apply (grows_plain h h0)).
  assert (Hne : length h ≠ lv) by (apply lookup_lt_Some in Hv; lia).
  assert (Hstart : patch fuel [p; VRef lv] h =
            patchDictBy (VRef (length h)) (VRef lv) (putAny fuel) h0).
  { unfold patch. cbn [length]. rewrite decide_False by lia.
    unfold patchTwoDicts, arg. cbn [lookup list_lookup default].
    rewrite (bind_Ok _ _ _ _ _ (alwaysDict_nil h p Hp)).
    assert (Hd : isDict h0 (VRef lv) = true) by (apply isDict_ref; eauto).
    rewrite (bind_Ok _ _ _ _ _ (alwaysDict_dict h0 _ Hd)).
    assert (is_ (VRef (length h)) (VRef lv) = false) as ->
      by (apply is_false; congruence).
    done. }
  assert (Hread : ∀ k ext, is_Some (dv !! k) →
            atomic (h0 ++ ext) (prop (h0 ++ ext) (VRef (length h)) k)).
  { intros k ext Hk.
    rewrite (prop_grow h0 ext (length h) k (lookup_lt_Some _ _ _ H0)).
    rewrite (prop_dict h0 (length h) ∅ k H0), lookup_empty. cbn [default].
    unfold h0. rewrite <- app_assoc. by apply atomic_grows, Hinh. }
  assert (Ht : total_from h0 (patchDictBy (VRef (length h)) (VRef lv) (putAny fuel))
                 (λ _, True)).
  { apply total_patchDictBy. intros ext key Hkey ext'.
    rewrite (getKeys_grow h0 ext lv (lookup_lt_Some _ _ _ Hv0)),
      (getKeys_dict h0 lv dv Hv0) in Hkey. apply elem_of_keys in Hkey.
    intros ext'' Hpl''.
    rewrite (putAny_atomic_prev fuel (h0 ++ ext'')).
    - eexists _, []. by rewrite app_nil_r.
    - rewrite (prop_grow h0 ext' (length h) key (lookup_lt_Some _ _ _ H0)).
      rewrite <- (prop_grow h0 ext'' (length h) key (lookup_lt_Some _ _ _ H0)).
      by apply Hread. }
  destruct (Ht []) as (r & ext & Hrun & _); [by rewrite app_nil_r |].
  rewrite app_nil_r in Hrun.
  destruct (patchDictBy_contents (putAny fuel) h0 (length h) lv ∅ dv r _
              (sound_putAny fuel) H0 Hv0 (lookup_empty _)
              (plain_lookup h lv dv Hpl Hv) Hrun)
    as (lr & dr & -> & Hg & Hlr & Hsame & Hnew & Hk).
  exists lr, (h0 ++ ext), dr. rewrite Hstart. split; [done |].
  split; [by eapply grows_trans |]. split; [done |]. split.
  - destruct (decide (dr = ∅)) as [He | He].
    + rewrite (Hsame He). lia.
    + rewrite (Hnew He). unfold h0. rewrite !length_app. cbn [length]. lia.
  - intros k. specialize (Hk k). destruct (dv !! k) as [y|] eqn:Hy.
    + destruct Hk as (x & h1 & h2 & (e1 & -> & _) & _ & Hx & ->).
      rewrite (putAny_atomic_prev fuel (h0 ++ e1)) in Hx.
      * injection Hx as <- _. by destruct (isNil y).
      * rewrite <- (prop_grow h0 e1 (length h) k (lookup_lt_Some _ _ _ H0)).
        apply Hread. by rewrite Hy.
    + by rewrite lookup_empty in Hk.
Qed.

End NullishPrev.

Lemma patch_nullish_prev_copies_witness :
  ∃ lr h' dr,
    patch (H := quietHost) 0 [VUndef; VRef 1] [OList []; ODict {[ "a" := VRef 0 ]}] =
      Ok (VRef lr, h') ∧
    h' !! lr = Some (ODict dr) ∧ (2 ≤ lr)%nat ∧ dr !! "a" = Some (VRef 0).
Proof.
  destruct (patch_nullish_prev_copies (H := quietHost) 0
              [OList []; ODict {[ "a" := VRef 0 ]}]
              VUndef 1 {[ "a" := VRef 0 ]})
    as (lr & h' & dr & Hrun & _ & Hlr & Hfresh & Hk);
    [reflexivity | reflexivity | repeat constructor | intros k _; exact I |].
  exists lr, h', dr. split; [exact Hrun |]. split; [exact Hlr |].
  split; [exact Hfresh | exact (Hk "a")].
Defined.

(** ** More than two arguments *)

Lemma bind_ret_r {A} (c : M A) h : (let* x := c in ret x) h = c h.
Proof. unfold bind, ret. by destruct (c h) as [[a h1]| | |]. Qed.

Section Variadic.
Context `{Host}.

Lemma reduce_fold fn (a b c : val) (rest : list val) h :
  reduce fn (a :: b :: c :: rest) h =
    (let* r := fn a b in
     if decide (2 < length (r :: c :: rest))%nat then reduce fn (r :: c :: rest)
     else fn (arg (r :: c :: rest) 0) (arg (r :: c :: rest) 1)) h.
Proof.
  cbn [reduce foldM]. unfold bind at 1 3.
  destruct (fn a b h) as [[r h1]| | |]; [| done | done | done].
  destruct rest as [|d rest].
  - cbn [length]. rewrite decide_False by lia.
    unfold arg. cbn [lookup list_lookup default foldM]. apply bind_ret_r.
  - cbn [length]. rewrite decide_True by lia. done.
Qed.

(** X17. With more than two arguments [patch] and [merge] work from the
    left: [patch(a, b, c, ...)] is [patch(patch(a, b), c, ...)], with the same
    result, the same store and the same error, and likewise [merge]. *)
Theorem variadic_from_the_left (fuel : nat) (a b c : val) (rest : list val)
    (h : heap) :
  patch fuel (a :: b :: c :: rest) h =
    (let* r := patch fuel [a; b] in patch fuel (r :: c :: rest)) h ∧
  merge fuel (a :: b :: c :: rest) h =
    (let* r := merge fuel [a; b] in merge fuel (r :: c :: rest)) h.
Proof.
  split.
  - unfold patch at 1. cbn [length]. rewrite decide_True by lia.
    apply (reduce_fold (patchTwoDicts fuel)).
  - unfold merge at 1. cbn [length]. rewrite decide_True by lia.
    apply (reduce_fold (mergeTwoDicts fuel)).
Qed.

End Variadic.

(** ** Writing an equal value along a path *)

Section PutInEqual.
Context `{Host}.

Lemma dictPath_grows h h1 keys :
  grows h h1 →
  ∀ v, dictPath h v keys = true →
    dictPath h1 v keys = true ∧
    foldl (getPrim h1) v keys = foldl (getPrim h) v keys.
Proof.
  intros Hg. induction keys as [|key rest IH]; intros v Hpath; [done |].
  cbn [dictPath foldl] in *. apply andb_true_iff in Hpath as [Hd Hrest].
  pose proof Hd as (l & d & -> & Hl)%isDict_ref.
  assert (Hsame : getPrim h1 (VRef l) key = getPrim h (VRef l) key).
  { unfold getPrim. cbn [isNil].
    apply (grows_prop h h1 l _ Hg (lookup_lt_Some _ _ _ Hl)). }
  rewrite Hsame, (isDict_grows h h1 _ Hg Hd). by apply IH.
Qed.

Lemma assoc_dict_same h l d key :
  cleanMap d → h !! l = Some (ODict d) →
  assoc (VRef l) key (prop h (VRef l) (toKey key)) h = Ok (VRef l, h).
Proof.
  intros Hc Hl. rewrite (assoc_dict h l d key _ Hl). apply assocAtKey_same.
  destruct (isNil (prop h (VRef l) (toKey key))) eqn:Hn; [| done].
  rewrite (has_dict h l d _ Hl).
  destruct (d !! toKey key) as [z|] eqn:Hz.
  - rewrite (prop_own h l d _ z Hl Hz) in Hn. by rewrite (Hc _ z Hz) in Hn.
  - apply bool_decide_eq_false_2. by intros [??].
Qed.

Lemma assocInAt_same h0 h keys :
  Forall cleanObj h →
  keys ≠ [] → Forall (λ key, isPrimitive h0 key = true) keys →
  ∀ v, dictPath h v keys = true →
    assocInAt v keys (foldl (getPrim h) v keys) h = Ok (v, h).
Proof.
  intros Hclean Hne Hprim. induction Hprim as [|key rest Hkey Hrest IH]; [done |].
  clear Hne. intros v Hpath. cbn [dictPath] in Hpath.
  apply andb_true_iff in Hpath as [Hd Hpath].
  pose proof Hd as (l & d & -> & Hl)%isDict_ref.
  assert (Hc : cleanMap d).
  { rewrite Forall_forall in Hclean.
    apply (Hclean (ODict d)). by eapply list_elem_of_lookup_2. }
  assert (Hcur : getPrim h (VRef l) key = prop h (VRef l) (toKey key)) by done.
  destruct rest as [|key2 rest2].
  - cbn [assocInAt foldl]. rewrite Hcur. by apply (assoc_dict_same h l d).
  - assert (Hm : getM (VRef l) key h = Ok (getPrim h (VRef l) key, h)).
    { unfold getM.
      by rewrite (get_primitive h _ key (isPrimitive_any_store h0 h _ Hkey)). }
    change (assocInAt (VRef l) (key :: key2 :: rest2)
              (foldl (getPrim h) (VRef l) (key :: key2 :: rest2)))
      with (let* inner := getM (VRef l) key in
            let* sub := assocInAt inner (key2 :: rest2)
                          (foldl (getPrim h) (getPrim h (VRef l) key)
                             (key2 :: rest2)) in
            assoc (VRef l) key sub).
    rewrite (bind_Ok _ _ _ _ _ Hm).
    rewrite (bind_Ok _ _ _ _ _ (IH ltac:(done) _ Hpath)).
    rewrite Hcur. by apply (assoc_dict_same h l d).
Qed.

(** X18. Writing a deeply equal value along a path keeps the root.  In a
    store whose Dicts hold no null or undefined value and own no property
    named ["__proto__"], let [path] be a List of primitives along which
    every value a key is read from is a Dict, and let [equal] of
    [getIn(v, path)] and [x] be true.  Then [putIn(v, path, x)] returns [v]
    itself, however long the path. *)
Theorem putIn_equal_keeps_reference (f fuel : nat) (h : heap) (v path x : val) :
  Forall tidyObj h →
  isPath h path = true → dictPath h v (elems h path) = true →
  equal f h (foldl (getPrim h) v (elems h path)) x = Some true →
  (f < fuel)%nat →
  getIn v path h = Ok (foldl (getPrim h) v (elems h path), h) ∧
  ∃ h', putIn fuel v path x h = Ok (v, h') ∧ grows h h'.
Proof.
  intros Htidy Hpath Hdicts Heq Hf.
  pose proof Hpath as Hp. unfold isPath in Hp.
  apply andb_true_iff in Hp as [Ha Hev]. apply everyByFrom_Forall in Hev.
  pose proof Ha as (lp & ks & -> & Hlp)%isArray_ref.
  assert (Hcur : getIn v (VRef lp) h =
            Ok (foldl (getPrim h) v (elems h (VRef lp)), h)).
  { unfold getIn. rewrite (bind_Ok _ _ h tt h (validate_Ok h _ IsArray Ha)).
    by rewrite (getFold_primitive h _ v Hev). }
  split; [done |].
  destruct (putAny_equal_returns_prev f h Htidy fuel _ x Hf Heq [])
    as (ext & Hrun).
  rewrite app_nil_r in Hrun.
  assert (Hg : grows h (h ++ ext)) by (by apply (sound_putAny _ _ _ _ _ _ Hrun)).
  exists (h ++ ext). split; [| done].
  unfold putIn. rewrite (bind_Ok _ _ h tt h (validate_Ok h _ IsPath Hpath)).
  rewrite (bind_Ok _ _ _ _ _ Hcur), (bind_Ok _ _ _ _ _ Hrun).
  assert (Hel : elems (h ++ ext) (VRef lp) = elems h (VRef lp))
    by (apply (grows_elems h _ lp Hg), (lookup_lt_Some _ _ _ Hlp)).
  unfold assocIn, len. rewrite Hel.
  destruct (elems h (VRef lp)) as [|key rest] eqn:Hks; [done |].
  rewrite bool_decide_eq_false_2 by done.
  destruct (dictPath_grows h (h ++ ext) (key :: rest) Hg v Hdicts)
    as [Hdicts' Hsame].
  rewrite <- Hsame.
  apply (assocInAt_same h (h ++ ext) (key :: rest)
           (tidy_clean _ (grows_tidy h _ Hg Htidy)) ltac:(done) Hev v Hdicts').
Qed.

End PutInEqual.

Lemma putIn_equal_keeps_reference_witness :
  ∃ h',
    putIn (H := quietHost) 2 (VRef 2) (VRef 3) (VRef 4)
      [OList [VNum (NInt 1)]; ODict {[ "b" := VRef 0 ]}; ODict {[ "a" := VRef 1 ]};
       OList [VStr "a"; VStr "b"]; OList [VNum (NInt 1)]] = Ok (VRef 2, h').
Proof.
  destruct (putIn_equal_keeps_reference (H := quietHost) 1 2
              [OList [VNum (NInt 1)]; ODict {[ "b" := VRef 0 ]};
               ODict {[ "a" := VRef 1 ]};
               OList [VStr "a"; VStr "b"]; OList [VNum (NInt 1)]]
              (VRef 2) (VRef 3) (VRef 4)) as (_ & h' & Hrun & _).
  - repeat constructor.
    + apply (cleanMap_insert ∅ "b" (VRef 0) cleanMap_empty eq_refl).
    + apply (cleanMap_insert ∅ "a" (VRef 1) cleanMap_empty eq_refl).
  - reflexivity.
  - reflexivity.
  - reflexivity.
  - lia.
  - exists h'. exact Hrun.
Defined.
